(** * A B-Tree with parent back-references, embedded over an explicit store

    The source is [data_structures/binary_tree/b_tree.py]: one class [BTree]
    whose instances are mutable nodes.  A node owns a list of keys, a list of
    references to its children and a non-owning reference to its parent, and
    every method works by mutating nodes in place.  The embedding therefore
    keeps a store of nodes addressed by natural numbers; a reference is an
    address, object identity is equality of addresses, and every method is a
    function in a small state-and-exception monad over the store.

    Python integers are [Z].  Recursion through references is not structural,
    so the recursive methods carry a fuel argument that decreases at every
    method call. *)

From Stdlib Require Import ZArith Lia.
From stdpp Require Import base tactics option list sorting.

Local Open Scope Z_scope.
Local Set Warnings "-register-all".

(** * The program *)

(** ** Python list primitives *)

Module Py.

Section Lists.
Context {A : Type}.

(** [l[i]] for a possibly negative index: [None] stands for [IndexError]. *)
Definition norm_index (l : list A) (i : Z) : option nat :=
  let n := Z.of_nat (length l) in
  if (0 <=? i) && (i <? n) then Some (Z.to_nat i)
  else if (i <? 0) && (0 <=? i + n) then Some (Z.to_nat (i + n))
  else None.

Definition get (l : list A) (i : Z) : option A :=
  match norm_index l i with
  | Some j => l !! j
  | None => None
  end.

(** [l[i] = x] *)
Definition set (l : list A) (i : Z) (x : A) : option (list A) :=
  match norm_index l i with
  | Some j => Some (<[j := x]> l)
  | None => None
  end.

(** [del l[i]] *)
Definition del (l : list A) (i : Z) : option (list A) :=
  match norm_index l i with
  | Some j => Some (take j l ++ drop (S j) l)
  | None => None
  end.

(** [l.insert(i, x)] for [0 <= i]; an index past the end appends. *)
Definition insert_at (l : list A) (i : nat) (x : A) : list A :=
  take i l ++ x :: drop i l.

(** [l[i:i+1] = r] for [0 <= i]: slices clamp to the length. *)
Definition splice1 (l : list A) (i : nat) (r : list A) : list A :=
  take i l ++ r ++ drop (S i) l.

(** [l[-1:] = r]: replaces the last element, or everything of an empty
    list. *)
Definition splice_last (l : list A) (r : list A) : list A :=
  take (length l - 1)%nat l ++ r.

(** [l.index(x)]: the first position holding [x]; [None] stands for
    [ValueError]. *)
Fixpoint index_from `{EqDecision A} (i : nat) (l : list A) (x : A)
  : option nat :=
  match l with
  | [] => None
  | y :: l' => if decide (y = x) then Some i else index_from (S i) l' x
  end.

(** [l.remove(x)]: drops the first occurrence. *)
Fixpoint remove_first `{EqDecision A} (l : list A) (x : A)
  : option (list A) :=
  match l with
  | [] => None
  | y :: l' =>
      if decide (y = x) then Some l'
      else match remove_first l' x with
           | Some r => Some (y :: r)
           | None => None
           end
  end.
End Lists.

Definition index `{EqDecision A} (l : list A) (x : A) : option nat :=
  index_from 0 l x.

End Py.

(** ** The class *)

Module BTree.

(** A reference to a node. *)
Abbreviation ref := nat.

(** The four attributes set by [__init__]. *)
Record node := Node {
  order : Z;
  keys : list Z;
  children : list ref;
  parent : option ref
}.

Abbreviation heap := (list node).

(** The exceptions the methods can raise; [BadRef] stands for a reference
    to no node of the store, which no run from a well-formed store meets. *)
Inductive error := IndexError | ValueError | AttributeError | BadRef.

(** The outcome of running a method: a value and the store it leaves, a
    raised exception, or exhausted fuel. *)
Inductive res (A : Type) :=
| Ok (a : A) (h : heap)
| Err (e : error)
| OutOfFuel.
Arguments Ok {A} a h.
Arguments Err {A} e.
Arguments OutOfFuel {A}.

Definition M (A : Type) := heap -> res A.

Definition ret {A} (a : A) : M A := fun h => Ok a h.
Definition raise {A} (e : error) : M A := fun _ => Err e.
Definition out_of_fuel {A} : M A := fun _ => OutOfFuel.
Definition bind {A B} (m : M A) (k : A -> M B) : M B :=
  fun h => match m h with
           | Ok a h' => k a h'
           | Err e => Err e
           | OutOfFuel => OutOfFuel
           end.

Declare Scope py_scope.
Delimit Scope py_scope with py.
Notation "x <- m ;; k" := (bind m (fun x => k))
  (at level 100, m at next level, right associativity) : py_scope.
Notation "m ;;; k" := (bind m (fun _ => k))
  (at level 100, right associativity) : py_scope.
Local Open Scope py_scope.

(** Lifting a list primitive that may raise. *)
Definition lift {A} (e : error) (o : option A) : M A :=
  match o with
  | Some a => ret a
  | None => raise e
  end.

(** Dereferencing, attribute assignment and object creation. *)
Definition load (r : ref) : M node :=
  fun h => match h !! r with
           | Some n => Ok n h
           | None => Err BadRef
           end.

Definition store (r : ref) (n : node) : M unit :=
  fun h => match h !! r with
           | Some _ => Ok tt (<[r := n]> h)
           | None => Err BadRef
           end.

Definition alloc (n : node) : M ref :=
  fun h => Ok (length h) (h ++ [n]).

Definition set_keys (r : ref) (ks : list Z) : M unit :=
  n <- load r ;; store r (Node (order n) ks (children n) (parent n)).

Definition set_children (r : ref) (cs : list ref) : M unit :=
  n <- load r ;; store r (Node (order n) (keys n) cs (parent n)).

Definition set_parent (r : ref) (p : option ref) : M unit :=
  n <- load r ;; store r (Node (order n) (keys n) (children n) p).

(** [for x in l: body(x)] *)
Fixpoint for_each {A} (l : list A) (body : A -> M unit) : M unit :=
  match l with
  | [] => ret tt
  | x :: l' => body x ;;; for_each l' body
  end.

(** *** The scanning loops

    [__contains__], [insert] and [remove] all walk the keys with
    [for i in range(len(self.keys))], testing [keys[i] == value] first and
    [keys[i] > value] second, and leave the loop at the first test that
    succeeds.  Nothing is mutated before the loop is left, so the loop is a
    pure function of the keys. *)
Inductive slot :=
| Hit (i : nat)     (* keys[i] == value *)
| Above (i : nat)   (* keys[i] > value, no earlier key matched *)
| Past.             (* the loop ran to its end *)

Fixpoint find_slot_from (i : nat) (ks : list Z) (value : Z) : slot :=
  match ks with
  | [] => Past
  | k :: ks' =>
      if k =? value then Hit i
      else if value <? k then Above i
      else find_slot_from (S i) ks' value
  end.

Definition find_slot (ks : list Z) (value : Z) : slot :=
  find_slot_from 0 ks value.

(** The loop of [_insert_recurse] only tests [keys[i] > median]. *)
Fixpoint first_above_from (i : nat) (ks : list Z) (median : Z) : option nat :=
  match ks with
  | [] => None
  | k :: ks' =>
      if median <? k then Some i else first_above_from (S i) ks' median
  end.

Definition first_above (ks : list Z) (median : Z) : option nat :=
  first_above_from 0 ks median.

Definition len {A} (l : list A) : Z := Z.of_nat (length l).

(** Truth value of a list: non-empty. *)
Definition truthy {A} (l : list A) : bool :=
  match l with [] => false | _ => true end.

(** *** [__contains__]

    No method ever stores [None] in a [children] list, so the tests
    [self.children[i] is None] never succeed and are left out. *)
Fixpoint contains (fuel : nat) (self : ref) (value : Z) : M bool :=
  match fuel with
  | O => out_of_fuel
  | S fuel =>
      n <- load self ;;
      match find_slot (keys n) value with
      | Hit _ => ret true
      | Above i =>
          if truthy (children n) then
            c <- lift IndexError (Py.get (children n) (Z.of_nat i)) ;;
            contains fuel c value
          else ret false
      | Past =>
          if truthy (children n) then
            c <- lift IndexError (Py.get (children n) (-1)) ;;
            contains fuel c value
          else ret false
      end
  end.

(** *** [_insert_fix_parent_refs] *)
Definition _insert_fix_parent_refs (self : ref) : M unit :=
  n <- load self ;;
  for_each (children n) (fun child => set_parent child (Some self)).

(** [BTree(order, keys, parent, children)]; [children=None] gives a new
    empty list. *)
Definition new (o : Z) (ks : list Z) (p : option ref)
    (cs : option (list ref)) : M ref :=
  alloc (Node o ks (default [] cs) p).

(** *** [_insert_median_split], [_insert_recurse], [insert] *)
Fixpoint _insert_median_split (fuel : nat) (self : ref) : M unit :=
  match fuel with
  | O => out_of_fuel
  | S fuel =>
      n <- load self ;;
      let median_index := (length (keys n) / 2)%nat in
      median <- lift IndexError (Py.get (keys n) (Z.of_nat median_index)) ;;
      let left := take median_index (keys n) in
      let right := drop (S median_index) (keys n) in
      let left_children :=
        if truthy (children n) then Some (take (S median_index) (children n))
        else None in
      let right_children :=
        if truthy (children n) then Some (drop (S median_index) (children n))
        else None in
      match parent n with
      | None =>
          set_keys self [median] ;;;
          l <- new (order n) left (Some self) left_children ;;
          r <- new (order n) right (Some self) right_children ;;
          set_children self [l; r] ;;;
          n' <- load self ;;
          for_each (children n') _insert_fix_parent_refs
      | Some p => _insert_recurse fuel p median left right
      end
  end

with _insert_recurse (fuel : nat) (self : ref) (median : Z)
    (left right : list Z) : M unit :=
  match fuel with
  | O => out_of_fuel
  | S fuel =>
      n <- load self ;;
      match first_above (keys n) median with
      | Some i =>
          set_keys self (Py.insert_at (keys n) i median) ;;;
          l <- new (order n) left (Some self) None ;;
          r <- new (order n) right (Some self) None ;;
          n1 <- load self ;;
          set_children self (Py.splice1 (children n1) i [l; r])
      | None =>
          set_keys self (keys n ++ [median]) ;;;
          l <- new (order n) left (Some self) None ;;
          r <- new (order n) right (Some self) None ;;
          n1 <- load self ;;
          set_children self (Py.splice_last (children n1) [l; r])
      end ;;;
      n' <- load self ;;
      if order n' <? len (keys n') then _insert_median_split fuel self
      else ret tt
  end.

Fixpoint insert (fuel : nat) (self : ref) (value : Z) : M bool :=
  match fuel with
  | O => out_of_fuel
  | S fuel =>
      n <- load self ;;
      if truthy (children n) then
        match find_slot (keys n) value with
        | Hit _ => ret false
        | Above i =>
            c <- lift IndexError (Py.get (children n) (Z.of_nat i)) ;;
            insert fuel c value
        | Past =>
            c <- lift IndexError (Py.get (children n) (-1)) ;;
            insert fuel c value
        end
      else
        match find_slot (keys n) value with
        | Hit _ => ret false
        | s =>
            set_keys self
              match s with
              | Above i => Py.insert_at (keys n) i value
              | _ => keys n ++ [value]
              end ;;;
            n' <- load self ;;
            if order n' <? len (keys n') then
              _insert_median_split fuel self ;;; ret true
            else ret true
        end
  end.

(** *** [maximum], [minimum] *)
Fixpoint maximum (fuel : nat) (self : ref) : M Z :=
  match fuel with
  | O => out_of_fuel
  | S fuel =>
      n <- load self ;;
      if truthy (children n) then
        c <- lift IndexError (Py.get (children n) (-1)) ;;
        maximum fuel c
      else lift IndexError (Py.get (keys n) (-1))
  end.

Fixpoint minimum (fuel : nat) (self : ref) : M Z :=
  match fuel with
  | O => out_of_fuel
  | S fuel =>
      n <- load self ;;
      if truthy (children n) then
        c <- lift IndexError (Py.get (children n) 0) ;;
        minimum fuel c
      else lift IndexError (Py.get (keys n) 0)
  end.

(** *** [left_sibling], [right_sibling], [num_children] *)
Definition num_children (self : ref) : M Z :=
  n <- load self ;; ret (len (children n)).

Definition left_sibling (self : ref) : M (option ref) :=
  n <- load self ;;
  match parent n with
  | None => ret None
  | Some p =>
      pn <- load p ;;
      index <- lift ValueError (Py.index (children pn) self) ;;
      if (index =? 0)%nat then ret None
      else
        s <- lift IndexError (Py.get (children pn) (Z.of_nat index - 1)) ;;
        ret (Some s)
  end.

Definition right_sibling (self : ref) : M (option ref) :=
  n <- load self ;;
  match parent n with
  | None => ret None
  | Some p =>
      pn <- load p ;;
      index <- lift ValueError (Py.index (children pn) self) ;;
      pc <- num_children p ;;
      if Z.of_nat index =? pc - 1 then ret None
      else
        s <- lift IndexError (Py.get (children pn) (Z.of_nat index + 1)) ;;
        ret (Some s)
  end.

(** *** The branch taken by [_remove_rebalance]

    The chain of tests in [_remove_rebalance] only reads the store; it is
    kept apart from the calls it selects. *)
Inductive rebalance_branch :=
| NoParent
| RotateRight (p : ref)
| RotateLeft (p : ref)
| CombineSelf (p : ref)
| CombineRight (p : ref) (sibling : option ref).

(** [x and x.num_children > self.order], with [x] a sibling property that
    is evaluated again for its second use. *)
Definition has_excess (sibling : M (option ref)) (o : Z) : M bool :=
  s <- sibling ;;
  match s with
  | None => ret false
  | Some _ =>
      s' <- sibling ;;
      match s' with
      | None => raise AttributeError
      | Some x => c <- num_children x ;; ret (o <? c)
      end
  end.

Definition rebalance_choice (self : ref) : M rebalance_branch :=
  n <- load self ;;
  match parent n with
  | None => ret NoParent
  | Some p =>
      l <- has_excess (left_sibling self) (order n) ;;
      if l then ret (RotateRight p)
      else
        r <- has_excess (right_sibling self) (order n) ;;
        if r then ret (RotateLeft p)
        else
          ls <- left_sibling self ;;
          match ls with
          | Some _ => ret (CombineSelf p)
          | None => rs <- right_sibling self ;; ret (CombineRight p rs)
          end
  end.

(** The result of [remove]: [True], [False], or [None] when the method
    runs off its end. *)
Inductive pyresult := PyTrue | PyFalse | PyNone.

(** *** [remove] and its helpers

    [print(self)] at the head of [_remove_rebalance] writes to standard
    output and does not touch the nodes; it is left out. *)
Fixpoint remove (fuel : nat) (self : ref) (value : Z) : M pyresult :=
  match fuel with
  | O => out_of_fuel
  | S fuel =>
      n <- load self ;;
      if truthy (children n) then
        match find_slot (keys n) value with
        | Hit i =>
            c <- lift IndexError (Py.get (children n) (Z.of_nat i)) ;;
            pred <- maximum fuel c ;;
            n1 <- load self ;;
            ks <- lift IndexError (Py.set (keys n1) (Z.of_nat i) pred) ;;
            set_keys self ks ;;;
            n2 <- load self ;;
            c' <- lift IndexError (Py.get (children n2) (Z.of_nat i)) ;;
            remove fuel c' pred
        | Above i =>
            c <- lift IndexError (Py.get (children n) (Z.of_nat i)) ;;
            remove fuel c value
        | Past =>
            c <- lift IndexError (Py.get (children n) (-1)) ;;
            remove fuel c value
        end
      else
        match find_slot (keys n) value with
        | Hit _ =>
            ks <- lift ValueError (Py.remove_first (keys n) value) ;;
            set_keys self ks ;;;
            n' <- load self ;;
            (if len (keys n') <? order n' / 2 then _remove_rebalance fuel self
             else ret tt) ;;;
            ret PyTrue
        | Above _ => ret PyFalse
        | Past => ret PyNone
        end
  end

with _remove_rebalance (fuel : nat) (self : ref) : M unit :=
  match fuel with
  | O => out_of_fuel
  | S fuel =>
      b <- rebalance_choice self ;;
      match b with
      | NoParent => ret tt
      | RotateRight p => _remove_rotate_right fuel p self
      | RotateLeft p => _remove_rotate_left fuel p self
      | CombineSelf p => _remove_combine_left fuel p (Some self)
      | CombineRight p s => _remove_combine_left fuel p s
      end
  end

with _remove_rotate_left (fuel : nat) (self : ref) (dest : ref) : M unit :=
  match fuel with
  | O => out_of_fuel
  | S fuel =>
      n <- load self ;;
      index <- lift ValueError (Py.index (children n) dest) ;;
      k <- lift IndexError (Py.get (keys n) (Z.of_nat index)) ;;
      insert fuel dest k ;;;
      n1 <- load self ;;
      c <- lift IndexError (Py.get (children n1) (Z.of_nat index + 1)) ;;
      m <- minimum fuel c ;;
      n2 <- load self ;;
      ks <- lift IndexError (Py.set (keys n2) (Z.of_nat index) m) ;;
      set_keys self ks ;;;
      n3 <- load self ;;
      c' <- lift IndexError (Py.get (children n3) (Z.of_nat index + 1)) ;;
      k' <- lift IndexError (Py.get (keys n3) (Z.of_nat index)) ;;
      remove fuel c' k' ;;; ret tt
  end

with _remove_rotate_right (fuel : nat) (self : ref) (dest : ref) : M unit :=
  match fuel with
  | O => out_of_fuel
  | S fuel =>
      n <- load self ;;
      i <- lift ValueError (Py.index (children n) dest) ;;
      let index := Z.of_nat i - 1 in
      k <- lift IndexError (Py.get (keys n) index) ;;
      insert fuel dest k ;;;
      n1 <- load self ;;
      c <- lift IndexError (Py.get (children n1) index) ;;
      m <- maximum fuel c ;;
      n2 <- load self ;;
      ks <- lift IndexError (Py.set (keys n2) index m) ;;
      set_keys self ks ;;;
      n3 <- load self ;;
      c' <- lift IndexError (Py.get (children n3) index) ;;
      k' <- lift IndexError (Py.get (keys n3) index) ;;
      remove fuel c' k' ;;; ret tt
  end

with _remove_combine_left (fuel : nat) (self : ref) (child : option ref)
    : M unit :=
  match fuel with
  | O => out_of_fuel
  | S fuel =>
      n <- load self ;;
      (* [self.children.index(child)]: [None] is in no [children] list *)
      ch <- lift ValueError child ;;
      i <- lift ValueError (Py.index (children n) ch) ;;
      let index := Z.of_nat i - 1 in
      left <- lift IndexError (Py.get (children n) index) ;;
      sep <- lift IndexError (Py.get (keys n) index) ;;
      ln <- load left ;;
      set_keys left (keys ln ++ [sep]) ;;;
      ln1 <- load left ;;
      cn <- load ch ;;
      set_keys left (keys ln1 ++ keys cn) ;;;
      ln2 <- load left ;;
      cn1 <- load ch ;;
      set_children left (children ln2 ++ children cn1) ;;;
      _insert_fix_parent_refs left ;;;
      n1 <- load self ;;
      ks <- lift IndexError (Py.del (keys n1) index) ;;
      set_keys self ks ;;;
      n2 <- load self ;;
      if len (keys n2) <? order n2 / 2 then _remove_rebalance fuel self
      else ret tt
  end.

(** An empty tree: [BTree(order)]. *)
Definition empty (o : Z) : heap := [Node o [] [] None].

(** [[tree.insert(x) for x in values]] *)
Fixpoint insert_all (fuel : nat) (self : ref) (values : list Z) : M unit :=
  match values with
  | [] => ret tt
  | x :: values' => insert fuel self x ;;; insert_all fuel self values'
  end.

End BTree.

Import BTree.
Local Open Scope py_scope.

(** * Vocabulary of the specification *)

(** ** The tree under a root, read from the store *)

(** [reach h root r]: [r] is [root] or a descendant of it through
    [children]. *)
Inductive reach (h : heap) (root : ref) : ref -> Prop :=
| reach_root : reach h root root
| reach_child p n c :
    reach h root p -> h !! p = Some n -> c ∈ children n -> reach h root c.

(** The key set of the tree under [root]. *)
Definition stored (h : heap) (root : ref) (k : Z) : Prop :=
  exists r n, reach h root r /\ h !! r = Some n /\ k ∈ keys n.

(** The attributes of a node, [None] for a dangling reference. *)
Definition keys_of (h : heap) (r : ref) : option (list Z) :=
  keys <$> h !! r.

Definition children_of (h : heap) (r : ref) : option (list ref) :=
  children <$> h !! r.

Definition parent_of (h : heap) (r : ref) : option (option ref) :=
  parent <$> h !! r.

(** [ceil(order/2) - 1], the least number of keys of a non-root node. *)
Definition min_keys (o : Z) : Z := (o + 1) / 2 - 1.

(** The store after [[tree.insert(x) for x in values]] on [BTree(o)]; the
    root is reference [0]. *)
Definition build (o : Z) (values : list Z) : res unit :=
  insert_all (S (length values)) 0%nat values (empty o).

Definition heap_of {A} (r : res A) : heap :=
  match r with Ok _ h => h | _ => [] end.

(** ** The tree a store represents

    A [shape] is the tree read off the store: every node with its reference,
    its keys and the shapes of its children. *)
Inductive shape := Sh (id : ref) (ks : list Z) (cs : list shape).

Definition sid (t : shape) : ref := match t with Sh id _ _ => id end.

Definition skeys (t : shape) : list Z := match t with Sh _ ks _ => ks end.

Definition skids (t : shape) : list shape := match t with Sh _ _ cs => cs end.

(** The references of all nodes, and all nodes as shapes. *)
Fixpoint ids (t : shape) : list ref :=
  match t with Sh id _ cs => id :: (cs ≫= ids) end.

Fixpoint subtrees (t : shape) : list shape :=
  match t with Sh _ _ cs => t :: (cs ≫= subtrees) end.

Fixpoint height (t : shape) : nat :=
  match t with Sh _ _ cs => S (max_list (height <$> cs)) end.

(** Keys in order: child 0, key 0, child 1, key 1, ..., last child.  What
    follows the first child is [itail]; the part before child [i] is
    [ileft]. *)
Fixpoint interleave (ls : list (list Z)) (ks : list Z) : list Z :=
  match ls with
  | [] => ks
  | l :: ls' =>
      l ++ match ks with
           | [] => concat ls'
           | k :: ks' => k :: interleave ls' ks'
           end
  end.

Definition itail (ks : list Z) (ls : list (list Z)) : list Z :=
  match ks with
  | [] => concat ls
  | k :: ks' => k :: interleave ls ks'
  end.

Fixpoint ileft (ls : list (list Z)) (ks : list Z) : list Z :=
  match ls, ks with
  | l :: ls', k :: ks' => l ++ k :: ileft ls' ks'
  | _, _ => []
  end.

Fixpoint inorder (t : shape) : list Z :=
  match t with Sh _ ks cs => interleave (inorder <$> cs) ks end.

(** [repr o h p t]: in the store [h] the node [sid t] has order [o], the
    keys and children of [t] and parent [p], and so on below it. *)
Inductive repr (o : Z) (h : heap) : option ref -> shape -> Prop :=
| repr_node p id ks cs :
    h !! id = Some (Node o ks (sid <$> cs) p) ->
    Forall (repr o h (Some id)) cs ->
    repr o h p (Sh id ks cs).

(** Capacity and child count of one node. *)
Definition node_ok (o : Z) (t : shape) : Prop :=
  len (skeys t) <= o /\
  (skids t = [] \/ length (skids t) = S (length (skeys t))).

(** A well-formed tree of order [o] under [root]: the store holds a tree
    (no node is shared, every parent reference is accurate), the keys are
    strictly increasing in order (sorted within each node, every child
    between its separators), no node holds more than [o] keys and every
    inner node has one more child than keys. *)
Record wf (o : Z) (h : heap) (root : ref) (t : shape) : Prop := {
  wf_order : 1 <= o;
  wf_root : sid t = root;
  wf_repr : repr o h None t;
  wf_nodup : NoDup (ids t);
  wf_sorted : StronglySorted Z.lt (inorder t);
  wf_nodes : Forall (node_ok o) (subtrees t)
}.

Definition well_formed (o : Z) (h : heap) (root : ref) : Prop :=
  exists t, wf o h root t.

(** Invariant 3 of the data model: every node but the root holds at least
    [ceil(o/2) - 1] keys. *)
Definition occupancy (o : Z) (h : heap) (root : ref) : Prop :=
  forall r n, reach h root r -> r <> root -> h !! r = Some n ->
    min_keys o <= len (keys n).

(** [remove] without rebalancing: what [h'] differs from [h] in.  The
    value is key [j] of a node [x] under [root].  If [x] is a leaf, that key
    is gone from it.  If not, the key has become [pred], the largest key
    under child [j] of [x], and [pred] is gone from the end of the leaf
    under that child that held it.  Nothing else differs. *)
Definition removed_in_place (h : heap) (root : ref) (v : Z) (h' : heap)
  : Prop :=
  exists x xn j,
    reach h root x /\ h !! x = Some xn /\ keys xn !! j = Some v /\
    (children xn = [] /\
     h' = <[x := Node (order xn) (take j (keys xn) ++ drop (S j) (keys xn))
                   [] (parent xn)]> h
     \/
     exists c pred leaf ln lk,
       children xn !! j = Some c /\
       stored h c pred /\ (forall k, stored h c k -> k <= pred) /\
       reach h c leaf /\ h !! leaf = Some ln /\ children ln = [] /\
       keys ln = lk ++ [pred] /\
       h' = <[leaf := Node (order ln) lk [] (parent ln)]>
              (<[x := Node (order xn) (<[j := pred]> (keys xn))
                         (children xn) (parent xn)]> h)).

(** ** Auxiliary notions for the proofs *)

(** The result of a scan that started [i] positions further left. *)
Definition shift (i : nat) (s : slot) : slot :=
  match s with
  | Hit j => Hit (i + j)
  | Above j => Above (i + j)
  | Past => Past
  end.

(** The position the loop stops at, as an index into the children. *)
Definition slot_pos (ks : list Z) (s : slot) : nat :=
  match s with
  | Hit i | Above i => i
  | Past => length ks
  end.

(** A leaf holds at least one key. *)
Definition leaf_nonempty (s : shape) : Prop := skids s = [] -> skeys s <> [].

(** A leaf has room for one more key. *)
Definition leaf_room (o : Z) (s : shape) : Prop :=
  skids s = [] -> len (skeys s) < o.

(** A leaf can lose a key and still hold [order // 2] keys, the bound
    below which [remove] rebalances. *)
Definition leaf_spare (o : Z) (s : shape) : Prop :=
  skids s = [] -> o / 2 < len (skeys s).

(** A node after [child.parent = p]. *)
Definition reparent (n : node) (p : ref) : node :=
  Node (order n) (keys n) (children n) (Some p).

(** ** Trees with a focus

    [insert] walks down from the root to a leaf and [_insert_median_split]
    walks back up through the parent references.  Both walks are followed
    with a focus: the subtree at the current node and the frames of its
    ancestors, innermost first.  A frame records the ancestor's reference,
    its keys and children to the left of the focus, and those to the
    right. *)
Record frame := Frame {
  f_id : ref;
  f_kl : list Z;
  f_cl : list shape;
  f_kr : list Z;
  f_cr : list shape
}.

Definition plug1 (f : frame) (t : shape) : shape :=
  Sh (f_id f) (f_kl f ++ f_kr f) (f_cl f ++ t :: f_cr f).

Fixpoint plug (ctx : list frame) (t : shape) : shape :=
  match ctx with
  | [] => t
  | f :: ctx' => plug ctx' (plug1 f t)
  end.

Definition ctx_parent (ctx : list frame) : option ref :=
  match ctx with
  | [] => None
  | f :: _ => Some (f_id f)
  end.

Fixpoint ctx_root (ctx : list frame) (x : ref) : ref :=
  match ctx with
  | [] => x
  | f :: ctx' => ctx_root ctx' (f_id f)
  end.

Fixpoint ctx_ids (ctx : list frame) : list ref :=
  match ctx with
  | [] => []
  | f :: ctx' =>
      f_id f :: (f_cl f ≫= ids) ++ (f_cr f ≫= ids) ++ ctx_ids ctx'
  end.

Fixpoint ctx_left (ctx : list frame) : list Z :=
  match ctx with
  | [] => []
  | f :: ctx' => ctx_left ctx' ++ ileft (inorder <$> f_cl f) (f_kl f)
  end.

Fixpoint ctx_right (ctx : list frame) : list Z :=
  match ctx with
  | [] => []
  | f :: ctx' => itail (f_kr f) (inorder <$> f_cr f) ++ ctx_right ctx'
  end.

Fixpoint repr_ctx (o : Z) (h : heap) (ctx : list frame) (x : ref) : Prop :=
  match ctx with
  | [] => True
  | f :: ctx' =>
      h !! f_id f =
        Some (Node o (f_kl f ++ f_kr f)
                ((sid <$> f_cl f) ++ x :: (sid <$> f_cr f))
                (ctx_parent ctx')) /\
      Forall (repr o h (Some (f_id f))) (f_cl f ++ f_cr f) /\
      repr_ctx o h ctx' (f_id f)
  end.

Definition frame_ok (o : Z) (f : frame) : Prop :=
  length (f_cl f) = length (f_kl f) /\
  length (f_cr f) = length (f_kr f) /\
  len (f_kl f ++ f_kr f) <= o /\
  Forall (fun c => Forall (node_ok o) (subtrees c)) (f_cl f ++ f_cr f).

(** The invariant of both walks; the number of keys of the focused node is
    stated apart, since on the way up that node is over-full. *)
Record zipper (o : Z) (h : heap) (root : ref) (ctx : list frame)
    (t : shape) : Prop := {
  z_order : 1 <= o;
  z_root : ctx_root ctx (sid t) = root;
  z_ctx : repr_ctx o h ctx (sid t);
  z_repr : repr o h (ctx_parent ctx) t;
  z_nodup : NoDup (ids t ++ ctx_ids ctx);
  z_sorted : StronglySorted Z.lt (ctx_left ctx ++ inorder t ++ ctx_right ctx);
  z_frames : Forall (frame_ok o) ctx;
  z_kids : Forall (fun c => Forall (node_ok o) (subtrees c)) (skids t);
  z_count : skids t = [] \/ length (skids t) = S (length (skeys t))
}.

(** ** Concrete trees *)

(** Order 2, root [2] over the leaves [1] and [3]. *)
Definition small_tree : heap :=
  [Node 2 [2] [1%nat; 2%nat] None;
   Node 2 [1] [] (Some 0%nat);
   Node 2 [3] [] (Some 0%nat)].

Definition small_shape : shape :=
  Sh 0%nat [2] [Sh 1%nat [1] []; Sh 2%nat [3] []].

(** Order 2, root [5] over an empty leaf and the leaf [7]. *)
Definition holed_tree : heap :=
  [Node 2 [5] [1%nat; 2%nat] None;
   Node 2 [] [] (Some 0%nat);
   Node 2 [7] [] (Some 0%nat)].

Definition holed_shape : shape :=
  Sh 0%nat [5] [Sh 1%nat [] []; Sh 2%nat [7] []].

(** Order 2, a single leaf holding [1,2]. *)
Definition leaf_tree : heap := [Node 2 [1; 2] [] None].

Definition leaf_shape : shape := Sh 0%nat [1; 2] [].

(** Order 3, root [3] over the leaves [1,2] and [4]. *)
Definition order3_tree : heap :=
  [Node 3 [3] [1%nat; 2%nat] None;
   Node 3 [1; 2] [] (Some 0%nat);
   Node 3 [4] [] (Some 0%nat)].

Definition order3_shape : shape :=
  Sh 0%nat [3] [Sh 1%nat [1; 2] []; Sh 2%nat [4] []].

(** Order 2, root [3] over the leaves [1,2] and [4,5]. *)
Definition full_tree : heap :=
  [Node 2 [3] [1%nat; 2%nat] None;
   Node 2 [1; 2] [] (Some 0%nat);
   Node 2 [4; 5] [] (Some 0%nat)].

Definition full_shape : shape :=
  Sh 0%nat [3] [Sh 1%nat [1; 2] []; Sh 2%nat [4; 5] []].

(** Order 4, root [5] over the leaves [1,2,3] and [6,7,8]. *)
Definition rotation_tree : heap :=
  [Node 4 [5] [1%nat; 2%nat] None;
   Node 4 [1; 2; 3] [] (Some 0%nat);
   Node 4 [6; 7; 8] [] (Some 0%nat)].

(** Order 1, root [2] over the leaf [1] and an empty leaf. *)
Definition order1_tree : heap :=
  [Node 1 [2] [1%nat; 2%nat] None;
   Node 1 [1] [] (Some 0%nat);
   Node 1 [] [] (Some 0%nat)].

Definition order1_shape : shape :=
  Sh 0%nat [2] [Sh 1%nat [1] []; Sh 2%nat [] []].

(** Order 2, root [5] over the leaves [7] and [9]: the left leaf is on the
    wrong side of the separator. *)
Definition unordered_tree : heap :=
  [Node 2 [5] [1%nat; 2%nat] None;
   Node 2 [7] [] (Some 0%nat);
   Node 2 [9] [] (Some 0%nat)].

(** * Properties *)

(** ** Running the monad *)

Lemma bind_ok {A B} (m : M A) (k : A -> M B) h a h' :
  m h = Ok a h' -> bind m k h = k a h'.
Proof. unfold bind. intros ->. reflexivity. Qed.

Lemma load_ok h r n : h !! r = Some n -> load r h = Ok n h.
Proof. unfold load. intros ->. reflexivity. Qed.

Lemma store_ok h r n n' :
  h !! r = Some n -> store r n' h = Ok tt (<[r := n']> h).
Proof. unfold store. intros ->. reflexivity. Qed.

Lemma set_keys_ok h r n ks :
  h !! r = Some n ->
  set_keys r ks h = Ok tt (<[r := Node (order n) ks (children n) (parent n)]> h).
Proof.
  intros H. unfold set_keys. rewrite (bind_ok _ _ _ _ _ (load_ok _ _ _ H)).
  eapply store_ok, H.
Qed.

Lemma set_children_ok h r n cs :
  h !! r = Some n ->
  set_children r cs h = Ok tt (<[r := Node (order n) (keys n) cs (parent n)]> h).
Proof.
  intros H. unfold set_children.
  rewrite (bind_ok _ _ _ _ _ (load_ok _ _ _ H)).
  eapply store_ok, H.
Qed.

Lemma set_parent_ok h r n p :
  h !! r = Some n ->
  set_parent r p h = Ok tt (<[r := Node (order n) (keys n) (children n) p]> h).
Proof.
  intros H. unfold set_parent.
  rewrite (bind_ok _ _ _ _ _ (load_ok _ _ _ H)).
  eapply store_ok, H.
Qed.

(** ** Python indexing *)

Lemma py_get_nat {A} (l : list A) (i : nat) x :
  l !! i = Some x -> Py.get l (Z.of_nat i) = Some x.
Proof.
  intros H. pose proof (lookup_lt_Some _ _ _ H) as Hlt.
  unfold Py.get, Py.norm_index.
  destruct (Z.leb_spec 0 (Z.of_nat i)); [|lia].
  destruct (Z.ltb_spec (Z.of_nat i) (Z.of_nat (length l))); [|lia].
  simpl. rewrite Nat2Z.id. exact H.
Qed.

Lemma py_get_last {A} (l : list A) x : Py.get (l ++ [x]) (-1) = Some x.
Proof.
  unfold Py.get, Py.norm_index. rewrite length_app. simpl.
  destruct (Z.ltb_spec (-1) 0); [|lia].
  destruct (Z.leb_spec 0 (-1 + Z.of_nat (length l + 1))); [|lia].
  simpl.
  replace (Z.to_nat (-1 + Z.of_nat (length l + 1))) with (length l) by lia.
  apply list_lookup_middle. reflexivity.
Qed.

Lemma py_get_last_lookup {A} (l : list A) x :
  l !! (length l - 1)%nat = Some x -> Py.get l (-1) = Some x.
Proof.
  intros H. destruct (decide (l = [])) as [->|Hne]; [discriminate|].
  destruct (exists_last Hne) as (l' & y & ->).
  rewrite length_app in H. simpl in H.
  replace (length l' + 1 - 1)%nat with (length l') in H by lia.
  rewrite list_lookup_middle in H by reflexivity.
  injection H as ->. apply py_get_last.
Qed.

Lemma py_get_nil {A} i : Py.get (@nil A) i = None.
Proof.
  unfold Py.get. destruct (Py.norm_index _ _); reflexivity.
Qed.

(** ** The scanning loops on sorted keys *)

Lemma find_slot_from_shift i ks v :
  find_slot_from i ks v = shift i (find_slot ks v).
Proof.
  unfold find_slot. revert i. induction ks as [|k ks IH]; intros i; simpl.
  - reflexivity.
  - destruct (k =? v); [simpl; f_equal; lia|].
    destruct (v <? k); [simpl; f_equal; lia|].
    rewrite (IH (S i)), (IH 1%nat).
    destruct (find_slot_from 0 ks v); simpl; f_equal; lia.
Qed.

Lemma find_slot_cons k ks v :
  find_slot (k :: ks) v =
    if k =? v then Hit 0 else if v <? k then Above 0
    else shift 1 (find_slot ks v).
Proof.
  unfold find_slot at 1. simpl. rewrite find_slot_from_shift. reflexivity.
Qed.

Lemma hit_or_miss ks v :
  (exists j, find_slot ks v = Hit j) \/ (forall j, find_slot ks v <> Hit j).
Proof. destruct (find_slot ks v); [left; eauto|right; discriminate..]. Qed.

Lemma find_slot_sorted ks v :
  StronglySorted Z.lt ks ->
  match find_slot ks v with
  | Hit i => ks !! i = Some v
  | Above i =>
      (i < length ks)%nat /\
      Forall (fun k => k < v) (take i ks) /\ Forall (fun k => v < k) (drop i ks)
  | Past => Forall (fun k => k < v) ks
  end.
Proof.
  induction 1 as [|k ks Hs IH Hk]; [constructor|].
  rewrite find_slot_cons.
  destruct (Z.eqb_spec k v) as [->|Hne]; [reflexivity|].
  destruct (Z.ltb_spec v k) as [Hlt|Hge].
  - simpl. split; [lia|]. split; [constructor|].
    constructor; [exact Hlt|].
    eapply Forall_impl; [exact Hk|]. simpl. intros; lia.
  - destruct (find_slot ks v) as [i|i|]; simpl.
    + exact IH.
    + destruct IH as (Hi & Hl & Hr). split; [lia|]. split; [|exact Hr].
      constructor; [lia|exact Hl].
    + constructor; [lia|exact IH].
Qed.

Lemma find_slot_hit ks v :
  StronglySorted Z.lt ks -> v ∈ ks -> exists i, find_slot ks v = Hit i.
Proof.
  intros Hs Hin. pose proof (find_slot_sorted ks v Hs) as H.
  destruct (find_slot ks v) as [i|i|]; [eauto| |].
  - destruct H as (_ & Hl & Hr). exfalso.
    rewrite <- (take_drop i ks) in Hin. apply elem_of_app in Hin as [Hin|Hin].
    + rewrite Forall_forall in Hl. specialize (Hl _ Hin). lia.
    + rewrite Forall_forall in Hr. specialize (Hr _ Hin). lia.
  - exfalso. rewrite Forall_forall in H. specialize (H _ Hin). lia.
Qed.

Lemma find_slot_miss ks v :
  v ∉ ks -> forall i, find_slot ks v <> Hit i.
Proof.
  induction ks as [|k ks IH]; intros Hn i; [discriminate|].
  rewrite find_slot_cons.
  destruct (Z.eqb_spec k v) as [->|Hne].
  - exfalso. apply Hn. left.
  - destruct (v <? k); [discriminate|].
    assert (v ∉ ks) as Hn' by (intros ?; apply Hn; right; assumption).
    specialize (IH Hn'). destruct (find_slot ks v); simpl; try discriminate.
    intros [= <-]. eapply IH. reflexivity.
Qed.

(** ** Keys in order *)

Lemma interleave_cons l ls ks : interleave (l :: ls) ks = l ++ itail ks ls.
Proof. reflexivity. Qed.

Lemma interleave_middle ll l lr kl kr :
  length ll = length kl ->
  interleave (ll ++ l :: lr) (kl ++ kr) = ileft ll kl ++ l ++ itail kr lr.
Proof.
  revert kl. induction ll as [|l0 ll IH]; intros [|k kl] Hlen;
    try discriminate; simpl.
  - reflexivity.
  - rewrite <- app_assoc. simpl. do 2 f_equal. apply IH.
    simpl in Hlen. lia.
Qed.

Lemma interleave_middle2 ll l1 l2 lr kl m kr :
  length ll = length kl ->
  interleave (ll ++ l1 :: l2 :: lr) (kl ++ m :: kr)
  = ileft ll kl ++ l1 ++ m :: l2 ++ itail kr lr.
Proof.
  intros Hlen. rewrite interleave_middle by exact Hlen. reflexivity.
Qed.

Lemma ileft_below v ll kl :
  length ll = length kl ->
  StronglySorted Z.lt (ileft ll kl) ->
  Forall (fun k => k < v) kl -> Forall (fun k => k < v) (ileft ll kl).
Proof.
  revert kl. induction ll as [|l ll IH]; intros [|k kl] Hlen Hs Hk;
    try discriminate; simpl in *; [constructor|].
  apply Forall_cons in Hk as [Hkv Hk].
  apply StronglySorted_app in Hs as (Hlk & _ & Hs).
  apply StronglySorted_cons in Hs as [_ Hs].
  apply Forall_app. split.
  - apply Forall_forall. intros x Hx.
    assert (x < k) by (apply Hlk; [exact Hx|left]). lia.
  - constructor; [exact Hkv|]. apply IH; [lia|exact Hs|exact Hk].
Qed.

Lemma itail_above v kr lr :
  length lr = length kr ->
  StronglySorted Z.lt (itail kr lr) ->
  Forall (fun k => v < k) kr -> Forall (fun k => v < k) (itail kr lr).
Proof.
  destruct kr as [|k kr]; intros Hlen Hs Hk.
  - destruct lr; [constructor|discriminate].
  - simpl in *. apply Forall_cons in Hk as [Hkv _].
    apply StronglySorted_cons in Hs as [Hall _].
    constructor; [exact Hkv|].
    eapply Forall_impl; [exact Hall|]. simpl. intros; lia.
Qed.

Lemma keys_sublist_interleave ls ks : ks `sublist_of` interleave ls ks.
Proof.
  revert ks. induction ls as [|l ls IH]; intros ks; simpl; [reflexivity|].
  apply sublist_inserts_l. destruct ks as [|k ks]; [apply sublist_nil_l|].
  apply sublist_skip, IH.
Qed.

Lemma elem_of_concat (x : Z) (ls : list (list Z)) :
  x ∈ concat ls <-> exists l, l ∈ ls /\ x ∈ l.
Proof.
  rewrite list_elem_of_In, in_concat. split; intros (l & Hl & Hx); exists l.
  - rewrite !list_elem_of_In. auto.
  - rewrite <- !list_elem_of_In. auto.
Qed.

Lemma elem_of_interleave x ls ks :
  x ∈ interleave ls ks <-> x ∈ ks \/ exists l, l ∈ ls /\ x ∈ l.
Proof.
  revert ks. induction ls as [|l ls IH]; intros ks; simpl.
  - split; [auto|]. intros [H|(l & Hl & _)]; [exact H|inversion Hl].
  - rewrite elem_of_app. destruct ks as [|k ks].
    + rewrite elem_of_concat. split.
      * intros [H|(l' & Hl' & Hx)]; right.
        -- exists l. split; [left|exact H].
        -- exists l'. split; [right; exact Hl'|exact Hx].
      * intros [H|(l' & Hl' & Hx)]; [inversion H|].
        apply elem_of_cons in Hl' as [->|Hl']; [left; exact Hx|].
        right. eauto.
    + rewrite elem_of_cons, IH. split.
      * intros [H|[->|[H|(l' & Hl' & Hx)]]].
        -- right. exists l. split; [left|exact H].
        -- left. left.
        -- left. right. exact H.
        -- right. exists l'. split; [right; exact Hl'|exact Hx].
      * intros [H|(l' & Hl' & Hx)].
        -- apply elem_of_cons in H as [->|H]; [right; left; reflexivity|].
           right. right. left. exact H.
        -- apply elem_of_cons in Hl' as [->|Hl']; [left; exact Hx|].
           right. right. right. eauto.
Qed.

Lemma sublist_strongly_sorted (l1 l2 : list Z) :
  l1 `sublist_of` l2 -> StronglySorted Z.lt l2 -> StronglySorted Z.lt l1.
Proof.
  induction 1 as [|x l1 l2 Hsub IH|x l1 l2 Hsub IH]; intros Hs.
  - constructor.
  - apply StronglySorted_cons in Hs as [Hall Hs].
    apply StronglySorted_cons. split; [|apply IH, Hs].
    apply Forall_forall. intros y Hy. rewrite Forall_forall in Hall.
    apply Hall. eapply elem_of_sublist; eassumption.
  - apply StronglySorted_cons in Hs as [_ Hs]. apply IH, Hs.
Qed.

(** ** Shapes *)

Lemma shape_ind' (P : shape -> Prop) :
  (forall id ks cs, Forall P cs -> P (Sh id ks cs)) -> forall t, P t.
Proof.
  intros H. fix IH 1. intros [id ks cs]. apply H.
  induction cs as [|c cs IHcs]; constructor; [apply IH|apply IHcs].
Qed.

Lemma repr_inv o h p id ks cs :
  repr o h p (Sh id ks cs) ->
  h !! id = Some (Node o ks (sid <$> cs) p) /\ Forall (repr o h (Some id)) cs.
Proof. inversion 1; subst. auto. Qed.

Lemma height_child id ks cs c :
  c ∈ cs -> (height c < height (Sh id ks cs))%nat.
Proof.
  intros Hc. simpl.
  assert (height c ≤ max_list (height <$> cs))%nat; [|lia].
  apply max_list_elem_of_le, list_elem_of_fmap. eauto.
Qed.

Lemma subtrees_self t : t ∈ subtrees t.
Proof. destruct t. left. Qed.

Lemma Forall_subtrees (P : shape -> Prop) id ks cs :
  Forall P (subtrees (Sh id ks cs)) <->
  P (Sh id ks cs) /\ Forall (fun c => Forall P (subtrees c)) cs.
Proof. simpl. rewrite Forall_cons, Forall_bind. reflexivity. Qed.

Lemma inorder_child id ks cs i c :
  cs !! i = Some c -> (i <= length ks)%nat ->
  inorder (Sh id ks cs) =
    ileft (inorder <$> take i cs) (take i ks) ++ inorder c ++
    itail (drop i ks) (inorder <$> drop (S i) cs).
Proof.
  intros Hc Hi. simpl.
  rewrite <- (take_drop_middle cs i c Hc) at 1.
  rewrite <- (take_drop i ks) at 1.
  rewrite fmap_app, fmap_cons. apply interleave_middle.
  rewrite length_fmap, !length_take.
  pose proof (lookup_lt_Some _ _ _ Hc). lia.
Qed.

Lemma inner_child_count o id ks cs :
  node_ok o (Sh id ks cs) -> cs <> [] -> length cs = S (length ks).
Proof. intros [_ [H|H]] Hne; simpl in *; [contradiction|exact H]. Qed.

(** Where an unsuccessful scan of the keys of an inner node leads: the
    chosen child exists, everything before it in order is below the value
    and everything after it is above. *)
Lemma descend o id ks cs v :
  cs <> [] -> node_ok o (Sh id ks cs) ->
  StronglySorted Z.lt (inorder (Sh id ks cs)) ->
  (forall j, find_slot ks v <> Hit j) ->
  exists i c,
    i = slot_pos ks (find_slot ks v) /\ (i <= length ks)%nat /\
    cs !! i = Some c /\
    Py.get (sid <$> cs)
      match find_slot ks v with Above j => Z.of_nat j | _ => -1 end
      = Some (sid c) /\
    Forall (fun k => k < v) (ileft (inorder <$> take i cs) (take i ks)) /\
    Forall (fun k => v < k) (itail (drop i ks) (inorder <$> drop (S i) cs)).
Proof.
  intros Hne Hok Hs Hmiss.
  pose proof (inner_child_count _ _ _ _ Hok Hne) as Hlen.
  assert (StronglySorted Z.lt ks) as Hks.
  { eapply sublist_strongly_sorted; [|exact Hs]. apply keys_sublist_interleave. }
  pose proof (find_slot_sorted ks v Hks) as Hfs.
  set (i := slot_pos ks (find_slot ks v)).
  assert (i <= length ks)%nat as Hi.
  { subst i. destruct (find_slot ks v); simpl; try lia.
    exfalso. eapply Hmiss. reflexivity. }
  destruct (lookup_lt_is_Some_2 cs i) as [c Hc]; [lia|].
  exists i, c. split; [reflexivity|]. split; [exact Hi|]. split; [exact Hc|].
  assert (Forall (fun k => k < v) (take i ks) /\
          Forall (fun k => v < k) (drop i ks)) as [Hl Hr].
  { subst i. destruct (find_slot ks v); simpl.
    - exfalso. eapply Hmiss. reflexivity.
    - tauto.
    - rewrite firstn_all, drop_all. split; [exact Hfs|constructor]. }
  rewrite (inorder_child _ _ _ _ _ Hc Hi) in Hs.
  apply StronglySorted_app in Hs as (_ & Hsl & Hs).
  apply StronglySorted_app in Hs as (_ & _ & Hsr).
  split; [|split].
  - destruct (find_slot ks v) eqn:E.
    + exfalso. eapply Hmiss. reflexivity.
    + apply py_get_nat. rewrite list_lookup_fmap. simpl in i. subst i.
      rewrite Hc. reflexivity.
    + apply py_get_last_lookup. rewrite length_fmap, list_lookup_fmap.
      simpl in i. subst i. replace (length cs - 1)%nat with (length ks) by lia.
      rewrite Hc. reflexivity.
  - apply ileft_below; [|exact Hsl|exact Hl].
    rewrite length_fmap, !length_take. lia.
  - apply itail_above; [|exact Hsr|exact Hr].
    rewrite length_fmap, !length_drop. lia.
Qed.

Lemma truthy_fmap {A B} (f : A -> B) (l : list A) :
  l <> [] -> truthy (f <$> l) = true.
Proof. destruct l; [contradiction|reflexivity]. Qed.

Lemma lift_some {A} e (x : A) : lift e (Some x) = ret x.
Proof. reflexivity. Qed.

Lemma child_subtrees_ok (P : shape -> Prop) id ks cs i c :
  cs !! i = Some c -> Forall P (subtrees (Sh id ks cs)) ->
  Forall P (subtrees c).
Proof.
  intros Hc H. apply Forall_subtrees in H as [_ H].
  exact (Forall_lookup_1 _ _ _ _ H Hc).
Qed.

Lemma height_lookup id ks cs i c :
  cs !! i = Some c -> (height c < height (Sh id ks cs))%nat.
Proof. intros Hc. eapply height_child, list_elem_of_lookup_2, Hc. Qed.

(** In a sorted inner node a value that is stored but is not one of the
    node's keys is stored under the child the scan selects. *)
Lemma stored_below id ks cs i c v :
  cs !! i = Some c -> (i <= length ks)%nat ->
  Forall (fun k => k < v) (ileft (inorder <$> take i cs) (take i ks)) ->
  Forall (fun k => v < k) (itail (drop i ks) (inorder <$> drop (S i) cs)) ->
  v ∈ inorder (Sh id ks cs) -> v ∈ inorder c.
Proof.
  intros Hc Hi Hl Hr Hin. rewrite (inorder_child _ _ _ _ _ Hc Hi) in Hin.
  rewrite Forall_forall in Hl. rewrite Forall_forall in Hr.
  apply elem_of_app in Hin as [Hin|Hin]; [specialize (Hl _ Hin); lia|].
  apply elem_of_app in Hin as [Hin|Hin]; [exact Hin|].
  specialize (Hr _ Hin). lia.
Qed.

Lemma sorted_child id ks cs i c :
  cs !! i = Some c -> (i <= length ks)%nat ->
  StronglySorted Z.lt (inorder (Sh id ks cs)) ->
  StronglySorted Z.lt (inorder c).
Proof.
  intros Hc Hi Hs. rewrite (inorder_child _ _ _ _ _ Hc Hi) in Hs.
  apply StronglySorted_app in Hs as (_ & _ & Hs).
  apply StronglySorted_app in Hs as (_ & Hs & _). exact Hs.
Qed.

Lemma insert_present_shape o h v t :
  forall p, repr o h p t ->
  Forall (node_ok o) (subtrees t) ->
  StronglySorted Z.lt (inorder t) ->
  v ∈ inorder t ->
  forall fuel, (height t <= fuel)%nat -> insert fuel (sid t) v h = Ok false h.
Proof.
  induction t as [id ks cs IH] using shape_ind'.
  intros p Hr Hok Hs Hin fuel Hfuel.
  apply repr_inv in Hr as [Hid Hcs].
  destruct fuel as [|fuel]; [simpl in Hfuel; lia|].
  simpl insert. rewrite (bind_ok _ _ _ _ _ (load_ok _ _ _ Hid)).
  cbn [keys children].
  destruct (hit_or_miss ks v) as [[j E]|Hmiss].
  { rewrite E. destruct (truthy _); reflexivity. }
  destruct (decide (cs = [])) as [->|Hne].
  { exfalso. simpl in Hin, Hs.
    destruct (find_slot_hit ks v Hs Hin) as [i E]. eapply Hmiss, E. }
  rewrite truthy_fmap by exact Hne.
  pose proof Hok as Hn. apply Forall_subtrees in Hn as [Hn _].
  destruct (descend o id ks cs v Hne Hn Hs Hmiss)
    as (i & c & _ & Hi & Hc & Hg & Hl & Hr).
  assert (insert fuel (sid c) v h = Ok false h) as Hrec.
  { pose proof (height_lookup id ks cs i c Hc) as Hh.
    apply (Forall_lookup_1 _ _ _ _ IH Hc (Some id)).
    - exact (Forall_lookup_1 _ _ _ _ Hcs Hc).
    - eapply child_subtrees_ok; eassumption.
    - eapply sorted_child; eassumption.
    - eapply stored_below; eassumption.
    - lia. }
  destruct (find_slot ks v) as [j|j|];
    [exfalso; eapply Hmiss; reflexivity|..].
  all: rewrite Hg, lift_some; exact Hrec.
Qed.

(** ** Shapes and reachability *)

Lemma subtrees_trans t s u :
  s ∈ subtrees t -> u ∈ subtrees s -> u ∈ subtrees t.
Proof.
  induction t as [id ks cs IH] using shape_ind'. simpl.
  intros Hs Hu. apply elem_of_cons in Hs as [->|Hs]; [exact Hu|].
  right. apply list_elem_of_bind in Hs as (c & Hs & Hc).
  apply list_elem_of_bind. exists c. split; [|exact Hc].
  rewrite Forall_forall in IH. eapply IH; eassumption.
Qed.

Lemma subtrees_child t c : c ∈ skids t -> c ∈ subtrees t.
Proof.
  destruct t as [id ks cs]. simpl. intros Hc. right.
  apply list_elem_of_bind. exists c. split; [apply subtrees_self|exact Hc].
Qed.

Lemma subtree_repr o h t :
  forall p s, repr o h p t -> s ∈ subtrees t -> exists p', repr o h p' s.
Proof.
  induction t as [id ks cs IH] using shape_ind'. intros p s Hr Hs.
  simpl in Hs. apply elem_of_cons in Hs as [->|Hs]; [eauto|].
  apply list_elem_of_bind in Hs as (c & Hs & Hc).
  apply repr_inv in Hr as [_ Hcs]. rewrite Forall_forall in IH, Hcs.
  eapply IH; eauto.
Qed.

Lemma subtree_lookup o h p t s :
  repr o h p t -> s ∈ subtrees t ->
  exists p', h !! sid s = Some (Node o (skeys s) (sid <$> skids s) p').
Proof.
  intros Hr Hs. destruct (subtree_repr _ _ _ _ _ Hr Hs) as [p' Hr'].
  destruct s as [id ks cs]. apply repr_inv in Hr' as [H _]. eauto.
Qed.

Lemma reach_trans h a b c : reach h a b -> reach h b c -> reach h a c.
Proof.
  intros Hab Hbc. induction Hbc as [|q n c Hq IH Hn Hc]; [exact Hab|].
  eapply reach_child; eassumption.
Qed.

Lemma subtree_reach o h t :
  forall p s, repr o h p t -> s ∈ subtrees t -> reach h (sid t) (sid s).
Proof.
  induction t as [id ks cs IH] using shape_ind'. intros p s Hr Hs.
  simpl in Hs. apply elem_of_cons in Hs as [->|Hs]; [constructor|].
  apply list_elem_of_bind in Hs as (c & Hs & Hc).
  apply repr_inv in Hr as [Hid Hcs]. rewrite Forall_forall in IH, Hcs.
  eapply reach_trans; [|eapply IH; eauto].
  eapply reach_child; [constructor|exact Hid|]. simpl.
  apply list_elem_of_fmap. eauto.
Qed.

Lemma reach_subtree o h p t r :
  repr o h p t -> reach h (sid t) r -> exists s, s ∈ subtrees t /\ sid s = r.
Proof.
  intros Hr. induction 1 as [|q n c Hq IH Hn Hc].
  - exists t. split; [apply subtrees_self|reflexivity].
  - destruct IH as (s & Hs & <-).
    destruct (subtree_lookup _ _ _ _ _ Hr Hs) as [p' Hl].
    rewrite Hl in Hn. injection Hn as <-. simpl in Hc.
    apply list_elem_of_fmap in Hc as (sc & -> & Hsc).
    exists sc. split; [|reflexivity].
    eapply subtrees_trans; [exact Hs|]. apply subtrees_child, Hsc.
Qed.

Lemma inorder_elem k t :
  k ∈ inorder t <-> exists s, s ∈ subtrees t /\ k ∈ skeys s.
Proof.
  induction t as [id ks cs IH] using shape_ind'. simpl.
  rewrite elem_of_interleave. rewrite Forall_forall in IH. split.
  - intros [Hk|(l & Hl & Hk)].
    + exists (Sh id ks cs). split; [left|exact Hk].
    + apply list_elem_of_fmap in Hl as (c & -> & Hc).
      apply (IH _ Hc) in Hk as (s & Hs & Hk). exists s. split; [|exact Hk].
      right. apply list_elem_of_bind. eauto.
  - intros (s & Hs & Hk). apply elem_of_cons in Hs as [->|Hs]; [left; exact Hk|].
    right. apply list_elem_of_bind in Hs as (c & Hs & Hc).
    exists (inorder c). split; [apply list_elem_of_fmap; eauto|].
    apply (IH _ Hc). eauto.
Qed.

Lemma stored_inorder o h p t k :
  repr o h p t -> stored h (sid t) k <-> k ∈ inorder t.
Proof.
  intros Hr. rewrite inorder_elem. split.
  - intros (r & n & Hreach & Hn & Hk).
    destruct (reach_subtree _ _ _ _ _ Hr Hreach) as (s & Hs & <-).
    destruct (subtree_lookup _ _ _ _ _ Hr Hs) as [p' Hl].
    rewrite Hl in Hn. injection Hn as <-. eauto.
  - intros (s & Hs & Hk).
    destruct (subtree_lookup _ _ _ _ _ Hr Hs) as [p' Hl].
    exists (sid s), (Node o (skeys s) (sid <$> skids s) p').
    split; [eapply subtree_reach; eassumption|]. split; [exact Hl|exact Hk].
Qed.

(** ** Searching *)

Lemma contains_shape o h v t :
  forall p, repr o h p t ->
  Forall (node_ok o) (subtrees t) ->
  StronglySorted Z.lt (inorder t) ->
  forall fuel, (height t <= fuel)%nat ->
    (v ∈ inorder t -> contains fuel (sid t) v h = Ok true h) /\
    (v ∉ inorder t -> contains fuel (sid t) v h = Ok false h).
Proof.
  induction t as [id ks cs IH] using shape_ind'.
  intros p Hr Hok Hs fuel Hfuel.
  apply repr_inv in Hr as [Hid Hcs].
  destruct fuel as [|fuel]; [simpl in Hfuel; lia|].
  simpl contains. rewrite (bind_ok _ _ _ _ _ (load_ok _ _ _ Hid)).
  cbn [keys children].
  assert (StronglySorted Z.lt ks) as Hks.
  { eapply sublist_strongly_sorted; [|exact Hs]. apply keys_sublist_interleave. }
  destruct (hit_or_miss ks v) as [[j E]|Hmiss].
  { pose proof (find_slot_sorted ks v Hks) as Hj. rewrite E in *.
    split; [reflexivity|]. intros Hn. exfalso. apply Hn. simpl.
    apply elem_of_interleave. left. eapply list_elem_of_lookup_2, Hj. }
  destruct (decide (cs = [])) as [->|Hne].
  { simpl in Hs |- *. split.
    - intros Hin. destruct (find_slot_hit ks v Hs Hin) as [i E].
      exfalso. eapply Hmiss, E.
    - intros _. destruct (find_slot ks v) as [j|j|]; try reflexivity.
      exfalso. eapply Hmiss. reflexivity. }
  pose proof Hok as Hn. apply Forall_subtrees in Hn as [Hn _].
  destruct (descend o id ks cs v Hne Hn Hs Hmiss)
    as (i & c & _ & Hi & Hc & Hg & Hl & Hr).
  pose proof (height_lookup id ks cs i c Hc) as Hh.
  destruct (Forall_lookup_1 _ _ _ _ IH Hc (Some id)
              (Forall_lookup_1 _ _ _ _ Hcs Hc)
              (child_subtrees_ok _ _ _ _ _ _ Hc Hok)
              (sorted_child _ _ _ _ _ Hc Hi Hs) fuel ltac:(lia))
    as [Hyes Hno].
  assert (v ∈ inorder (Sh id ks cs) <-> v ∈ inorder c) as Hiff.
  { split; [eapply stored_below; eassumption|].
    intros Hin. rewrite (inorder_child _ _ _ _ _ Hc Hi).
    rewrite !elem_of_app. auto. }
  rewrite Hiff.
  destruct (find_slot ks v) as [j|j|];
    [exfalso; eapply Hmiss; reflexivity|..].
  all: rewrite (truthy_fmap _ _ Hne), Hg, lift_some; split; assumption.
Qed.

(** X1.  On a well-formed tree [value in tree] is [True] when the value is
    stored in some node under the root and [False] when it is not; in both
    cases the call returns without raising and leaves the store as it
    was. *)
Theorem contains_stored o h root v :
  well_formed o h root ->
  exists N, forall fuel, (N <= fuel)%nat ->
    (stored h root v -> contains fuel root v h = Ok true h) /\
    (~ stored h root v -> contains fuel root v h = Ok false h).
Proof.
  intros [t [Ho <- Hr Hnd Hs Hok]].
  exists (height t). intros fuel Hfuel.
  destruct (contains_shape o h v t None Hr Hok Hs fuel Hfuel) as [Hyes Hno].
  split; intros Hv.
  - apply Hyes. eapply stored_inorder; eassumption.
  - apply Hno. intros Hin. apply Hv. eapply stored_inorder; eassumption.
Qed.

(** ** Inserting a value that is already stored *)

(** C6, on well-formed trees.  If the value is stored anywhere in a
    well-formed tree, [insert] returns [False] and leaves the store, and so
    the key set, as it was. *)
Theorem insert_present o h root v :
  well_formed o h root -> stored h root v ->
  exists N, forall fuel, (N <= fuel)%nat ->
    insert fuel root v h = Ok false h.
Proof.
  intros [t [Ho <- Hr Hnd Hs Hok]] Hv.
  exists (height t). intros fuel Hfuel.
  eapply insert_present_shape; try eassumption.
  eapply stored_inorder; eassumption.
Qed.

(** ** Largest and smallest key *)

Lemma maximum_shape o h t :
  forall p, repr o h p t ->
  Forall (node_ok o) (subtrees t) ->
  Forall leaf_nonempty (subtrees t) ->
  exists m, last (inorder t) = Some m /\
    forall fuel, (height t <= fuel)%nat -> maximum fuel (sid t) h = Ok m h.
Proof.
  induction t as [id ks cs IH] using shape_ind'.
  intros p Hr Hok Hne. apply repr_inv in Hr as [Hid Hcs].
  destruct (decide (cs = [])) as [->|Hcne].
  - apply Forall_subtrees in Hne as [Hk _]. specialize (Hk eq_refl).
    simpl in Hk. destruct (exists_last Hk) as (ks' & m & ->).
    exists m. split; [simpl; apply last_snoc|].
    intros [|fuel] Hfuel; [simpl in Hfuel; lia|].
    simpl maximum. rewrite (bind_ok _ _ _ _ _ (load_ok _ _ _ Hid)).
    cbn [keys children truthy fmap list_fmap].
    rewrite py_get_last. reflexivity.
  - pose proof Hok as Hok'. apply Forall_subtrees in Hok' as [Hn _].
    pose proof (inner_child_count _ _ _ _ Hn Hcne) as Hlen.
    destruct (lookup_lt_is_Some_2 cs (length ks)) as [c Hc]; [lia|].
    destruct (Forall_lookup_1 _ _ _ _ IH Hc (Some id)) as (m & Hm & Hrun).
    { exact (Forall_lookup_1 _ _ _ _ Hcs Hc). }
    { eapply child_subtrees_ok; eassumption. }
    { eapply child_subtrees_ok; eassumption. }
    exists m. split.
    + rewrite (inorder_child _ _ _ _ _ Hc) by lia.
      rewrite !last_app. rewrite drop_all, (drop_ge cs) by lia. simpl.
      rewrite Hm. reflexivity.
    + intros [|fuel] Hfuel; [simpl in Hfuel; lia|].
      simpl maximum. rewrite (bind_ok _ _ _ _ _ (load_ok _ _ _ Hid)).
      cbn [keys children]. rewrite truthy_fmap by exact Hcne.
      rewrite (py_get_last_lookup (sid <$> cs) (sid c)), lift_some.
      * unfold bind, ret. apply Hrun.
        pose proof (height_lookup id ks cs _ c Hc). lia.
      * rewrite length_fmap, list_lookup_fmap.
        replace (length cs - 1)%nat with (length ks) by lia.
        rewrite Hc. reflexivity.
Qed.

Lemma minimum_shape o h t :
  forall p, repr o h p t ->
  Forall (node_ok o) (subtrees t) ->
  Forall leaf_nonempty (subtrees t) ->
  exists m, head (inorder t) = Some m /\
    forall fuel, (height t <= fuel)%nat -> minimum fuel (sid t) h = Ok m h.
Proof.
  induction t as [id ks cs IH] using shape_ind'.
  intros p Hr Hok Hne. apply repr_inv in Hr as [Hid Hcs].
  destruct (decide (cs = [])) as [->|Hcne].
  - apply Forall_subtrees in Hne as [Hk _]. specialize (Hk eq_refl).
    simpl in Hk. destruct ks as [|m ks]; [contradiction|].
    exists m. split; [reflexivity|].
    intros [|fuel] Hfuel; [simpl in Hfuel; lia|].
    simpl minimum. rewrite (bind_ok _ _ _ _ _ (load_ok _ _ _ Hid)).
    reflexivity.
  - pose proof Hok as Hok'. apply Forall_subtrees in Hok' as [Hn _].
    pose proof (inner_child_count _ _ _ _ Hn Hcne) as Hlen.
    destruct (lookup_lt_is_Some_2 cs 0) as [c Hc]; [lia|].
    destruct (Forall_lookup_1 _ _ _ _ IH Hc (Some id)) as (m & Hm & Hrun).
    { exact (Forall_lookup_1 _ _ _ _ Hcs Hc). }
    { eapply child_subtrees_ok; eassumption. }
    { eapply child_subtrees_ok; eassumption. }
    exists m. split.
    + rewrite (inorder_child _ _ _ _ _ Hc) by lia.
      rewrite take_0. simpl. rewrite head_app, Hm. reflexivity.
    + intros [|fuel] Hfuel; [simpl in Hfuel; lia|].
      simpl minimum. rewrite (bind_ok _ _ _ _ _ (load_ok _ _ _ Hid)).
      cbn [keys children]. rewrite truthy_fmap by exact Hcne.
      rewrite (py_get_nat (sid <$> cs) 0 (sid c)), lift_some.
      * unfold bind, ret. apply Hrun.
        pose proof (height_lookup id ks cs _ c Hc). lia.
      * rewrite list_lookup_fmap, Hc. reflexivity.
Qed.

Lemma sorted_last_max (l : list Z) m k :
  StronglySorted Z.lt l -> last l = Some m -> k ∈ l -> k <= m.
Proof.
  intros Hs Hm Hk. apply last_Some in Hm as [l' ->].
  apply elem_of_app in Hk as [Hk|Hk].
  - apply StronglySorted_app in Hs as (H & _ & _).
    assert (k < m) by (apply H; [exact Hk|left]). lia.
  - apply list_elem_of_singleton in Hk as ->. lia.
Qed.

Lemma sorted_head_min (l : list Z) m k :
  StronglySorted Z.lt l -> head l = Some m -> k ∈ l -> m <= k.
Proof.
  intros Hs Hm Hk. apply head_Some in Hm as [l' ->].
  apply StronglySorted_cons in Hs as [Hall _].
  apply elem_of_cons in Hk as [->|Hk]; [lia|].
  rewrite Forall_forall in Hall. specialize (Hall _ Hk). lia.
Qed.

Lemma ids_subtrees t : ids t = sid <$> subtrees t.
Proof.
  induction t as [id ks cs IH] using shape_ind'. simpl. f_equal.
  induction IH as [|c cs Hc _ IHcs]; [reflexivity|].
  rewrite !bind_cons, fmap_app, Hc, IHcs. reflexivity.
Qed.

Lemma proper_subtree_id id ks cs s :
  NoDup (ids (Sh id ks cs)) -> s ∈ cs ≫= subtrees -> sid s <> id.
Proof.
  intros Hnd Hs Heq. simpl in Hnd. apply NoDup_cons in Hnd as [Hn _].
  apply Hn. apply list_elem_of_bind in Hs as (c & Hs & Hc).
  apply list_elem_of_bind. exists c. split; [|exact Hc].
  rewrite ids_subtrees, <- Heq. apply list_elem_of_fmap. eauto.
Qed.

(** C9, with the leaves required to be non-empty.  On a well-formed tree
    that stores at least one key and in which every leaf other than the
    root holds a key, [maximum] returns the largest stored key, [minimum]
    the smallest, and both leave the store as it was. *)
Theorem maximum_minimum o h root :
  well_formed o h root ->
  (forall r n, reach h root r -> r <> root -> h !! r = Some n ->
     children n = [] -> keys n <> []) ->
  (exists k, stored h root k) ->
  exists lo hi N,
    (forall fuel, (N <= fuel)%nat ->
       maximum fuel root h = Ok hi h /\ minimum fuel root h = Ok lo h) /\
    stored h root lo /\ stored h root hi /\
    forall k, stored h root k -> lo <= k <= hi.
Proof.
  intros [t [Ho <- Hr Hnd Hs Hok]] Hleaf [k0 Hk0].
  assert (Forall leaf_nonempty (subtrees t)) as Hne.
  { apply Forall_forall. intros s Hin Hkids.
    destruct t as [id ks cs]. simpl in Hin.
    apply elem_of_cons in Hin as [->|Hin].
    - simpl in Hkids |- *. subst cs.
      apply (stored_inorder _ _ _ _ _ Hr) in Hk0. simpl in Hk0.
      intros ->. inversion Hk0.
    - destruct (subtree_lookup o h None (Sh id ks cs) s Hr) as [p' Hl].
      { right. exact Hin. }
      change (keys (Node o (skeys s) (sid <$> skids s) p') <> []).
      eapply (Hleaf (sid s)); [| |exact Hl|simpl; rewrite Hkids; reflexivity].
      + eapply (subtree_reach o h (Sh id ks cs)); [exact Hr|right; exact Hin].
      + eapply proper_subtree_id; eassumption. }
  destruct (maximum_shape o h t None Hr Hok Hne) as (hi & Hhi & Hmax).
  destruct (minimum_shape o h t None Hr Hok Hne) as (lo & Hlo & Hmin).
  exists lo, hi, (height t). split; [|split; [|split]].
  - intros fuel Hfuel. split; [apply Hmax|apply Hmin]; exact Hfuel.
  - apply (stored_inorder _ _ _ _ _ Hr). eapply head_Some_elem_of, Hlo.
  - apply (stored_inorder _ _ _ _ _ Hr). eapply last_Some_elem_of, Hhi.
  - intros k Hk. apply (stored_inorder _ _ _ _ _ Hr) in Hk. split.
    + eapply sorted_head_min; eassumption.
    + eapply sorted_last_max; eassumption.
Qed.

(** ** Rebalancing a leaf among leaves *)

Lemma index_from_elem {A} `{EqDecision A} (l : list A) (x : A) j :
  x ∈ l -> exists i, Py.index_from j l x = Some (j + i)%nat /\ l !! i = Some x.
Proof.
  revert j. induction l as [|y l IH]; intros j Hx; [inversion Hx|].
  simpl. destruct (decide (y = x)) as [->|Hne].
  - exists 0%nat. split; [f_equal; lia|reflexivity].
  - apply elem_of_cons in Hx as [->|Hx]; [contradiction|].
    destruct (IH (S j) Hx) as (i & Hi & Hl). exists (S i).
    split; [rewrite Hi; f_equal; lia|exact Hl].
Qed.

Lemma index_elem {A} `{EqDecision A} (l : list A) (x : A) :
  x ∈ l -> exists i, Py.index l x = Some i /\ l !! i = Some x.
Proof. intros Hx. apply (index_from_elem l x 0 Hx). Qed.

Lemma num_children_ok h r n :
  h !! r = Some n -> num_children r h = Ok (len (children n)) h.
Proof.
  intros H. unfold num_children.
  rewrite (bind_ok _ _ _ _ _ (load_ok _ _ _ H)). reflexivity.
Qed.





(** ** Removing a value that is not stored *)

Lemma not_stored_child id ks cs c v :
  c ∈ cs -> v ∉ inorder (Sh id ks cs) -> v ∉ inorder c.
Proof.
  intros Hc Hn Hv. apply Hn. simpl. apply elem_of_interleave. right.
  exists (inorder c). split; [apply list_elem_of_fmap; eauto|exact Hv].
Qed.

Lemma remove_absent_shape o h v t :
  forall p, repr o h p t ->
  Forall (node_ok o) (subtrees t) ->
  StronglySorted Z.lt (inorder t) ->
  v ∉ inorder t ->
  forall fuel, (height t <= fuel)%nat ->
    remove fuel (sid t) v h = Ok PyFalse h \/
    remove fuel (sid t) v h = Ok PyNone h.
Proof.
  induction t as [id ks cs IH] using shape_ind'.
  intros p Hr Hok Hs Hin fuel Hfuel.
  apply repr_inv in Hr as [Hid Hcs].
  destruct fuel as [|fuel]; [simpl in Hfuel; lia|].
  simpl remove. rewrite (bind_ok _ _ _ _ _ (load_ok _ _ _ Hid)).
  cbn [keys children].
  assert (forall j, find_slot ks v <> Hit j) as Hmiss.
  { apply find_slot_miss. intros Hk. apply Hin. simpl.
    apply elem_of_interleave. left. exact Hk. }
  destruct (decide (cs = [])) as [->|Hne].
  { simpl. destruct (find_slot ks v) as [j|j|]; [|left|right];
      try reflexivity.
    exfalso. eapply Hmiss. reflexivity. }
  rewrite truthy_fmap by exact Hne.
  pose proof Hok as Hn. apply Forall_subtrees in Hn as [Hn _].
  destruct (descend o id ks cs v Hne Hn Hs Hmiss)
    as (i & c & _ & Hi & Hc & Hg & Hl & Hr).
  assert (remove fuel (sid c) v h = Ok PyFalse h \/
          remove fuel (sid c) v h = Ok PyNone h) as Hrec.
  { pose proof (height_lookup id ks cs i c Hc) as Hh.
    apply (Forall_lookup_1 _ _ _ _ IH Hc (Some id)).
    - exact (Forall_lookup_1 _ _ _ _ Hcs Hc).
    - eapply child_subtrees_ok; eassumption.
    - eapply sorted_child; eassumption.
    - eapply not_stored_child; [eapply list_elem_of_lookup_2|]; eassumption.
    - lia. }
  destruct (find_slot ks v) as [j|j|];
    [exfalso; eapply Hmiss; reflexivity|..].
  all: rewrite Hg, lift_some; exact Hrec.
Qed.

(** X16.  Removing a value that is not stored in a well-formed tree
    leaves the store as it was, and the result is [False] or [None], never
    [True]; the call does not raise. *)
Theorem remove_absent_unchanged o h root v :
  well_formed o h root -> ~ stored h root v ->
  exists N, forall fuel, (N <= fuel)%nat ->
    remove fuel root v h = Ok PyFalse h \/ remove fuel root v h = Ok PyNone h.
Proof.
  intros [t [Ho <- Hr Hnd Hs Hok]] Hv.
  exists (height t). intros fuel Hfuel.
  eapply remove_absent_shape; try eassumption.
  intros Hin. apply Hv. eapply stored_inorder; eassumption.
Qed.

(** ** Plugging a subtree into its frames *)

Lemma sid_plug ctx t : sid (plug ctx t) = ctx_root ctx (sid t).
Proof. revert t. induction ctx as [|f ctx IH]; intros t; [reflexivity|]. apply IH. Qed.

Lemma repr_plug o h ctx t :
  repr_ctx o h ctx (sid t) -> repr o h (ctx_parent ctx) t ->
  repr o h None (plug ctx t).
Proof.
  revert t. induction ctx as [|f ctx IH]; intros t Hc Hr; [exact Hr|].
  destruct Hc as (Hf & Hsib & Hc). simpl. apply IH; [exact Hc|].
  constructor.
  - rewrite fmap_app, fmap_cons. exact Hf.
  - apply Forall_app in Hsib as [Hl Hr']. apply Forall_app. split; [exact Hl|].
    constructor; [exact Hr|exact Hr'].
Qed.

Lemma ids_plug1 f t :
  ids (plug1 f t) = f_id f :: (f_cl f ≫= ids) ++ ids t ++ (f_cr f ≫= ids).
Proof. simpl. rewrite bind_app, bind_cons. reflexivity. Qed.

Lemma ids_plug ctx t : ids (plug ctx t) ≡ₚ ids t ++ ctx_ids ctx.
Proof.
  revert t. induction ctx as [|f ctx IH]; intros t; simpl.
  - rewrite app_nil_r. reflexivity.
  - rewrite IH, ids_plug1. simpl.
    rewrite <- Permutation_middle. apply Permutation_skip.
    rewrite <- !app_assoc.
    rewrite (app_assoc (f_cl f ≫= ids) (ids t)).
    rewrite (Permutation_app_comm (f_cl f ≫= ids) (ids t)).
    rewrite <- !app_assoc. reflexivity.
Qed.

Lemma inorder_plug1 f t :
  length (f_cl f) = length (f_kl f) ->
  inorder (plug1 f t) =
    ileft (inorder <$> f_cl f) (f_kl f) ++ inorder t ++
    itail (f_kr f) (inorder <$> f_cr f).
Proof.
  intros Hlen. simpl. rewrite fmap_app, fmap_cons.
  apply interleave_middle. rewrite length_fmap. exact Hlen.
Qed.

Lemma inorder_plug o ctx t :
  Forall (frame_ok o) ctx ->
  inorder (plug ctx t) = ctx_left ctx ++ inorder t ++ ctx_right ctx.
Proof.
  revert t. induction ctx as [|f ctx IH]; intros t Hok; simpl.
  - rewrite app_nil_r. reflexivity.
  - apply Forall_cons in Hok as [(Hl & _) Hok].
    rewrite IH by exact Hok. rewrite inorder_plug1 by exact Hl.
    rewrite <- !app_assoc. reflexivity.
Qed.

Lemma subtrees_plug o ctx t :
  Forall (frame_ok o) ctx ->
  Forall (node_ok o) (subtrees t) ->
  Forall (node_ok o) (subtrees (plug ctx t)).
Proof.
  revert t. induction ctx as [|f ctx IH]; intros t Hok Ht; [exact Ht|].
  apply Forall_cons in Hok as [(Hl & Hr & Hcap & Hsib) Hok].
  simpl. apply IH; [exact Hok|]. apply Forall_subtrees. split.
  - split; [exact Hcap|]. right. simpl.
    rewrite !length_app. simpl. lia.
  - apply Forall_app in Hsib as [Hsl Hsr]. apply Forall_app.
    split; [exact Hsl|]. constructor; [exact Ht|exact Hsr].
Qed.

Lemma zipper_wf o h root ctx t :
  zipper o h root ctx t -> len (skeys t) <= o -> wf o h root (plug ctx t).
Proof.
  intros [Ho Hroot Hc Hr Hnd Hs Hf Hk Hcnt] Hcap. constructor.
  - exact Ho.
  - rewrite sid_plug. exact Hroot.
  - apply repr_plug; assumption.
  - rewrite ids_plug. exact Hnd.
  - rewrite (inorder_plug o) by exact Hf. exact Hs.
  - apply subtrees_plug; [exact Hf|]. destruct t as [id ks cs].
    apply Forall_subtrees. split; [split; [exact Hcap|exact Hcnt]|exact Hk].
Qed.

Lemma wf_zipper o h root t :
  wf o h root t -> zipper o h root [] t /\ len (skeys t) <= o.
Proof.
  intros [Ho Hroot Hr Hnd Hs Hok]. destruct t as [id ks cs].
  apply Forall_subtrees in Hok as [[Hcap Hcnt] Hk].
  split; [|exact Hcap]. constructor; simpl; try assumption.
  - exact I.
  - rewrite app_nil_r. exact Hnd.
  - rewrite app_nil_r. exact Hs.
  - constructor.
Qed.

(** ** Stores that agree on a tree

    A method call touches few nodes; whatever the store represented away
    from them, it still represents afterwards. *)

Section Agree.
Variables (o : Z) (h h' : heap).

Lemma repr_agree t :
  forall p, repr o h p t ->
  (forall r, r ∈ ids t -> h' !! r = h !! r) -> repr o h' p t.
Proof.
  induction t as [id ks cs IH] using shape_ind'. intros p Hr Hag.
  apply repr_inv in Hr as [Hid Hcs]. constructor.
  - rewrite Hag; [exact Hid|left].
  - rewrite Forall_forall in IH, Hcs. apply Forall_forall. intros c Hc.
    apply IH; [exact Hc|apply Hcs, Hc|].
    intros r Hr. apply Hag. simpl. right.
    apply list_elem_of_bind. eauto.
Qed.

Lemma Forall_repr_agree p cs :
  Forall (repr o h p) cs ->
  (forall r, r ∈ cs ≫= ids -> h' !! r = h !! r) ->
  Forall (repr o h' p) cs.
Proof.
  intros Hcs Hag. rewrite Forall_forall in Hcs. apply Forall_forall.
  intros c Hc. eapply repr_agree; [apply Hcs, Hc|].
  intros r Hr. apply Hag, list_elem_of_bind. eauto.
Qed.

Lemma repr_reparent p p' id ks cs :
  repr o h p (Sh id ks cs) ->
  h' !! id = Some (Node o ks (sid <$> cs) p') ->
  (forall r, r ∈ cs ≫= ids -> h' !! r = h !! r) ->
  repr o h' p' (Sh id ks cs).
Proof.
  intros Hr Hid Hag. apply repr_inv in Hr as [_ Hcs].
  constructor; [exact Hid|]. eapply Forall_repr_agree; eassumption.
Qed.

Lemma repr_ctx_agree ctx x :
  repr_ctx o h ctx x ->
  (forall r, r ∈ ctx_ids ctx -> h' !! r = h !! r) ->
  repr_ctx o h' ctx x.
Proof.
  revert x. induction ctx as [|f ctx IH]; intros x Hc Hag; [exact I|].
  destruct Hc as (Hf & Hsib & Hc). simpl in Hag. split; [|split].
  - rewrite Hag; [exact Hf|left].
  - eapply Forall_repr_agree; [exact Hsib|]. intros r Hr. apply Hag.
    right. rewrite bind_app in Hr. rewrite app_assoc.
    apply elem_of_app. left. exact Hr.
  - apply IH; [exact Hc|]. intros r Hr. apply Hag. right.
    rewrite app_assoc. apply elem_of_app. right. exact Hr.
Qed.

End Agree.

(** Every node of a represented tree is allocated. *)
Lemma repr_lt o h t :
  forall p r, repr o h p t -> r ∈ ids t -> (r < length h)%nat.
Proof.
  induction t as [id ks cs IH] using shape_ind'. intros p r Hr Hin.
  apply repr_inv in Hr as [Hid Hcs]. simpl in Hin.
  apply elem_of_cons in Hin as [->|Hin].
  - eapply lookup_lt_Some, Hid.
  - apply list_elem_of_bind in Hin as (c & Hin & Hc).
    rewrite Forall_forall in IH, Hcs. eapply IH; eauto.
Qed.

Lemma repr_ctx_lt o h ctx x r :
  repr_ctx o h ctx x -> r ∈ ctx_ids ctx -> (r < length h)%nat.
Proof.
  revert x. induction ctx as [|f ctx IH]; intros x Hc Hin; [inversion Hin|].
  destruct Hc as (Hf & Hsib & Hc). simpl in Hin.
  apply elem_of_cons in Hin as [->|Hin]; [eapply lookup_lt_Some, Hf|].
  rewrite app_assoc, <- bind_app in Hin.
  apply elem_of_app in Hin as [Hin|Hin]; [|eapply IH; eassumption].
  apply list_elem_of_bind in Hin as (c & Hin & Hc').
  rewrite Forall_forall in Hsib. eapply repr_lt; eauto.
Qed.

(** ** The loop of [_insert_recurse] *)

Lemma first_above_from_shift i ks m :
  first_above_from i ks m = (fun j => (i + j)%nat) <$> first_above ks m.
Proof.
  unfold first_above. revert i. induction ks as [|k ks IH]; intros i; simpl.
  - reflexivity.
  - destruct (m <? k); [simpl; f_equal; lia|].
    rewrite (IH (S i)), (IH 1%nat).
    destruct (first_above_from 0 ks m); simpl; [f_equal; lia|reflexivity].
Qed.

Lemma first_above_app kl kr m :
  Forall (fun k => k < m) kl -> Forall (fun k => m < k) kr ->
  first_above (kl ++ kr) m =
    match kr with [] => None | _ => Some (length kl) end.
Proof.
  intros Hl Hr. induction Hl as [|k kl Hk Hl IH].
  - destruct Hr as [|k kr Hk _]; [reflexivity|].
    unfold first_above. simpl. destruct (Z.ltb_spec m k); [reflexivity|lia].
  - unfold first_above. simpl. destruct (Z.ltb_spec m k); [lia|].
    rewrite first_above_from_shift, IH. destruct kr; reflexivity.
Qed.

Lemma insert_at_app {A} (l1 l2 : list A) x :
  Py.insert_at (l1 ++ l2) (length l1) x = l1 ++ x :: l2.
Proof.
  unfold Py.insert_at. rewrite take_app_length, drop_app_length. reflexivity.
Qed.

Lemma splice1_app {A} (l1 l2 : list A) x r :
  Py.splice1 (l1 ++ x :: l2) (length l1) r = l1 ++ r ++ l2.
Proof.
  unfold Py.splice1. rewrite take_app_length, drop_app_ge by lia.
  replace (S (length l1) - length l1)%nat with 1%nat by lia. reflexivity.
Qed.

Lemma splice_last_app {A} (l1 : list A) x r :
  Py.splice_last (l1 ++ [x]) r = l1 ++ r.
Proof.
  unfold Py.splice_last. rewrite length_app. simpl.
  replace (length l1 + 1 - 1)%nat with (length l1) by lia.
  rewrite take_app_length. reflexivity.
Qed.

(** ** One step of [_insert_recurse] on the store *)

Lemma new_ok h o ks p cs :
  new o ks p cs h = Ok (length h) (h ++ [Node o ks (default [] cs) p]).
Proof. reflexivity. Qed.

(** The parent takes the median and, in place of one child, two new leaves
    holding the halves; [splice] is the slice assignment used. *)
Lemma grow_ok h p pn ks' (splice : list ref -> list ref -> list ref)
    left right :
  h !! p = Some pn ->
  (set_keys p ks' ;;;
   l <- new (order pn) left (Some p) None ;;
   r <- new (order pn) right (Some p) None ;;
   n1 <- load p ;;
   set_children p (splice (children n1) [l; r])) h
  = Ok tt
      (<[p := Node (order pn) ks'
                (splice (children pn) [length h; S (length h)]) (parent pn)]> h
       ++ [Node (order pn) left [] (Some p);
           Node (order pn) right [] (Some p)]).
Proof.
  intros Hp. pose proof (lookup_lt_Some _ _ _ Hp) as Hlt.
  rewrite (bind_ok _ _ _ _ _ (set_keys_ok _ _ _ ks' Hp)).
  rewrite (bind_ok _ _ _ _ _ (new_ok _ _ _ _ _)).
  rewrite (bind_ok _ _ _ _ _ (new_ok _ _ _ _ _)).
  set (n1 := Node (order pn) ks' (children pn) (parent pn)).
  assert (((<[p:=n1]> h ++ [Node (order pn) left (default [] None) (Some p)])
           ++ [Node (order pn) right (default [] None) (Some p)]) !! p
          = Some n1) as Hp1.
  { rewrite lookup_app_l by (rewrite length_app, length_insert; lia).
    rewrite lookup_app_l by (rewrite length_insert; lia).
    apply list_lookup_insert_eq. exact Hlt. }
  rewrite (bind_ok _ _ _ _ _ (load_ok _ _ _ Hp1)).
  rewrite (set_children_ok _ _ _ _ Hp1). f_equal.
  rewrite !length_app, !length_insert. simpl.
  replace (length h + 1)%nat with (S (length h)) by lia.
  rewrite <- app_assoc. simpl.
  rewrite insert_app_l by (rewrite length_insert; lia).
  rewrite list_insert_insert_eq. reflexivity.
Qed.

Lemma recurse_step h p pn m left right fuel :
  h !! p = Some pn ->
  let l := length h in
  let r := S (length h) in
  let ks' :=
    match first_above (keys pn) m with
    | Some i => Py.insert_at (keys pn) i m
    | None => keys pn ++ [m]
    end in
  let cs' :=
    match first_above (keys pn) m with
    | Some i => Py.splice1 (children pn) i [l; r]
    | None => Py.splice_last (children pn) [l; r]
    end in
  let h' :=
    <[p := Node (order pn) ks' cs' (parent pn)]> h
    ++ [Node (order pn) left [] (Some p); Node (order pn) right [] (Some p)] in
  _insert_recurse (S fuel) p m left right h =
    if order pn <? len ks' then _insert_median_split fuel p h'
    else Ok tt h'.
Proof.
  intros Hp l r ks' cs' h'. pose proof (lookup_lt_Some _ _ _ Hp) as Hlt.
  simpl _insert_recurse.
  rewrite (bind_ok _ _ _ _ _ (load_ok _ _ _ Hp)).
  assert (h' !! p = Some (Node (order pn) ks' cs' (parent pn))) as Hp'.
  { subst h'. rewrite lookup_app_l by (rewrite length_insert; lia).
    apply list_lookup_insert_eq. exact Hlt. }
  subst ks' cs'. destruct (first_above (keys pn) m) as [i|].
  - rewrite (bind_ok _ _ _ _ _
               (grow_ok h p pn _ (fun cs r => Py.splice1 cs i r) left right Hp)).
    fold l r h'. rewrite (bind_ok _ _ _ _ _ (load_ok _ _ _ Hp')).
    cbn [order keys]. destruct (_ <? _); reflexivity.
  - rewrite (bind_ok _ _ _ _ _
               (grow_ok h p pn _ (fun cs r => Py.splice_last cs r) left right Hp)).
    fold l r h'. rewrite (bind_ok _ _ _ _ _ (load_ok _ _ _ Hp')).
    cbn [order keys]. destruct (_ <? _); reflexivity.
Qed.

(** ** Splitting the root on the store *)

Lemma for_each_set_parent gs p :
  forall h, (forall g, g ∈ gs -> (g < length h)%nat) ->
  exists h',
    for_each gs (fun c => set_parent c (Some p)) h = Ok tt h' /\
    length h' = length h /\
    (forall r, r ∉ gs -> h' !! r = h !! r) /\
    (forall r n, r ∈ gs -> h !! r = Some n -> h' !! r = Some (reparent n p)).
Proof.
  induction gs as [|g gs IH]; intros h Hlt.
  - exists h. split; [reflexivity|]. split; [reflexivity|].
    split; [reflexivity|]. intros r n Hr. inversion Hr.
  - destruct (lookup_lt_is_Some_2 h g) as [n Hn]; [apply Hlt; left|].
    destruct (IH (<[g := reparent n p]> h)) as (h' & Hrun & Hlen & Hout & Hin).
    { intros g' Hg'. rewrite length_insert. apply Hlt. right. exact Hg'. }
    exists h'. split; [|split; [|split]].
    + simpl. rewrite (bind_ok _ _ _ _ _ (set_parent_ok _ _ _ _ Hn)).
      exact Hrun.
    + rewrite Hlen. apply length_insert.
    + intros r Hr. rewrite Hout by (intros ?; apply Hr; right; assumption).
      apply list_lookup_insert_ne. intros ->. apply Hr. left.
    + intros r nr Hr Hnr. destruct (decide (r ∈ gs)) as [Hgs|Hgs].
      * destruct (decide (r = g)) as [->|Hne].
        -- rewrite Hn in Hnr. injection Hnr as <-.
           rewrite (Hin g (reparent n p) Hgs); [reflexivity|].
           apply list_lookup_insert_eq. eapply lookup_lt_Some, Hn.
        -- apply Hin; [exact Hgs|].
           rewrite list_lookup_insert_ne by congruence. exact Hnr.
      * apply elem_of_cons in Hr as [->|Hr]; [|contradiction].
        rewrite Hout by exact Hgs. rewrite Hn in Hnr. injection Hnr as <-.
        apply list_lookup_insert_eq. eapply lookup_lt_Some, Hn.
Qed.

Lemma fix_parent_refs_ok h x xn :
  h !! x = Some xn ->
  (forall g, g ∈ children xn -> (g < length h)%nat) ->
  exists h',
    _insert_fix_parent_refs x h = Ok tt h' /\
    length h' = length h /\
    (forall r, r ∉ children xn -> h' !! r = h !! r) /\
    (forall r n, r ∈ children xn -> h !! r = Some n ->
       h' !! r = Some (reparent n x)).
Proof.
  intros Hx Hlt. unfold _insert_fix_parent_refs.
  rewrite (bind_ok _ _ _ _ _ (load_ok _ _ _ Hx)).
  apply for_each_set_parent, Hlt.
Qed.

Lemma default_slice {A} (l : list A) (s : list A -> list A) :
  s [] = [] -> default [] (if truthy l then Some (s l) else None) = s l.
Proof. destruct l; simpl; auto. Qed.

(** At a node with a parent the split only reads the node and calls the
    parent. *)
Lemma median_split_inner fuel x h n m p :
  h !! x = Some n ->
  keys n !! (length (keys n) / 2)%nat = Some m ->
  parent n = Some p ->
  _insert_median_split (S fuel) x h =
    _insert_recurse fuel p m
      (take (length (keys n) / 2) (keys n))
      (drop (S (length (keys n) / 2)) (keys n)) h.
Proof.
  intros Hx Hm Hp. simpl _insert_median_split.
  change (Nat.divmod (length (keys n)) 1 0 1).1
    with (length (keys n) / 2)%nat.
  rewrite (bind_ok _ _ _ _ _ (load_ok _ _ _ Hx)).
  change (Nat.divmod (length (keys n)) 1 0 1).1
    with (length (keys n) / 2)%nat.
  rewrite (py_get_nat _ _ _ Hm), lift_some. unfold bind at 1, ret at 1.
  rewrite Hp. reflexivity.
Qed.

(** At the root the node keeps the median and gets two new children, which
    take over the halves of its keys and children. *)
Lemma median_split_root x h n m :
  h !! x = Some n ->
  keys n !! (length (keys n) / 2)%nat = Some m ->
  parent n = None ->
  (forall g, g ∈ children n -> (g < length h)%nat) ->
  x ∉ children n -> NoDup (children n) ->
  let mi := (length (keys n) / 2)%nat in
  let l := length h in
  let r := S (length h) in
  exists h',
    (forall fuel, _insert_median_split (S fuel) x h = Ok tt h') /\
    h' !! x = Some (Node (order n) [m] [l; r] None) /\
    h' !! l = Some (Node (order n) (take mi (keys n))
                      (take (S mi) (children n)) (Some x)) /\
    h' !! r = Some (Node (order n) (drop (S mi) (keys n))
                      (drop (S mi) (children n)) (Some x)) /\
    (forall g gn, g ∈ take (S mi) (children n) -> h !! g = Some gn ->
       h' !! g = Some (reparent gn l)) /\
    (forall g gn, g ∈ drop (S mi) (children n) -> h !! g = Some gn ->
       h' !! g = Some (reparent gn r)) /\
    (forall q, q <> x -> q ∉ children n -> (q < length h)%nat ->
       h' !! q = h !! q).
Proof.
  intros Hx Hm Hp Hlt Hxc Hnd mi l r.
  pose proof (lookup_lt_Some _ _ _ Hx) as Hxlt.
  set (A := Node (order n) (take mi (keys n))
              (take (S mi) (children n)) (Some x)).
  set (B := Node (order n) (drop (S mi) (keys n))
              (drop (S mi) (children n)) (Some x)).
  set (X := Node (order n) [m] [l; r] None).
  set (h4 := <[x := X]> h ++ [A; B]).
  assert (h4 !! x = Some X) as H4x.
  { subst h4. rewrite lookup_app_l by (rewrite length_insert; lia).
    apply list_lookup_insert_eq. exact Hxlt. }
  assert (h4 !! l = Some A) as H4l.
  { subst h4 l. rewrite lookup_app_r by (rewrite length_insert; lia).
    rewrite length_insert, Nat.sub_diag. reflexivity. }
  assert (h4 !! r = Some B) as H4r.
  { subst h4 r. rewrite lookup_app_r by (rewrite length_insert; lia).
    rewrite length_insert.
    replace (S (length h) - length h)%nat with 1%nat by lia. reflexivity. }
  assert (forall q, q <> x -> (q < length h)%nat -> h4 !! q = h !! q) as H4o.
  { intros q Hq Hql. subst h4.
    rewrite lookup_app_l by (rewrite length_insert; lia).
    apply list_lookup_insert_ne. congruence. }
  assert (length h4 = S (S (length h))) as H4len.
  { subst h4. rewrite length_app, length_insert. simpl. lia. }
  assert (forall fuel, _insert_median_split (S fuel) x h =
          for_each [l; r] _insert_fix_parent_refs h4) as Hrun.
  { intros fuel. simpl _insert_median_split.
    change (Nat.divmod (length (keys n)) 1 0 1).1
      with (length (keys n) / 2)%nat.
    rewrite (bind_ok _ _ _ _ _ (load_ok _ _ _ Hx)).
    change (Nat.divmod (length (keys n)) 1 0 1).1
      with (length (keys n) / 2)%nat.
    rewrite (py_get_nat _ _ _ Hm), lift_some. unfold bind at 1, ret at 1.
    rewrite Hp. fold mi.
    rewrite (bind_ok _ _ _ _ _ (set_keys_ok _ _ _ [m] Hx)).
    rewrite (bind_ok _ _ _ _ _ (new_ok _ _ _ _ _)).
    rewrite (bind_ok _ _ _ _ _ (new_ok _ _ _ _ _)).
    rewrite (default_slice (children n) (take (S mi))) by reflexivity.
    rewrite (default_slice (children n) (drop (S mi))) by reflexivity.
    rewrite !length_app, !length_insert. simpl length.
    replace (length h + 1)%nat with (S (length h)) by lia.
    set (X1 := Node (order n) [m] (children n) (parent n)).
    fold A B.
    assert (((<[x:=X1]> h ++ [A]) ++ [B]) !! x = Some X1) as Hx1.
    { rewrite lookup_app_l by (rewrite length_app, length_insert; lia).
      rewrite lookup_app_l by (rewrite length_insert; lia).
      apply list_lookup_insert_eq. exact Hxlt. }
    rewrite (bind_ok _ _ _ _ _ (set_children_ok _ _ _ _ Hx1)).
    subst X1. cbn [order keys parent]. rewrite Hp.
    rewrite <- app_assoc. simpl app.
    rewrite insert_app_l by (rewrite length_insert; lia).
    rewrite list_insert_insert_eq. fold l r. fold X. fold h4.
    rewrite (bind_ok _ _ _ _ _ (load_ok _ _ _ H4x)). reflexivity. }
  assert (forall g, g ∈ take (S mi) (children n) -> g ∈ children n) as Htk
    by (intros g; apply subseteq_take).
  assert (forall g, g ∈ drop (S mi) (children n) -> g ∈ children n) as Hdr
    by (intros g; apply subseteq_drop).
  destruct (fix_parent_refs_ok h4 l A H4l) as (h5 & Hr5 & Hlen5 & Hout5 & Hin5).
  { intros g Hg. rewrite H4len. apply Htk, Hlt in Hg. lia. }
  assert (h5 !! r = Some B) as H5r.
  { rewrite Hout5; [exact H4r|]. simpl. intros Hg.
    apply Htk, Hlt in Hg. subst r. lia. }
  destruct (fix_parent_refs_ok h5 r B H5r) as (h6 & Hr6 & Hlen6 & Hout6 & Hin6).
  { intros g Hg. rewrite Hlen5, H4len. apply Hdr, Hlt in Hg. lia. }
  simpl in Hout5, Hin5, Hout6, Hin6.
  assert (forall g, g ∈ take (S mi) (children n) ->
                    g ∉ drop (S mi) (children n)) as Hdisj.
  { rewrite <- (take_drop (S mi) (children n)) in Hnd.
    apply NoDup_app in Hnd as (_ & Hnd & _). exact Hnd. }
  exists h6. split; [|split; [|split; [|split; [|split; [|split]]]]].
  - intros fuel. rewrite Hrun. simpl.
    rewrite (bind_ok _ _ _ _ _ Hr5), (bind_ok _ _ _ _ _ Hr6). reflexivity.
  - rewrite Hout6, Hout5; [exact H4x| |]; intros Hg; apply Hxc; auto.
  - rewrite Hout6, Hout5; [exact H4l| |]; intros Hg.
    + apply Htk, Hlt in Hg. subst l. lia.
    + apply Hdr, Hlt in Hg. subst l. lia.
  - rewrite Hout6; [exact H5r|]. intros Hg. apply Hdr, Hlt in Hg. subst r. lia.
  - intros g gn Hg Hgn. rewrite Hout6 by (apply Hdisj, Hg).
    apply Hin5; [exact Hg|]. rewrite H4o; [exact Hgn| |apply Hlt, Htk, Hg].
    intros ->. apply Hxc, Htk, Hg.
  - intros g gn Hg Hgn. apply Hin6; [exact Hg|].
    rewrite Hout5.
    + rewrite H4o; [exact Hgn| |apply Hlt, Hdr, Hg].
      intros ->. apply Hxc, Hdr, Hg.
    + intros Hg'. eapply Hdisj; eassumption.
  - intros q Hqx Hqc Hql. rewrite Hout6, Hout5; [apply H4o; assumption| |].
    + intros Hg. apply Hqc, Htk, Hg.
    + intros Hg. apply Hqc, Hdr, Hg.
Qed.

(** ** References of distinct subtrees *)

Lemma sid_in_ids t : sid t ∈ ids t.
Proof. destruct t. left. Qed.

Lemma ids_child c cs r : c ∈ cs -> r ∈ ids c -> r ∈ cs ≫= ids.
Proof. intros Hc Hr. apply list_elem_of_bind. eauto. Qed.

Lemma NoDup_bind_inv {A B} (f : A -> list B) (l : list A) :
  NoDup (l ≫= f) ->
  (forall a, a ∈ l -> NoDup (f a)) /\
  (forall a b x, a ∈ l -> b ∈ l -> x ∈ f a -> x ∈ f b -> a = b).
Proof.
  induction l as [|a0 l IH]; intros Hnd.
  - split; intros a; [intros Ha|intros b x Ha]; inversion Ha.
  - rewrite bind_cons in Hnd. apply NoDup_app in Hnd as (Ha0 & Hdisj & Hnd).
    destruct (IH Hnd) as [IH1 IH2]. split.
    + intros a Ha. apply elem_of_cons in Ha as [->|Ha]; auto.
    + intros a b x Ha Hb Hxa Hxb.
      apply elem_of_cons in Ha as [->|Ha]; apply elem_of_cons in Hb as [->|Hb].
      * reflexivity.
      * exfalso. eapply Hdisj; [exact Hxa|]. apply list_elem_of_bind. eauto.
      * exfalso. eapply Hdisj; [exact Hxb|]. apply list_elem_of_bind. eauto.
      * eapply IH2; eassumption.
Qed.

Lemma NoDup_sids cs : NoDup (cs ≫= ids) -> NoDup (sid <$> cs).
Proof.
  induction cs as [|c cs IH]; intros Hnd; [constructor|].
  rewrite bind_cons in Hnd. apply NoDup_app in Hnd as (_ & Hdisj & Hnd).
  rewrite fmap_cons. apply NoDup_cons. split; [|apply IH, Hnd].
  intros Hin. apply list_elem_of_fmap in Hin as (c' & Heq & Hc').
  eapply (Hdisj (sid c)); [apply sid_in_ids|].
  rewrite Heq. eapply ids_child; [exact Hc'|apply sid_in_ids].
Qed.

(** A reference strictly below one child is not the reference of any
    child. *)
Lemma below_child_not_child cs c q :
  NoDup (cs ≫= ids) -> c ∈ cs -> q ∈ skids c ≫= ids -> q ∉ sid <$> cs.
Proof.
  intros Hnd Hc Hq Hin. apply list_elem_of_fmap in Hin as (c' & -> & Hc').
  destruct (NoDup_bind_inv ids cs Hnd) as [H1 H2].
  assert (c = c') as <-.
  { eapply H2; [exact Hc|exact Hc'| |apply sid_in_ids].
    destruct c as [g gks gcs]. right. exact Hq. }
  specialize (H1 c Hc). destruct c as [g gks gcs]. simpl in *.
  apply NoDup_cons in H1 as [H1 _]. contradiction.
Qed.

Lemma interleave_split ls ks mi m :
  ls = [] \/ length ls = S (length ks) ->
  ks !! mi = Some m ->
  interleave ls ks =
    interleave (take (S mi) ls) (take mi ks) ++
    m :: interleave (drop (S mi) ls) (drop (S mi) ks).
Proof.
  intros Hshape Hm. pose proof (lookup_lt_Some _ _ _ Hm) as Hlt.
  destruct Hshape as [->|Hlen].
  - simpl. symmetry. apply take_drop_middle, Hm.
  - destruct (lookup_lt_is_Some_2 ls mi) as [l Hl]; [lia|].
    rewrite <- (take_drop_middle ls mi l Hl) at 1.
    rewrite <- (take_drop_middle ks mi m Hm) at 1.
    rewrite interleave_middle by (rewrite !length_take; lia).
    rewrite (take_S_r ls mi l Hl).
    rewrite <- (app_nil_r (take mi ks)) at 2.
    rewrite interleave_middle by (rewrite !length_take; lia).
    simpl. rewrite app_nil_r, <- app_assoc. reflexivity.
Qed.

(** The median of an over-full node. *)
Lemma median_exists o (ks : list Z) :
  1 <= o -> len ks = o + 1 ->
  exists m, ks !! (length ks / 2)%nat = Some m /\
    len (take (length ks / 2) ks) <= o /\
    len (drop (S (length ks / 2)) ks) <= o.
Proof.
  unfold len. intros Ho Hlen.
  assert (length ks / 2 < length ks)%nat as Hlt
    by (apply Nat.div_lt; lia).
  destruct (lookup_lt_is_Some_2 ks _ Hlt) as [m Hm]. exists m.
  split; [exact Hm|]. rewrite length_take, length_drop. lia.
Qed.

(** ** Splitting the root of a tree *)

Lemma inorder_two x m a b :
  inorder (Sh x [m] [a; b]) = inorder a ++ m :: inorder b.
Proof. simpl. rewrite app_nil_r. reflexivity. Qed.

Lemma half_repr o h h' x l cs part :
  Forall (repr o h (Some x)) cs -> NoDup (cs ≫= ids) ->
  (forall c, c ∈ part -> c ∈ cs) ->
  (forall g gn, g ∈ sid <$> part -> h !! g = Some gn ->
     h' !! g = Some (reparent gn l)) ->
  (forall q, q ∈ cs ≫= ids -> q ∉ sid <$> cs -> h' !! q = h !! q) ->
  Forall (repr o h' (Some l)) part.
Proof.
  intros Hcs Hnd Hsub Hre Hag. apply Forall_forall. intros c Hc.
  rewrite Forall_forall in Hcs. pose proof (Hcs c (Hsub c Hc)) as Hr.
  destruct c as [g gks gcs]. pose proof Hr as Hr'.
  apply repr_inv in Hr' as [Hg _].
  eapply repr_reparent; [exact Hr| |].
  - apply (Hre g _ (list_elem_of_fmap_2 sid _ _ Hc) Hg).
  - intros q Hq. apply Hag.
    + eapply ids_child; [apply Hsub, Hc|]. right. exact Hq.
    + eapply below_child_not_child; [exact Hnd|apply Hsub, Hc|exact Hq].
Qed.

Lemma root_split_wf o h root x ks cs :
  zipper o h root [] (Sh x ks cs) -> len ks = o + 1 ->
  exists t' h',
    wf o h' root t' /\
    inorder t' = inorder (Sh x ks cs) /\
    forall fuel, _insert_median_split (S fuel) x h = Ok tt h'.
Proof.
  intros [Ho Hroot _ Hr Hnd Hs _ Hk Hcnt] Hlen. simpl in *.
  rewrite app_nil_r in Hnd, Hs.
  destruct (median_exists o ks Ho Hlen) as (m & Hm & Hcl & Hcr).
  pose proof (fun q => repr_lt o h _ None q Hr) as Hlt.
  apply repr_inv in Hr as [Hx Hcs].
  apply NoDup_cons in Hnd as [Hxn Hnd].
  set (mi := (length ks / 2)%nat) in *.
  destruct (median_split_root x h _ m Hx Hm eq_refl)
    as (h' & Hrun & Hx' & Hl' & Hr' & Hta & Hdr & Hout).
  { simpl. intros g Hg. apply list_elem_of_fmap in Hg as (c & -> & Hc).
    apply Hlt. right. eapply ids_child; [exact Hc|apply sid_in_ids]. }
  { simpl. intros Hg. apply list_elem_of_fmap in Hg as (c & -> & Hc).
    apply Hxn. eapply ids_child; [exact Hc|apply sid_in_ids]. }
  { simpl. apply NoDup_sids, Hnd. }
  simpl in Hx', Hl', Hr', Hta, Hdr, Hout. fold mi in Hl', Hr', Hta, Hdr.
  set (l := length h) in *. set (r := S (length h)) in *.
  assert (forall q, q ∈ cs ≫= ids -> q ∉ sid <$> cs -> h' !! q = h !! q)
    as Hag.
  { intros q Hq Hqc. apply Hout; [|exact Hqc|apply Hlt; right; exact Hq].
    intros ->. contradiction. }
  assert (inorder (Sh x [m] [Sh l (take mi ks) (take (S mi) cs);
                               Sh r (drop (S mi) ks) (drop (S mi) cs)])
          = inorder (Sh x ks cs)) as Hsame.
  { rewrite inorder_two. cbn [inorder]. rewrite fmap_take, fmap_drop.
    symmetry. apply interleave_split; [|exact Hm].
    rewrite length_fmap. destruct Hcnt as [Hcnt|Hcnt]; [left|right; exact Hcnt].
    rewrite Hcnt. reflexivity. }
  exists (Sh x [m] [Sh l (take mi ks) (take (S mi) cs);
                     Sh r (drop (S mi) ks) (drop (S mi) cs)]), h'.
  split; [|split; [exact Hsame|exact Hrun]]. constructor.
  - exact Ho.
  - exact Hroot.
  - constructor; [exact Hx'|]. constructor; [|constructor; [|constructor]].
    + constructor; [rewrite fmap_take; exact Hl'|].
      eapply half_repr; try eassumption.
      * intros c. apply subseteq_take.
      * intros g gn Hg. apply Hta. rewrite <- fmap_take. exact Hg.
    + constructor; [rewrite fmap_drop; exact Hr'|].
      eapply half_repr; try eassumption.
      * intros c. apply subseteq_drop.
      * intros g gn Hg. apply Hdr. rewrite <- fmap_drop. exact Hg.
  - rewrite <- (take_drop (S mi) cs), bind_app in Hnd, Hxn.
    apply NoDup_app in Hnd as (Hnt & Hdisj & Hndr).
    assert (forall q, q ∈ take (S mi) cs ≫= ids -> (q < l)%nat) as Hlt1.
    { intros q Hq. apply Hlt. right. rewrite <- (take_drop (S mi) cs), bind_app.
      apply elem_of_app. left. exact Hq. }
    assert (forall q, q ∈ drop (S mi) cs ≫= ids -> (q < l)%nat) as Hlt2.
    { intros q Hq. apply Hlt. right. rewrite <- (take_drop (S mi) cs), bind_app.
      apply elem_of_app. right. exact Hq. }
    assert (x < l)%nat as Hxl by (apply Hlt; left).
    cbn [ids]. rewrite !bind_cons. cbn [ids mbind list_bind]. rewrite app_nil_r.
    apply NoDup_cons. split.
    { intros Hin. apply elem_of_cons in Hin as [->|Hin]; [lia|].
      apply elem_of_app in Hin as [Hin|Hin].
      - apply Hxn, elem_of_app. left. exact Hin.
      - apply elem_of_cons in Hin as [->|Hin]; [subst r; lia|].
        apply Hxn, elem_of_app. right. exact Hin. }
    change (NoDup ((l :: take (S mi) cs ≫= ids) ++
                   (r :: drop (S mi) cs ≫= ids))).
    apply NoDup_app. split; [|split].
    + apply NoDup_cons. split; [|exact Hnt].
      intros Hin. apply Hlt1 in Hin. lia.
    + intros q Hq Hq'. apply elem_of_cons in Hq as [->|Hq];
        apply elem_of_cons in Hq' as [Heq|Hq'].
      * subst r. lia.
      * apply Hlt2 in Hq'. lia.
      * apply Hlt1 in Hq. subst q r. lia.
      * eapply Hdisj; eassumption.
    + apply NoDup_cons. split; [|exact Hndr].
      intros Hin. apply Hlt2 in Hin. subst r. lia.
  - rewrite Hsame. exact Hs.
  - assert (forall c, c ∈ cs -> Forall (node_ok o) (subtrees c)) as Hk'
      by (apply Forall_forall, Hk).
    assert (length ks = Z.to_nat (o + 1)) as Hlen' by (unfold len in Hlen; lia).
    assert (mi < length ks)%nat as Hmi by (eapply lookup_lt_Some, Hm).
    apply Forall_subtrees. split.
    { split; [unfold len; simpl; lia|]. right. reflexivity. }
    constructor; [|constructor; [|constructor]].
    + apply Forall_subtrees. split.
      * split; [exact Hcl|]. simpl.
        destruct Hcnt as [->|Hcnt]; [left; apply take_nil|].
        right. rewrite !length_take. lia.
      * apply Forall_forall. intros c Hc. apply Hk'.
        eapply subseteq_take, Hc.
    + apply Forall_subtrees. split.
      * split; [exact Hcr|]. simpl.
        destruct Hcnt as [->|Hcnt]; [left; apply drop_nil|].
        right. rewrite !length_drop. lia.
      * apply Forall_forall. intros c Hc. apply Hk'.
        eapply subseteq_drop, Hc.
Qed.

(** ** Handing the median to the parent *)

(** Splits a membership in a concatenation into its cases. *)
Ltac elem_cases H :=
  repeat first
    [apply elem_of_app in H as [H|H] | apply elem_of_cons in H as [H|H]].

Ltac in_app := rewrite !elem_of_app; tauto.

Lemma keys_in_ileft k ls ks :
  length ls = length ks -> k ∈ ks -> k ∈ ileft ls ks.
Proof.
  revert ks. induction ls as [|l ls IH]; intros [|k0 ks] Hlen Hk;
    try discriminate; [inversion Hk|].
  simpl. apply elem_of_app. right.
  apply elem_of_cons in Hk as [->|Hk]; [left|right].
  apply IH; [simpl in Hlen; lia|exact Hk].
Qed.

Lemma keys_in_itail k ks ls : k ∈ ks -> k ∈ itail ks ls.
Proof.
  destruct ks as [|k0 ks]; intros Hk; [inversion Hk|]. simpl.
  apply elem_of_cons in Hk as [->|Hk]; [left|right].
  apply elem_of_interleave. left. exact Hk.
Qed.

Lemma recurse_zipper o h root f ctx x ks cs m :
  zipper o h root (f :: ctx) (Sh x ks cs) ->
  len ks = o + 1 ->
  ks !! (length ks / 2)%nat = Some m ->
  let ks' := f_kl f ++ m :: f_kr f in
  let t' :=
    Sh (f_id f) ks'
      (f_cl f ++ Sh (length h) (take (length ks / 2) ks) []
         :: Sh (S (length h)) (drop (S (length ks / 2)) ks) [] :: f_cr f) in
  exists h',
    zipper o h' root ctx t' /\
    forall fuel,
      _insert_median_split (S (S fuel)) x h =
        if o <? len ks' then _insert_median_split fuel (f_id f) h'
        else Ok tt h'.
Proof.
  destruct f as [p kl cl kr cr].
  intros [Ho Hroot Hctx Hr Hnd Hs Hf Hk Hcnt] Hlen Hm.
  cbv zeta. cbn [f_id f_kl f_kr f_cl f_cr].
  simpl in Hroot, Hctx, Hr, Hnd, Hs, Hk, Hcnt.
  destruct Hctx as (Hp & Hsib & Hctx).
  apply Forall_cons in Hf as [(Hll & Hlr & Hcap & Hsibok) Hf].
  simpl in Hll, Hlr, Hcap, Hsibok.
  set (mi := (length ks / 2)%nat) in *.
  set (l := length h). set (r := S (length h)).
  set (left := take mi ks). set (right := drop (S mi) ks).
  pose proof (lookup_lt_Some _ _ _ Hp) as Hplt.
  pose proof Hr as Hr0. apply repr_inv in Hr0 as [Hx _].
  (* the median lies between the parent's keys on either side *)
  assert (m ∈ interleave (inorder <$> cs) ks) as Hmin.
  { apply elem_of_interleave. left. eapply list_elem_of_lookup_2, Hm. }
  assert (Forall (fun k => k < m) kl /\ Forall (fun k => m < k) kr)
    as [Hkl Hkr].
  { split; apply Forall_forall; intros k Hk'.
    - eapply (StronglySorted_app_1_elem_of _ _ _ _ _ Hs).
      + apply elem_of_app. right. apply keys_in_ileft; [|exact Hk'].
        rewrite length_fmap. exact Hll.
      + apply elem_of_app. left. exact Hmin.
    - rewrite app_assoc in Hs.
      eapply (StronglySorted_app_1_elem_of _ _ _ _ _ Hs).
      + apply elem_of_app. right. exact Hmin.
      + apply elem_of_app. left. apply keys_in_itail, Hk'. }
  set (P := Node o (kl ++ m :: kr)
              ((sid <$> cl) ++ l :: r :: (sid <$> cr)) (ctx_parent ctx)).
  set (A := Node o left [] (Some p)). set (B := Node o right [] (Some p)).
  set (h' := <[p := P]> h ++ [A; B]).
  assert (forall fuel, _insert_median_split (S (S fuel)) x h =
            if o <? len (kl ++ m :: kr) then _insert_median_split fuel p h'
            else Ok tt h') as Hrun.
  { intros fuel. rewrite (median_split_inner _ _ _ _ m p Hx Hm eq_refl).
    rewrite (recurse_step _ _ _ _ _ _ _ Hp). cbn [keys children order parent].
    rewrite (first_above_app kl kr m Hkl Hkr).
    destruct kr as [|k kr].
    - destruct cr; [|discriminate]. simpl fmap.
      rewrite app_nil_r, splice_last_app. reflexivity.
    - rewrite insert_at_app.
      assert (length kl = length (sid <$> cl)) as ->
        by (rewrite length_fmap; lia).
      rewrite splice1_app. reflexivity. }
  assert (h' !! p = Some P) as Hp'.
  { subst h'. rewrite lookup_app_l by (rewrite length_insert; lia).
    apply list_lookup_insert_eq. exact Hplt. }
  assert (h' !! l = Some A) as Hl'.
  { subst h' l. rewrite lookup_app_r by (rewrite length_insert; lia).
    rewrite length_insert, Nat.sub_diag. reflexivity. }
  assert (h' !! r = Some B) as Hr'.
  { subst h' r. rewrite lookup_app_r by (rewrite length_insert; lia).
    rewrite length_insert.
    replace (S (length h) - length h)%nat with 1%nat by lia. reflexivity. }
  assert (forall q, q <> p -> (q < length h)%nat -> h' !! q = h !! q) as Hout.
  { intros q Hq Hql. subst h'.
    rewrite lookup_app_l by (rewrite length_insert; lia).
    apply list_lookup_insert_ne. congruence. }
  (* what the references of the old tree look like *)
  apply NoDup_cons in Hnd as [_ Hnd].
  apply NoDup_app in Hnd as (_ & _ & Hnd).
  apply NoDup_cons in Hnd as [Hpn Hnd].
  assert (forall q, q ∈ (cl ≫= ids) ++ (cr ≫= ids) ++ ctx_ids ctx ->
            h' !! q = h !! q) as Hag.
  { intros q Hq. apply Hout; [intros ->; contradiction|].
    eapply (repr_ctx_lt o h (Frame p kl cl kr cr :: ctx) x).
    - simpl. auto.
    - simpl. right. exact Hq. }
  assert (forall q, q ∈ (cl ≫= ids) ++ (cr ≫= ids) ++ ctx_ids ctx ->
            (q < l)%nat) as Hold.
  { intros q Hq. eapply (repr_ctx_lt o h (Frame p kl cl kr cr :: ctx) x).
    - simpl. auto.
    - simpl. right. exact Hq. }
  destruct (median_exists o ks Ho Hlen) as (m' & Hm' & Hcl & Hcr).
  fold mi left right in Hcl, Hcr.
  exists h'. split; [|exact Hrun]. constructor; simpl.
  - exact Ho.
  - exact Hroot.
  - eapply repr_ctx_agree; [exact Hctx|]. intros q Hq. apply Hag.
    rewrite !elem_of_app. auto.
  - constructor.
    + rewrite fmap_app, !fmap_cons. exact Hp'.
    + apply Forall_app in Hsib as [Hsl Hsr]. apply Forall_app. split.
      * eapply Forall_repr_agree; [exact Hsl|]. intros q Hq. apply Hag.
        rewrite !elem_of_app. auto.
      * constructor; [constructor; [exact Hl'|constructor]|].
        constructor; [constructor; [exact Hr'|constructor]|].
        eapply Forall_repr_agree; [exact Hsr|]. intros q Hq. apply Hag.
        rewrite !elem_of_app. auto.
  - rewrite bind_app, !bind_cons. cbn [ids mbind list_bind].
    rewrite <- !app_assoc. simpl. fold l. change (S l) with r.
    apply NoDup_cons. split.
    { intros Hin. elem_cases Hin; try (subst l r; lia); apply Hpn; in_app. }
    apply NoDup_app in Hnd as (Hn1 & Hdisj & Hn2).
    apply NoDup_app. split; [exact Hn1|]. split.
    + intros q Hq Hq'.
      assert (q < l)%nat as Hql by (apply Hold; in_app).
      elem_cases Hq'; try (subst l r; lia); eapply Hdisj; try exact Hq; in_app.
    + apply NoDup_cons. split.
      { intros Hin. elem_cases Hin; try (subst l r; lia).
        all: assert (l < l)%nat; [apply Hold; in_app|lia]. }
      apply NoDup_cons. split; [|exact Hn2].
      intros Hin. elem_cases Hin.
      all: assert (r < l)%nat; [apply Hold; in_app|subst r l; lia].
  - rewrite fmap_app, !fmap_cons. cbn [inorder fmap list_fmap interleave].
    rewrite interleave_middle2 by (rewrite length_fmap; exact Hll).
    eapply sublist_strongly_sorted; [|exact Hs].
    rewrite <- !app_assoc. apply sublist_app; [reflexivity|].
    apply sublist_app; [reflexivity|].
    replace (left ++ (m :: right ++ itail kr (inorder <$> cr))
               ++ ctx_right ctx)
      with ((left ++ m :: right) ++ itail kr (inorder <$> cr)
               ++ ctx_right ctx)
      by (rewrite <- !app_assoc; simpl; rewrite <- ?app_assoc; reflexivity).
    apply sublist_app; [|reflexivity].
    subst left right. rewrite (take_drop_middle ks mi m Hm).
    apply keys_sublist_interleave.
  - exact Hf.
  - apply Forall_app in Hsibok as [Hok1 Hok2]. apply Forall_app.
    split; [exact Hok1|].
    constructor; [|constructor; [|exact Hok2]].
    + constructor; [|constructor]. split; [exact Hcl|left; reflexivity].
    + constructor; [|constructor]. split; [exact Hcr|left; reflexivity].
  - right. rewrite ?length_app. simpl. rewrite ?length_app. simpl. lia.
Qed.

(** The keys in order of the parent once it has taken the median and the
    two halves: the keys of the split node in place of that node.  What was
    below the split node is no longer part of the tree. *)
Lemma recurse_keys f (ks : list Z) mi m l r :
  length (f_cl f) = length (f_kl f) -> ks !! mi = Some m ->
  inorder (Sh (f_id f) (f_kl f ++ m :: f_kr f)
             (f_cl f ++ Sh l (take mi ks) [] :: Sh r (drop (S mi) ks) []
                :: f_cr f))
  = ileft (inorder <$> f_cl f) (f_kl f) ++ ks ++
    itail (f_kr f) (inorder <$> f_cr f).
Proof.
  intros Hlen Hm. cbn [inorder]. rewrite fmap_app, !fmap_cons.
  rewrite interleave_middle2 by (rewrite length_fmap; exact Hlen).
  cbn [inorder fmap list_fmap interleave]. f_equal.
  rewrite <- (take_drop_middle ks mi m Hm) at 3.
  rewrite <- app_assoc. reflexivity.
Qed.

(** ** The way up: split propagation restores a well-formed tree

    No key appears on the way up.  Every key stays when the split node is
    the root, or a leaf directly under the root. *)

Lemma split_up o root ctx :
  forall x ks cs h,
    zipper o h root ctx (Sh x ks cs) -> len ks = o + 1 ->
    exists t' h',
      wf o h' root t' /\
      (forall k, k ∈ inorder t' ->
         k ∈ ctx_left ctx ++ inorder (Sh x ks cs) ++ ctx_right ctx) /\
      (ctx = [] \/ cs = [] /\ (length ctx <= 1)%nat ->
       forall k, k ∈ ctx_left ctx ++ inorder (Sh x ks cs) ++ ctx_right ctx ->
         k ∈ inorder t') /\
      forall fuel, (2 * length ctx < fuel)%nat ->
        _insert_median_split fuel x h = Ok tt h'.
Proof.
  induction ctx as [|f ctx IH]; intros x ks cs h Hz Hlen.
  - destruct (root_split_wf o h root x ks cs Hz Hlen)
      as (t' & h' & Hwf & Hsame & Hrun).
    exists t', h'. split; [exact Hwf|].
    cbn [ctx_left ctx_right app]. rewrite app_nil_r, Hsame.
    split; [auto|]. split; [auto|].
    intros [|fuel] Hfuel; [simpl in Hfuel; lia|apply Hrun].
  - pose proof (z_order _ _ _ _ _ Hz) as Ho.
    pose proof (z_frames _ _ _ _ _ Hz) as Hf.
    apply Forall_cons in Hf as [(Hll & _ & Hcap & _) _].
    destruct (median_exists o ks Ho Hlen) as (m & Hm & _ & _).
    destruct (recurse_zipper o h root f ctx x ks cs m Hz Hlen Hm)
      as (h' & Hz' & Hrun).
    cbv zeta in Hz'.
    pose proof (recurse_keys f ks _ m (length h) (S (length h)) Hll Hm)
      as Hkeys.
    assert (forall k, k ∈ ks -> k ∈ inorder (Sh x ks cs)) as Hsub.
    { intros k Hk. simpl. apply elem_of_interleave. left. exact Hk. }
    destruct (Z.ltb_spec o (len (f_kl f ++ m :: f_kr f))) as [Hover|Hfit].
    + destruct (IH _ _ _ h' Hz') as (t'' & h'' & Hwf & Hin & Hex & Hrun').
      { unfold len in *. rewrite length_app in *. simpl in *. lia. }
      exists t'', h''. split; [exact Hwf|]. split; [|split].
      * intros k Hk. apply Hin in Hk. rewrite Hkeys in Hk.
        cbn [ctx_left ctx_right]. specialize (Hsub k).
        rewrite !elem_of_app in Hk |- *. tauto.
      * intros [Hnil|[-> Hshort]] k Hk; [discriminate|].
        destruct ctx; [|simpl in Hshort; lia].
        apply Hex; [left; reflexivity|]. rewrite Hkeys.
        cbn [ctx_left ctx_right inorder fmap list_fmap interleave] in Hk |- *.
        rewrite !elem_of_app in Hk |- *. tauto.
      * intros [|[|fuel]] Hfuel; [simpl in Hfuel; lia..|].
        rewrite Hrun. destruct (Z.ltb_spec o (len (f_kl f ++ m :: f_kr f)));
          [|lia].
        apply Hrun'. simpl in Hfuel. lia.
    + eexists _, h'. split; [apply (zipper_wf _ _ _ _ _ Hz'); exact Hfit|].
      rewrite (inorder_plug o) by exact (z_frames _ _ _ _ _ Hz').
      rewrite Hkeys. split; [|split].
      * intros k Hk. cbn [ctx_left ctx_right]. specialize (Hsub k).
        rewrite !elem_of_app in Hk |- *. tauto.
      * intros [Hnil|[-> Hshort]] k Hk; [discriminate|].
        cbn [ctx_left ctx_right inorder fmap list_fmap interleave] in Hk.
        rewrite !elem_of_app in Hk |- *. tauto.
      * intros [|[|fuel]] Hfuel; [simpl in Hfuel; lia..|].
        rewrite Hrun. destruct (Z.ltb_spec o (len (f_kl f ++ m :: f_kr f)));
          [lia|reflexivity].
Qed.

(** ** The way down *)

Lemma sorted_insert_middle (a b : list Z) v :
  StronglySorted Z.lt (a ++ b) ->
  Forall (fun k => k < v) a -> Forall (fun k => v < k) b ->
  StronglySorted Z.lt (a ++ v :: b).
Proof.
  intros Hs Ha Hb. apply StronglySorted_app in Hs as (Hab & Hsa & Hsb).
  apply StronglySorted_app. split; [|split; [exact Hsa|]].
  - intros x1 x2 H1 H2. apply elem_of_cons in H2 as [->|H2].
    + rewrite Forall_forall in Ha. apply Ha, H1.
    + apply Hab; assumption.
  - apply StronglySorted_cons. split; assumption.
Qed.

Lemma sorted_insert L kl kr R v :
  StronglySorted Z.lt (L ++ (kl ++ kr) ++ R) ->
  Forall (fun k => k < v) L -> Forall (fun k => k < v) kl ->
  Forall (fun k => v < k) kr -> Forall (fun k => v < k) R ->
  StronglySorted Z.lt (L ++ (kl ++ v :: kr) ++ R).
Proof.
  intros Hs HL Hkl Hkr HR.
  replace (L ++ (kl ++ v :: kr) ++ R) with ((L ++ kl) ++ v :: (kr ++ R))
    by (rewrite <- !app_assoc; reflexivity).
  apply sorted_insert_middle.
  - rewrite <- !app_assoc in Hs |- *. exact Hs.
  - apply Forall_app. split; assumption.
  - apply Forall_app. split; assumption.
Qed.

(** Where the leaf loop puts a new value. *)
Lemma leaf_slot ks v :
  StronglySorted Z.lt ks -> (forall j, find_slot ks v <> Hit j) ->
  exists i,
    match find_slot ks v with
    | Above j => Py.insert_at ks j v
    | _ => ks ++ [v]
    end = take i ks ++ v :: drop i ks /\
    Forall (fun k => k < v) (take i ks) /\ Forall (fun k => v < k) (drop i ks).
Proof.
  intros Hs Hmiss. pose proof (find_slot_sorted ks v Hs) as H.
  destruct (find_slot ks v) as [j|j|].
  - exfalso. eapply Hmiss. reflexivity.
  - exists j. destruct H as (_ & Hl & Hr). split; [reflexivity|]. auto.
  - exists (length ks). rewrite firstn_all, drop_all.
    split; [reflexivity|]. split; [exact H|constructor].
Qed.

Lemma leaf_insert_zipper o h root ctx id ks v i :
  zipper o h root ctx (Sh id ks []) ->
  Forall (fun k => k < v) (ctx_left ctx) ->
  Forall (fun k => v < k) (ctx_right ctx) ->
  Forall (fun k => k < v) (take i ks) ->
  Forall (fun k => v < k) (drop i ks) ->
  let ks' := take i ks ++ v :: drop i ks in
  zipper o (<[id := Node o ks' [] (ctx_parent ctx)]> h) root ctx
    (Sh id ks' []).
Proof.
  intros [Ho Hroot Hctx Hr Hnd Hs Hf Hk Hcnt] HL HR Hkl Hkr ks'.
  simpl in Hroot, Hctx, Hnd, Hs.
  apply repr_inv in Hr as [Hid _].
  apply NoDup_cons in Hnd as [Hidn Hnd].
  constructor; simpl.
  - exact Ho.
  - exact Hroot.
  - eapply repr_ctx_agree; [exact Hctx|]. intros q Hq.
    apply list_lookup_insert_ne. intros ->. contradiction.
  - constructor; [|constructor].
    apply list_lookup_insert_eq. eapply lookup_lt_Some, Hid.
  - apply NoDup_cons. split; assumption.
  - subst ks'. apply sorted_insert; try assumption.
    rewrite take_drop. exact Hs.
  - exact Hf.
  - constructor.
  - left. reflexivity.
Qed.

Lemma child_zipper o h root ctx id ks cs i c :
  zipper o h root ctx (Sh id ks cs) -> len ks <= o ->
  cs !! i = Some c -> (i <= length ks)%nat -> length cs = S (length ks) ->
  zipper o h root
    (Frame id (take i ks) (take i cs) (drop i ks) (drop (S i) cs) :: ctx) c /\
  len (skeys c) <= o.
Proof.
  intros [Ho Hroot Hctx Hr Hnd Hs Hf Hk Hcnt] Hcap Hc Hi Hlen.
  simpl in Hroot, Hnd, Hk.
  pose proof (lookup_lt_Some _ _ _ Hc) as Hilt.
  pose proof (Forall_lookup_1 _ _ _ _ Hk Hc) as Hokc.
  destruct c as [g gks gcs].
  apply Forall_subtrees in Hokc as [[Hcapc Hcntc] Hkc].
  rewrite (inorder_child _ _ _ _ _ Hc Hi) in Hs.
  apply repr_inv in Hr as [Hid Hcs].
  split; [|exact Hcapc]. constructor; simpl.
  - exact Ho.
  - exact Hroot.
  - split; [|split; [|exact Hctx]].
    + rewrite take_drop.
      rewrite <- (take_drop_middle cs i _ Hc), fmap_app, fmap_cons in Hid.
      exact Hid.
    + apply Forall_app. split; [apply Forall_take|apply Forall_drop]; exact Hcs.
  - exact (Forall_lookup_1 _ _ _ _ Hcs Hc).
  - rewrite <- (take_drop_middle cs i _ Hc), bind_app, bind_cons in Hnd.
    change (NoDup (ids (Sh g gks gcs) ++
                   id :: (take i cs ≫= ids) ++ (drop (S i) cs ≫= ids) ++
                   ctx_ids ctx)).
    remember (ids (Sh g gks gcs)) as G. remember (take i cs ≫= ids) as T.
    remember (drop (S i) cs ≫= ids) as D.
    assert (G ++ id :: T ++ D ++ ctx_ids ctx
            ≡ₚ id :: (T ++ G ++ D) ++ ctx_ids ctx) as ->; [|exact Hnd].
    rewrite <- Permutation_middle. apply Permutation_skip.
    rewrite <- !app_assoc. rewrite (app_assoc G T).
    rewrite (Permutation_app_comm G T). rewrite <- app_assoc. reflexivity.
  - simpl in Hs. rewrite <- !app_assoc in Hs. rewrite <- !app_assoc.
    exact Hs.
  - constructor; [|exact Hf]. split; [|split; [|split]]; simpl.
    + rewrite !length_take. lia.
    + rewrite !length_drop. lia.
    + rewrite take_drop. exact Hcap.
    + apply Forall_app. split; [apply Forall_take|apply Forall_drop]; exact Hk.
  - exact Hkc.
  - exact Hcntc.
Qed.

(** A new value in a leaf: the keys grow by one, and an over-full leaf is
    split. *)
Lemma insert_leaf o root v ctx h id ks :
  zipper o h root ctx (Sh id ks []) -> len ks <= o ->
  Forall (fun k => k < v) (ctx_left ctx) ->
  Forall (fun k => v < k) (ctx_right ctx) ->
  (forall j, find_slot ks v <> Hit j) ->
  exists t' h',
    wf o h' root t' /\
    (forall k, k ∈ inorder t' ->
       k = v \/ k ∈ ctx_left ctx ++ ks ++ ctx_right ctx) /\
    ((length ctx <= 1)%nat \/ len ks < o ->
     forall k, k = v \/ k ∈ ctx_left ctx ++ ks ++ ctx_right ctx ->
       k ∈ inorder t') /\
    forall fuel, (2 * length ctx + 1 < fuel)%nat ->
      insert fuel id v h = Ok true h'.
Proof.
  intros Hz Hcap HL HR Hmiss.
  pose proof (z_repr _ _ _ _ _ Hz) as Hr. apply repr_inv in Hr as [Hid _].
  assert (StronglySorted Z.lt ks) as Hst.
  { pose proof (z_sorted _ _ _ _ _ Hz) as Hs.
    apply StronglySorted_app in Hs as (_ & _ & Hs).
    apply StronglySorted_app in Hs as (_ & Hs & _). exact Hs. }
  destruct (leaf_slot ks v Hst Hmiss) as (i & Heq & Hkl & Hkr).
  pose proof (leaf_insert_zipper o h root ctx id ks v i Hz HL HR Hkl Hkr)
    as Hz'. cbv zeta in Hz'.
  set (ks' := take i ks ++ v :: drop i ks) in *.
  set (h1 := <[id := Node o ks' [] (ctx_parent ctx)]> h) in *.
  assert (h1 !! id = Some (Node o ks' [] (ctx_parent ctx))) as Hid1
    by (apply list_lookup_insert_eq; eapply lookup_lt_Some, Hid).
  assert (forall f, insert (S f) id v h =
            if o <? len ks'
            then (_insert_median_split f id ;;; ret true) h1
            else Ok true h1) as Hrun.
  { intros f. simpl insert.
    rewrite (bind_ok _ _ _ _ _ (load_ok _ _ _ Hid)).
    cbn [keys children fmap list_fmap truthy].
    destruct (find_slot ks v) as [j|j|] eqn:E;
      [exfalso; eapply Hmiss; reflexivity|..].
    all: rewrite (bind_ok _ _ _ _ _ (set_keys_ok _ _ _ _ Hid)).
    all: cbn [order keys children parent]; rewrite Heq; fold ks' h1.
    all: rewrite (bind_ok _ _ _ _ _ (load_ok _ _ _ Hid1)).
    all: cbn [order keys]; destruct (o <? len ks'); reflexivity. }
  assert (forall k, k ∈ ks' <-> k = v \/ k ∈ ks) as Hks'.
  { intros k. subst ks'. rewrite <- (take_drop i ks) at 3.
    rewrite !elem_of_app, elem_of_cons. tauto. }
  assert (len ks' = len ks + 1) as Hlen'.
  { subst ks'. unfold len. rewrite <- (take_drop i ks) at 3.
    rewrite !length_app. simpl. lia. }
  destruct (Z.ltb_spec o (len ks')) as [Hover|Hfit].
  - destruct (split_up o root ctx id ks' [] h1 Hz')
      as (t' & h' & Hwf & Hin & Hex & Hup); [lia|].
    cbn [inorder fmap list_fmap interleave] in Hin, Hex.
    exists t', h'. split; [exact Hwf|]. split; [|split].
    + intros k Hk. apply Hin in Hk. specialize (Hks' k).
      rewrite !elem_of_app in Hk |- *. tauto.
    + intros [Hshort|Hroom] k Hk; [|lia].
      apply Hex; [right; auto|]. specialize (Hks' k).
      rewrite !elem_of_app in Hk |- *. tauto.
    + intros [|fuel] Hfuel; [simpl in Hfuel; lia|].
      rewrite Hrun. destruct (Z.ltb_spec o (len ks')); [|lia].
      rewrite (bind_ok _ _ _ _ _ (Hup fuel ltac:(simpl in Hfuel; lia))).
      reflexivity.
  - exists (plug ctx (Sh id ks' [])), h1.
    split; [apply zipper_wf; assumption|].
    rewrite (inorder_plug o) by exact (z_frames _ _ _ _ _ Hz').
    cbn [inorder fmap list_fmap interleave].
    split; [|split].
    + intros k Hk. specialize (Hks' k).
      rewrite !elem_of_app in Hk |- *. tauto.
    + intros _ k Hk. specialize (Hks' k).
      rewrite !elem_of_app in Hk |- *. tauto.
    + intros [|fuel] Hfuel; [simpl in Hfuel; lia|].
      rewrite Hrun. destruct (Z.ltb_spec o (len ks')); [lia|reflexivity].
Qed.

(** The whole insertion, from any node on the search path. *)
Lemma insert_down o root v t :
  forall ctx h,
    zipper o h root ctx t -> len (skeys t) <= o ->
    Forall (fun k => k < v) (ctx_left ctx) ->
    Forall (fun k => v < k) (ctx_right ctx) ->
    exists b t' h',
      wf o h' root t' /\
      ((v ∈ inorder t -> b = false) /\ (v ∉ inorder t -> b = true)) /\
      (forall k, k ∈ inorder t' ->
         k = v \/ k ∈ ctx_left ctx ++ inorder t ++ ctx_right ctx) /\
      ((length ctx + height t <= 2)%nat \/ Forall (leaf_room o) (subtrees t) ->
       forall k, k = v \/ k ∈ ctx_left ctx ++ inorder t ++ ctx_right ctx ->
         k ∈ inorder t') /\
      forall fuel, (2 * length ctx + 3 * height t < fuel)%nat ->
        insert fuel (sid t) v h = Ok b h'.
Proof.
  induction t as [id ks cs IH] using shape_ind'. intros ctx h Hz Hcap HL HR.
  pose proof Hz as [Ho Hroot Hctx Hr Hnd Hs Hf Hk Hcnt].
  cbn [skeys skids] in Hcap, Hcnt.
  apply repr_inv in Hr as [Hid Hcs].
  assert (StronglySorted Z.lt (inorder (Sh id ks cs))) as Hst.
  { apply StronglySorted_app in Hs as (_ & _ & Hs).
    apply StronglySorted_app in Hs as (_ & Hs & _). exact Hs. }
  assert (StronglySorted Z.lt ks) as Hks.
  { eapply sublist_strongly_sorted; [|exact Hst].
    apply keys_sublist_interleave. }
  destruct (hit_or_miss ks v) as [[j E]|Hmiss].
  { (* the value is a key of this node *)
    assert (v ∈ inorder (Sh id ks cs)) as Hv.
    { pose proof (find_slot_sorted ks v Hks) as Hj. rewrite E in Hj.
      simpl. apply elem_of_interleave. left.
      eapply list_elem_of_lookup_2, Hj. }
    exists false, (plug ctx (Sh id ks cs)), h.
    split; [apply zipper_wf; assumption|].
    rewrite (inorder_plug o) by exact Hf.
    split; [split; [reflexivity|contradiction]|].
    split; [auto|]. split.
    { intros _ k [->|Hin]; [|exact Hin]. rewrite !elem_of_app. auto. }
    intros [|fuel] Hfuel; [simpl in Hfuel; lia|].
    simpl insert. rewrite (bind_ok _ _ _ _ _ (load_ok _ _ _ Hid)).
    cbn [keys children]. rewrite E. destruct (truthy _); reflexivity. }
  destruct (decide (cs = [])) as [->|Hne].
  { (* a leaf *)
    destruct (insert_leaf o root v ctx h id ks Hz Hcap HL HR Hmiss)
      as (t' & h' & Hwf & Hin & Hex & Hrun).
    exists true, t', h'. split; [exact Hwf|].
    cbn [inorder fmap list_fmap interleave].
    split; [split; [|reflexivity]|].
    { intros Hv. destruct (find_slot_hit ks v Hks Hv) as [j E].
      exfalso. eapply Hmiss, E. }
    split; [exact Hin|]. split.
    { intros [Hshort|Hroom]; apply Hex.
      - left. simpl in Hshort. lia.
      - right. apply Forall_subtrees in Hroom as [Hroom _].
        apply Hroom. reflexivity. }
    intros fuel Hfuel. apply Hrun. simpl in Hfuel. lia. }
  (* an inner node: go on in the child the scan selects *)
  pose proof (inner_child_count o id ks cs (conj Hcap Hcnt) Hne) as Hlen.
  destruct (descend o id ks cs v Hne (conj Hcap Hcnt) Hst Hmiss)
    as (i & c & _ & Hi & Hc & Hg & Hl & Hr).
  destruct (child_zipper o h root ctx id ks cs i c Hz Hcap Hc Hi Hlen)
    as [Hz' Hcap'].
  pose proof (height_lookup id ks cs i c Hc) as Hh.
  destruct (Forall_lookup_1 _ _ _ _ IH Hc _ h Hz' Hcap')
    as (b & t' & h' & Hwf & Hb & Hin & Hex & Hrun).
  { simpl. apply Forall_app. split; assumption. }
  { simpl. apply Forall_app. split; assumption. }
  cbn [ctx_left ctx_right f_cl f_kl f_cr f_kr] in Hin, Hex.
  exists b, t', h'. split; [exact Hwf|].
  rewrite (inorder_child _ _ _ _ _ Hc Hi).
  split; [|split; [|split]].
  { assert (v ∈ ileft (inorder <$> take i cs) (take i ks) ++ inorder c ++
                itail (drop i ks) (inorder <$> drop (S i) cs)
            <-> v ∈ inorder c) as Hiff.
    { rewrite <- (inorder_child id _ _ _ _ Hc Hi).
      split; [eapply stored_below; eassumption|].
      intros Hv. rewrite (inorder_child _ _ _ _ _ Hc Hi).
      rewrite !elem_of_app. auto. }
    rewrite Hiff. exact Hb. }
  { intros k Hk'. apply Hin in Hk'. rewrite !elem_of_app in Hk' |- *. tauto. }
  { intros Hcond k Hk'. apply Hex.
    - destruct Hcond as [Hshort|Hroom]; [left|right].
      + cbn [length]. lia.
      + eapply child_subtrees_ok; eassumption.
    - rewrite !elem_of_app in Hk' |- *. tauto. }
  intros [|fuel] Hfuel; [simpl in Hfuel; lia|].
  simpl insert. rewrite (bind_ok _ _ _ _ _ (load_ok _ _ _ Hid)).
  cbn [keys children]. rewrite (truthy_fmap _ _ Hne).
  destruct (find_slot ks v) as [j|j|];
    [exfalso; eapply Hmiss; reflexivity|..].
  all: rewrite Hg, lift_some; unfold bind at 1, ret at 1; apply Hrun.
  all: simpl length; lia.
Qed.

(** ** Insertion keeps the tree well formed *)

Lemma wf_capacity o h root t r n :
  wf o h root t -> reach h root r -> h !! r = Some n ->
  order n = o /\ len (keys n) <= o.
Proof.
  intros [Ho <- Hr Hnd Hs Hok] Hreach Hn.
  destruct (reach_subtree _ _ _ _ _ Hr Hreach) as (s & Hs' & <-).
  destruct (subtree_lookup _ _ _ _ _ Hr Hs') as [p' Hl].
  rewrite Hl in Hn. injection Hn as <-. simpl. split; [reflexivity|].
  rewrite Forall_forall in Hok. apply (Hok s Hs').
Qed.

Lemma insert_well_formed o h root v :
  well_formed o h root ->
  exists N b h',
    (forall fuel, (N <= fuel)%nat -> insert fuel root v h = Ok b h') /\
    well_formed o h' root.
Proof.
  intros [t Hwf]. pose proof Hwf as [_ Hroot _ _ _ _].
  destruct (wf_zipper _ _ _ _ Hwf) as [Hz Hcap].
  destruct (insert_down o root v t [] h Hz Hcap)
    as (b & t' & h' & Hwf' & _ & _ & _ & Hrun); [constructor..|].
  exists (S (3 * height t)), b, h'. split.
  - intros fuel Hfuel. rewrite <- Hroot. apply Hrun. simpl. lia.
  - exists t'. exact Hwf'.
Qed.

(** C7.  On a well-formed tree [insert] returns, and in the store it
    leaves every node under the root holds at most [order] keys; the tree
    is again well formed. *)
Theorem insert_capacity o h root v :
  well_formed o h root ->
  exists N b h',
    (forall fuel, (N <= fuel)%nat -> insert fuel root v h = Ok b h') /\
    well_formed o h' root /\
    forall r n, reach h' root r -> h' !! r = Some n ->
      len (keys n) <= order n.
Proof.
  intros Hwf.
  destruct (insert_well_formed o h root v Hwf) as (N & b & h' & Hrun & Hwf').
  exists N, b, h'. split; [exact Hrun|]. split; [exact Hwf'|].
  intros r n Hreach Hn. destruct Hwf' as [t' Hwf'].
  destruct (wf_capacity _ _ _ _ _ _ Hwf' Hreach Hn) as [-> Hcap]. exact Hcap.
Qed.

(** ** Calls that stay within one leaf *)

Lemma bind_ret {A B} (a : A) (k : A -> M B) h : bind (ret a) k h = k a h.
Proof. reflexivity. Qed.

Lemma find_slot_past ks v : Forall (fun k => k < v) ks -> find_slot ks v = Past.
Proof.
  induction 1 as [|k ks Hk _ IH]; [reflexivity|].
  rewrite find_slot_cons, IH.
  destruct (Z.eqb_spec k v); [lia|]. destruct (Z.ltb_spec v k); [lia|].
  reflexivity.
Qed.

Lemma find_slot_front ks v :
  Forall (fun k => v < k) ks ->
  find_slot ks v = match ks with [] => Past | _ => Above 0 end.
Proof.
  intros [|k ks' Hk _]; [reflexivity|]. rewrite find_slot_cons.
  destruct (Z.eqb_spec k v); [lia|]. destruct (Z.ltb_spec v k); [|lia].
  reflexivity.
Qed.

Lemma find_slot_last sk m :
  Forall (fun k => k < m) sk -> find_slot (sk ++ [m]) m = Hit (length sk).
Proof.
  induction 1 as [|k ks Hk _ IH].
  - simpl. rewrite find_slot_cons, Z.eqb_refl. reflexivity.
  - simpl. rewrite find_slot_cons, IH.
    destruct (Z.eqb_spec k m); [lia|]. destruct (Z.ltb_spec m k); [lia|].
    reflexivity.
Qed.

Lemma remove_first_last sk m :
  Forall (fun k => k < m) sk -> Py.remove_first (sk ++ [m]) m = Some sk.
Proof.
  induction 1 as [|k ks Hk _ IH]; simpl.
  - destruct (decide (m = m)); [reflexivity|contradiction].
  - destruct (decide (k = m)); [lia|]. rewrite IH. reflexivity.
Qed.

Lemma py_del_nat {A} (l : list A) (i : nat) :
  (i < length l)%nat ->
  Py.del l (Z.of_nat i) = Some (take i l ++ drop (S i) l).
Proof.
  intros Hlt. unfold Py.del, Py.norm_index.
  destruct (Z.leb_spec 0 (Z.of_nat i)); [|lia].
  destruct (Z.ltb_spec (Z.of_nat i) (Z.of_nat (length l))); [|lia].
  simpl. rewrite Nat2Z.id. reflexivity.
Qed.

(** A value put into a leaf that has room: no split follows. *)
Lemma insert_leaf_run h d od dk dq v ks' fuel :
  h !! d = Some (Node od dk [] dq) ->
  match find_slot dk v with
  | Hit _ => False
  | Above i => ks' = Py.insert_at dk i v
  | Past => ks' = dk ++ [v]
  end ->
  len ks' <= od -> (1 <= fuel)%nat ->
  insert fuel d v h = Ok true (<[d := Node od ks' [] dq]> h).
Proof.
  intros Hd Hslot Hroom Hfuel. destruct fuel as [|fuel]; [lia|].
  assert (<[d := Node od ks' [] dq]> h !! d = Some (Node od ks' [] dq))
    as Hd' by (apply list_lookup_insert_eq; eapply lookup_lt_Some, Hd).
  simpl insert. rewrite (bind_ok _ _ _ _ _ (load_ok _ _ _ Hd)).
  cbn [keys children truthy].
  destruct (find_slot dk v) as [j|j|]; [contradiction|subst ks'..].
  all: rewrite (bind_ok _ _ _ _ _ (set_keys_ok _ _ _ _ Hd)).
  all: cbn [order keys children parent].
  all: rewrite (bind_ok _ _ _ _ _ (load_ok _ _ _ Hd')); cbn [order keys].
  all: match goal with
       | |- context [?a <? ?b] => destruct (Z.ltb_spec a b); [lia|reflexivity]
       end.
Qed.

(** A value taken from a leaf that keeps [order // 2] keys: no rebalancing
    follows. *)
Lemma remove_leaf_run h s os ks ks' sq v j fuel :
  h !! s = Some (Node os ks [] sq) ->
  find_slot ks v = Hit j -> Py.remove_first ks v = Some ks' ->
  os / 2 <= len ks' -> (1 <= fuel)%nat ->
  remove fuel s v h = Ok PyTrue (<[s := Node os ks' [] sq]> h).
Proof.
  intros Hs Hslot Hrf Hspare Hfuel. destruct fuel as [|fuel]; [lia|].
  assert (<[s := Node os ks' [] sq]> h !! s = Some (Node os ks' [] sq))
    as Hs' by (apply list_lookup_insert_eq; eapply lookup_lt_Some, Hs).
  simpl remove. rewrite (bind_ok _ _ _ _ _ (load_ok _ _ _ Hs)).
  cbn [keys children truthy]. rewrite Hslot, Hrf, lift_some, bind_ret.
  cbv beta. rewrite (bind_ok _ _ _ _ _ (set_keys_ok _ _ _ _ Hs)).
  cbn [order keys children parent].
  rewrite (bind_ok _ _ _ _ _ (load_ok _ _ _ Hs')). cbn [order keys].
  destruct (Z.ltb_spec (len ks') (os / 2)); [lia|reflexivity].
Qed.

Lemma minimum_leaf_run h s os m sk sq fuel :
  h !! s = Some (Node os (m :: sk) [] sq) -> (1 <= fuel)%nat ->
  minimum fuel s h = Ok m h.
Proof.
  intros Hs Hfuel. destruct fuel as [|fuel]; [lia|].
  simpl minimum. rewrite (bind_ok _ _ _ _ _ (load_ok _ _ _ Hs)).
  reflexivity.
Qed.

Lemma maximum_leaf_run h s os m sk sq fuel :
  h !! s = Some (Node os (sk ++ [m]) [] sq) -> (1 <= fuel)%nat ->
  maximum fuel s h = Ok m h.
Proof.
  intros Hs Hfuel. destruct fuel as [|fuel]; [lia|].
  simpl maximum. rewrite (bind_ok _ _ _ _ _ (load_ok _ _ _ Hs)).
  cbn [keys children truthy]. rewrite py_get_last. reflexivity.
Qed.

(** ** What an insertion does to the keys *)

Lemma insert_tracked o h root t v :
  wf o h root t ->
  exists N b t' h',
    (forall fuel, (N <= fuel)%nat -> insert fuel root v h = Ok b h') /\
    wf o h' root t' /\
    ((v ∈ inorder t -> b = false) /\ (v ∉ inorder t -> b = true)) /\
    (forall k, k ∈ inorder t' -> k = v \/ k ∈ inorder t) /\
    ((height t <= 2)%nat \/ Forall (leaf_room o) (subtrees t) ->
     forall k, k = v \/ k ∈ inorder t -> k ∈ inorder t').
Proof.
  intros Hwf. pose proof Hwf as [_ Hroot _ _ _ _].
  destruct (wf_zipper _ _ _ _ Hwf) as [Hz Hcap].
  destruct (insert_down o root v t [] h Hz Hcap)
    as (b & t' & h' & Hwf' & Hb & Hin & Hex & Hrun); [constructor..|].
  cbn [ctx_left ctx_right app length Nat.add] in Hin, Hex.
  rewrite app_nil_r in Hin, Hex.
  exists (S (3 * height t)), b, t', h'. split; [|auto].
  intros fuel Hfuel. rewrite <- Hroot. apply Hrun. simpl. lia.
Qed.

Lemma wf_stored o h root t k :
  wf o h root t -> stored h root k <-> k ∈ inorder t.
Proof. intros [_ <- Hr _ _ _]. eapply stored_inorder, Hr. Qed.

Lemma wf_leaf_room o h root t :
  wf o h root t ->
  (forall r n, reach h root r -> h !! r = Some n -> children n = [] ->
     len (keys n) < order n) ->
  Forall (leaf_room o) (subtrees t).
Proof.
  intros [_ <- Hr _ _ _] Hroom. apply Forall_forall. intros s Hs Hleaf.
  destruct (subtree_lookup _ _ _ _ _ Hr Hs) as [p' Hl].
  apply (Hroom _ _ (subtree_reach _ _ _ _ _ Hr Hs) Hl).
  simpl. rewrite Hleaf. reflexivity.
Qed.

Lemma wf_two_levels o h root t :
  wf o h root t ->
  (forall n c cn, h !! root = Some n -> c ∈ children n -> h !! c = Some cn ->
     children cn = []) ->
  (height t <= 2)%nat.
Proof.
  intros [_ <- Hr _ _ _] Hflat. destruct t as [id ks cs].
  apply repr_inv in Hr as [Hid Hcs]. simpl in Hflat |- *.
  assert (Forall (fun c => (height c <= 1)%nat) cs) as Hone.
  { apply Forall_forall. intros c Hc. rewrite Forall_forall in Hcs.
    pose proof (Hcs c Hc) as Hrc. destruct c as [g gks gcs].
    apply repr_inv in Hrc as [Hg _].
    pose proof (Hflat _ _ _ Hid (list_elem_of_fmap_2 sid _ _ Hc) Hg) as Hnil.
    simpl in Hnil. apply fmap_nil_inv in Hnil as ->. simpl. lia. }
  assert (max_list (height <$> cs) <= 1)%nat as Hmax; [|lia].
  clear -Hone. induction Hone as [|c cs Hc _ IH]; [simpl; lia|].
  rewrite fmap_cons.
  change (max_list (height c :: (height <$> cs)))
    with (height c `max` max_list (height <$> cs))%nat.
  lia.
Qed.

(** X2.  On a well-formed tree [insert] returns [True] exactly when the
    value was not stored before the call. *)
Theorem insert_result o h root v :
  well_formed o h root ->
  exists N b h',
    (forall fuel, (N <= fuel)%nat -> insert fuel root v h = Ok b h') /\
    (b = true <-> ~ stored h root v).
Proof.
  intros [t Hwf].
  destruct (insert_tracked o h root t v Hwf)
    as (N & b & t' & h' & Hrun & _ & [Hyes Hno] & _).
  exists N, b, h'. split; [exact Hrun|].
  rewrite (wf_stored _ _ _ _ v Hwf). split.
  - intros -> Hv. specialize (Hyes Hv). discriminate.
  - exact Hno.
Qed.

(** X3.  [insert] adds no key but its argument: every key stored after the
    call on a well-formed tree is the inserted value or was stored
    before. *)
Theorem insert_adds_nothing_else o h root v :
  well_formed o h root ->
  exists N b h',
    (forall fuel, (N <= fuel)%nat -> insert fuel root v h = Ok b h') /\
    forall k, stored h' root k -> k = v \/ stored h root k.
Proof.
  intros [t Hwf].
  destruct (insert_tracked o h root t v Hwf)
    as (N & b & t' & h' & Hrun & Hwf' & _ & Hin & _).
  exists N, b, h'. split; [exact Hrun|]. intros k.
  rewrite (wf_stored _ _ _ _ k Hwf), (wf_stored _ _ _ _ k Hwf'). apply Hin.
Qed.

(** A new value in a tree whose leaves all have room: the search ends in a
    leaf, whose keys take the value; that is the whole change. *)
Lemma insert_room_shape o h v t :
  forall p, repr o h p t ->
  Forall (node_ok o) (subtrees t) ->
  StronglySorted Z.lt (inorder t) ->
  Forall (leaf_room o) (subtrees t) ->
  v ∉ inorder t ->
  exists s p' i,
    s ∈ subtrees t /\ skids s = [] /\
    h !! sid s = Some (Node o (skeys s) [] p') /\
    forall fuel, (height t <= fuel)%nat ->
      insert fuel (sid t) v h =
        Ok true (<[sid s := Node o (take i (skeys s) ++ v :: drop i (skeys s))
                              [] p']> h).
Proof.
  induction t as [id ks cs IH] using shape_ind'.
  intros p Hr Hok Hs Hroom Hv.
  apply repr_inv in Hr as [Hid Hcs].
  assert (forall j, find_slot ks v <> Hit j) as Hmiss.
  { apply find_slot_miss. intros Hk. apply Hv. simpl.
    apply elem_of_interleave. left. exact Hk. }
  destruct (decide (cs = [])) as [->|Hne].
  { simpl in Hs. destruct (leaf_slot ks v Hs Hmiss) as (i & Heq & _ & _).
    exists (Sh id ks []), p, i. split; [left|]. split; [reflexivity|].
    split; [exact Hid|]. intros fuel Hfuel. simpl in Hfuel.
    apply (insert_leaf_run h id o ks p v _ fuel Hid).
    - destruct (find_slot ks v) as [j|j|];
        [eapply Hmiss; reflexivity|symmetry; exact Heq..].
    - apply Forall_subtrees in Hroom as [Hroom _].
      specialize (Hroom eq_refl). cbn [skeys] in Hroom |- *.
      unfold len in *. rewrite length_app. simpl.
      rewrite length_take, length_drop. lia.
    - lia. }
  pose proof Hok as Hn. apply Forall_subtrees in Hn as [Hn _].
  destruct (descend o id ks cs v Hne Hn Hs Hmiss)
    as (i & c & _ & Hi & Hc & Hg & Hl & Hr).
  destruct (Forall_lookup_1 _ _ _ _ IH Hc (Some id))
    as (s & p' & k & Hsub & Hleaf & Hlook & Hrun).
  { exact (Forall_lookup_1 _ _ _ _ Hcs Hc). }
  { eapply child_subtrees_ok; eassumption. }
  { eapply sorted_child; eassumption. }
  { eapply child_subtrees_ok; eassumption. }
  { eapply not_stored_child; [eapply list_elem_of_lookup_2|]; eassumption. }
  exists s, p', k. split; [|split; [exact Hleaf|split; [exact Hlook|]]].
  { right. apply list_elem_of_bind. exists c.
    split; [exact Hsub|eapply list_elem_of_lookup_2, Hc]. }
  intros [|fuel] Hfuel; [simpl in Hfuel; lia|].
  pose proof (height_lookup id ks cs i c Hc) as Hh.
  simpl insert. rewrite (bind_ok _ _ _ _ _ (load_ok _ _ _ Hid)).
  cbn [keys children]. rewrite (truthy_fmap _ _ Hne).
  destruct (find_slot ks v) as [j|j|];
    [exfalso; eapply Hmiss; reflexivity|..].
  all: rewrite Hg, lift_some, bind_ret; cbv beta; apply Hrun; lia.
Qed.

(** X4.  When every leaf of a well-formed tree holds fewer than [order]
    keys, [insert] splits nothing.  A value that is stored leaves the store
    as it was.  A value that is not stored changes the store in one place:
    the keys of one leaf under the root take the value.  No node is
    created and no other attribute of any node changes.  The tree is again
    well formed and stores exactly the keys it stored before and the
    inserted value. *)
Theorem insert_with_room o h root v :
  well_formed o h root ->
  (forall r n, reach h root r -> h !! r = Some n -> children n = [] ->
     len (keys n) < order n) ->
  exists N b h',
    (forall fuel, (N <= fuel)%nat -> insert fuel root v h = Ok b h') /\
    well_formed o h' root /\
    (forall k, stored h' root k <-> k = v \/ stored h root k) /\
    (stored h root v -> h' = h) /\
    (~ stored h root v ->
     exists leaf n i,
       reach h root leaf /\ h !! leaf = Some n /\ children n = [] /\
       h' = <[leaf := Node (order n)
                        (take i (keys n) ++ v :: drop i (keys n))
                        [] (parent n)]> h).
Proof.
  intros [t Hwf] Hroom.
  destruct (insert_tracked o h root t v Hwf)
    as (N & b & t' & h' & Hrun & Hwf' & _ & Hin & Hex).
  pose proof (wf_leaf_room _ _ _ _ Hwf Hroom) as Hroom'.
  pose proof (Hrun (N `max` height t)%nat ltac:(lia)) as Hat.
  exists N, b, h'. split; [exact Hrun|]. split; [exists t'; exact Hwf'|].
  split; [|split].
  - intros k. rewrite (wf_stored _ _ _ _ k Hwf), (wf_stored _ _ _ _ k Hwf').
    split; [apply Hin|apply Hex]. right. exact Hroom'.
  - intros Hv. apply (wf_stored _ _ _ _ v Hwf) in Hv.
    destruct Hwf as [_ <- Hr _ Hs Hok].
    rewrite (insert_present_shape o h v t None Hr Hok Hs Hv
               (N `max` height t)%nat ltac:(lia)) in Hat.
    congruence.
  - intros Hv. rewrite (wf_stored _ _ _ _ v Hwf) in Hv.
    destruct Hwf as [_ <- Hr _ Hs Hok].
    destruct (insert_room_shape o h v t None Hr Hok Hs Hroom' Hv)
      as (s & p' & i & Hsub & Hleaf & Hlook & Hexp).
    rewrite (Hexp (N `max` height t)%nat ltac:(lia)) in Hat.
    exists (sid s), (Node o (skeys s) [] p'), i.
    split; [eapply subtree_reach; eassumption|].
    split; [exact Hlook|]. split; [reflexivity|]. cbn [order keys parent].
    congruence.
Qed.

(** X5.  When all children of the root are leaves (or the root is a leaf),
    splits keep every key: after [insert] the tree is well formed and
    stores exactly the keys it stored before and the inserted value. *)
Theorem insert_two_levels o h root v :
  well_formed o h root ->
  (forall n c cn, h !! root = Some n -> c ∈ children n -> h !! c = Some cn ->
     children cn = []) ->
  exists N b h',
    (forall fuel, (N <= fuel)%nat -> insert fuel root v h = Ok b h') /\
    well_formed o h' root /\
    forall k, stored h' root k <-> k = v \/ stored h root k.
Proof.
  intros [t Hwf] Hflat.
  destruct (insert_tracked o h root t v Hwf)
    as (N & b & t' & h' & Hrun & Hwf' & _ & Hin & Hex).
  exists N, b, h'. split; [exact Hrun|]. split; [exists t'; exact Hwf'|].
  intros k. rewrite (wf_stored _ _ _ _ k Hwf), (wf_stored _ _ _ _ k Hwf').
  split; [apply Hin|apply Hex]. left. eapply wf_two_levels; eassumption.
Qed.

(** X6.  Insertion followed by search: on a well-formed tree whose leaves
    all have room, or whose root has only leaves as children, the inserted
    value is found after [insert] returns. *)
Theorem insert_then_contains o h root v :
  well_formed o h root ->
  (forall r n, reach h root r -> h !! r = Some n -> children n = [] ->
     len (keys n) < order n) \/
  (forall n c cn, h !! root = Some n -> c ∈ children n -> h !! c = Some cn ->
     children cn = []) ->
  exists N b h',
    forall fuel, (N <= fuel)%nat ->
      insert fuel root v h = Ok b h' /\
      contains fuel root v h' = Ok true h'.
Proof.
  intros [t Hwf] Hcond.
  destruct (insert_tracked o h root t v Hwf)
    as (N & b & t' & h' & Hrun & Hwf' & _ & _ & Hex).
  assert (v ∈ inorder t') as Hv.
  { apply Hex; [|left; reflexivity].
    destruct Hcond as [Hroom|Hflat]; [right|left].
    - eapply wf_leaf_room; eassumption.
    - eapply wf_two_levels; eassumption. }
  destruct Hwf' as [Ho <- Hr Hnd Hs Hok].
  exists (N `max` height t')%nat, b, h'. intros fuel Hfuel.
  split; [apply Hrun; lia|].
  apply (contains_shape o h' v t' None Hr Hok Hs fuel ltac:(lia)), Hv.
Qed.

(** ** Sequences of insertions *)

Lemma empty_wf o : 1 <= o -> wf o (empty o) 0%nat (Sh 0%nat [] []).
Proof.
  intros Ho. constructor.
  - exact Ho.
  - reflexivity.
  - constructor; [reflexivity|constructor].
  - simpl. apply NoDup_singleton.
  - constructor.
  - constructor; [|constructor]. split; [unfold len; simpl; lia|left; reflexivity].
Qed.

Lemma insert_all_well_formed o root values :
  forall h, well_formed o h root ->
  exists N h',
    (forall fuel, (N <= fuel)%nat ->
       insert_all fuel root values h = Ok tt h') /\
    well_formed o h' root.
Proof.
  induction values as [|v values IH]; intros h Hwf.
  - exists 0%nat, h. split; [reflexivity|exact Hwf].
  - destruct (insert_well_formed o h root v Hwf) as (N1 & b & h1 & Hrun1 & Hwf1).
    destruct (IH h1 Hwf1) as (N2 & h2 & Hrun2 & Hwf2).
    exists (N1 `max` N2)%nat, h2. split; [|exact Hwf2].
    intros fuel Hfuel. simpl.
    rewrite (bind_ok _ _ _ _ _ (Hrun1 fuel ltac:(lia))).
    apply Hrun2. lia.
Qed.

Lemma wf_child_count o h root t r n :
  wf o h root t -> reach h root r -> h !! r = Some n ->
  children n <> [] -> length (children n) = S (length (keys n)).
Proof.
  intros [Ho <- Hr Hnd Hs Hok] Hreach Hn Hne.
  destruct (reach_subtree _ _ _ _ _ Hr Hreach) as (s & Hs' & <-).
  destruct (subtree_lookup _ _ _ _ _ Hr Hs') as [p' Hl].
  rewrite Hl in Hn. injection Hn as <-. simpl in *.
  rewrite Forall_forall in Hok. destruct (Hok s Hs') as [_ [Hnil|Hcnt]].
  - rewrite Hnil in Hne. contradiction.
  - rewrite length_fmap. exact Hcnt.
Qed.

Lemma wf_parent_refs o h root t r n c :
  wf o h root t -> reach h root r -> h !! r = Some n -> c ∈ children n ->
  exists cn, h !! c = Some cn /\ parent cn = Some r.
Proof.
  intros [Ho <- Hr Hnd Hs Hok] Hreach Hn Hc.
  destruct (reach_subtree _ _ _ _ _ Hr Hreach) as (s & Hs' & <-).
  destruct (subtree_repr _ _ _ _ _ Hr Hs') as [p' Hrs].
  destruct s as [id ks cs]. apply repr_inv in Hrs as [Hid Hcs].
  simpl in Hn |- *. rewrite Hid in Hn. injection Hn as <-. simpl in Hc.
  apply list_elem_of_fmap in Hc as (sc & -> & Hsc).
  rewrite Forall_forall in Hcs. specialize (Hcs sc Hsc).
  destruct sc as [g gks gcs]. apply repr_inv in Hcs as [Hg _].
  eexists. split; [exact Hg|reflexivity].
Qed.

(** X17.  After any sequence of [insert] calls on an empty tree of order
    at least 1, every call having returned, every inner node under the
    root has one more child than keys, and every child refers back to its
    parent. *)
Theorem insert_only_invariants o values :
  1 <= o ->
  exists N h,
    (forall fuel, (N <= fuel)%nat ->
       insert_all fuel 0%nat values (empty o) = Ok tt h) /\
    (forall r n, reach h 0%nat r -> h !! r = Some n -> children n <> [] ->
       length (children n) = S (length (keys n))) /\
    (forall r n c, reach h 0%nat r -> h !! r = Some n -> c ∈ children n ->
       exists cn, h !! c = Some cn /\ parent cn = Some r).
Proof.
  intros Ho.
  destruct (insert_all_well_formed o 0%nat values (empty o))
    as (N & h & Hrun & [t Hwf]).
  { eexists. apply empty_wf, Ho. }
  exists N, h. split; [exact Hrun|]. split.
  - intros r n. eapply wf_child_count, Hwf.
  - intros r n c. eapply wf_parent_refs, Hwf.
Qed.

Lemma insert_all_tracked o root values :
  forall h t, wf o h root t ->
  exists N t' h',
    (forall fuel, (N <= fuel)%nat ->
       insert_all fuel root values h = Ok tt h') /\
    wf o h' root t' /\
    forall k, k ∈ inorder t' -> k ∈ values \/ k ∈ inorder t.
Proof.
  induction values as [|v values IH]; intros h t Hwf.
  - exists 0%nat, t, h. split; [reflexivity|]. split; [exact Hwf|auto].
  - destruct (insert_tracked o h root t v Hwf)
      as (N1 & b & t1 & h1 & Hrun1 & Hwf1 & _ & Hin1 & _).
    destruct (IH h1 t1 Hwf1) as (N2 & t2 & h2 & Hrun2 & Hwf2 & Hin2).
    exists (N1 `max` N2)%nat, t2, h2. split; [|split; [exact Hwf2|]].
    + intros fuel Hfuel. simpl.
      rewrite (bind_ok _ _ _ _ _ (Hrun1 fuel ltac:(lia))).
      apply Hrun2. lia.
    + intros k Hk. rewrite elem_of_cons.
      destruct (Hin2 k Hk) as [Hv|Hk1]; [auto|].
      destruct (Hin1 k Hk1); auto.
Qed.

(** X7.  After any sequence of values is inserted into a fresh tree of
    order at least 1, every call having returned, a value that is not in
    the sequence is not found: [value in tree] returns [False]. *)
Theorem contains_only_inserted o values k :
  1 <= o -> k ∉ values ->
  exists N h,
    forall fuel, (N <= fuel)%nat ->
      insert_all fuel 0%nat values (empty o) = Ok tt h /\
      contains fuel 0%nat k h = Ok false h.
Proof.
  intros Ho Hk.
  destruct (insert_all_tracked o 0%nat values _ _ (empty_wf o Ho))
    as (N & t' & h' & Hrun & Hwf & Hin).
  pose proof Hwf as [_ Hroot Hr _ Hs Hok].
  exists (N `max` height t')%nat, h'. intros fuel Hfuel.
  split; [apply Hrun; lia|]. rewrite <- Hroot.
  apply (contains_shape o h' k t' None Hr Hok Hs fuel ltac:(lia)).
  intros Hkin. destruct (Hin k Hkin) as [Hv|Hnil]; [contradiction|].
  inversion Hnil.
Qed.

(** ** Removing a stored value from leaves that can spare a key *)

Lemma py_set_nat {A} (l : list A) (i : nat) x :
  (i < length l)%nat -> Py.set l (Z.of_nat i) x = Some (<[i := x]> l).
Proof.
  intros Hlt. unfold Py.set, Py.norm_index.
  destruct (Z.leb_spec 0 (Z.of_nat i)); [|lia].
  destruct (Z.ltb_spec (Z.of_nat i) (Z.of_nat (length l))); [|lia].
  simpl. rewrite Nat2Z.id. reflexivity.
Qed.

Lemma sorted_last_tail (A B : list Z) m :
  StronglySorted Z.lt (A ++ m :: B) -> last (A ++ m :: B) = Some m -> B = [].
Proof.
  intros Hs Hlast. destruct (decide (B = [])) as [|Hne]; [assumption|].
  exfalso. destruct (exists_last Hne) as (B' & b & ->).
  replace (A ++ m :: B' ++ [b]) with ((A ++ m :: B') ++ [b]) in Hlast
    by (rewrite <- app_assoc; reflexivity).
  rewrite last_snoc in Hlast. injection Hlast as ->.
  apply StronglySorted_app in Hs as (_ & _ & Hs).
  apply StronglySorted_cons in Hs as [Hall _].
  rewrite Forall_forall in Hall.
  assert (m < m); [|lia]. apply Hall, elem_of_app. right. left.
Qed.

Lemma sorted_middle_fresh (A B : list Z) v :
  StronglySorted Z.lt (A ++ v :: B) -> (v ∉ A) /\ (v ∉ B).
Proof.
  intros Hs. apply StronglySorted_app in Hs as (Hab & _ & Hs).
  apply StronglySorted_cons in Hs as [Hall _]. rewrite Forall_forall in Hall.
  split; intros Hin.
  - assert (v < v); [|lia]. apply Hab; [exact Hin|left].
  - specialize (Hall v Hin). lia.
Qed.

(** [_remove_rebalance] on the root returns at once. *)
Lemma rebalance_root h r n fuel :
  h !! r = Some n -> parent n = None -> (1 <= fuel)%nat ->
  _remove_rebalance fuel r h = Ok tt h.
Proof.
  intros Hn Hp Hfuel. destruct fuel as [|fuel]; [lia|].
  assert (rebalance_choice r h = Ok NoParent h) as Hchoice.
  { unfold rebalance_choice.
    rewrite (bind_ok _ _ _ _ _ (load_ok _ _ _ Hn)), Hp. reflexivity. }
  simpl _remove_rebalance. rewrite (bind_ok _ _ _ _ _ Hchoice). reflexivity.
Qed.

(** One child of a node replaced by a tree with the same references. *)
Lemma replace_child o h h' p id ks ks' cs i c c' :
  cs !! i = Some c ->
  NoDup (ids (Sh id ks cs)) ->
  Forall (repr o h (Some id)) cs ->
  h !! id = Some (Node o ks' (sid <$> cs) p) ->
  repr o h' (Some id) c' -> sid c' = sid c -> ids c' = ids c ->
  (forall r, r ∉ ids c -> h' !! r = h !! r) ->
  repr o h' p (Sh id ks' (<[i := c']> cs)) /\
  ids (Sh id ks' (<[i := c']> cs)) = ids (Sh id ks cs).
Proof.
  intros Hc Hnd Hcs Hid Hr' Hsid Hids Hframe.
  simpl in Hnd. apply NoDup_cons in Hnd as [Hidn Hnd].
  pose proof (take_drop_middle cs i c Hc) as Hsplit.
  assert (<[i := c']> cs = take i cs ++ c' :: drop (S i) cs) as Hins.
  { apply insert_take_drop. eapply lookup_lt_Some, Hc. }
  split.
  - constructor.
    + rewrite list_fmap_insert, Hsid.
      rewrite list_insert_id by (rewrite list_lookup_fmap, Hc; reflexivity).
      rewrite Hframe; [exact Hid|]. intros Hin. apply Hidn.
      eapply ids_child; [eapply list_elem_of_lookup_2, Hc|exact Hin].
    + rewrite Hins. rewrite <- Hsplit in Hcs, Hnd.
      apply Forall_app in Hcs as [Hl Hrr].
      apply Forall_cons in Hrr as [_ Hrr].
      rewrite bind_app, bind_cons in Hnd.
      apply NoDup_app in Hnd as (_ & Hdisj1 & Hnd).
      apply NoDup_app in Hnd as (_ & Hdisj2 & _).
      apply Forall_app. split; [|constructor; [exact Hr'|]].
      * eapply Forall_repr_agree; [exact Hl|]. intros r Hr. apply Hframe.
        intros Hrc. eapply Hdisj1; [exact Hr|]. apply elem_of_app. left.
        exact Hrc.
      * eapply Forall_repr_agree; [exact Hrr|]. intros r Hr. apply Hframe.
        intros Hrc. eapply Hdisj2; eassumption.
  - simpl. f_equal. rewrite Hins. rewrite <- Hsplit at 3.
    rewrite !bind_app, !bind_cons, Hids. reflexivity.
Qed.

Lemma inorder_replace id ks cs i c' :
  (i < length cs)%nat -> (i <= length ks)%nat ->
  inorder (Sh id ks (<[i := c']> cs)) =
    ileft (inorder <$> take i cs) (take i ks) ++ inorder c' ++
    itail (drop i ks) (inorder <$> drop (S i) cs).
Proof.
  intros Hi Hk. simpl. rewrite insert_take_drop by exact Hi.
  rewrite <- (take_drop i ks) at 1.
  rewrite fmap_app, fmap_cons. apply interleave_middle.
  rewrite length_fmap, !length_take. lia.
Qed.

Lemma spare_nonempty o s : 0 <= o -> leaf_spare o s -> leaf_nonempty s.
Proof.
  intros Ho Hsp Hleaf Hnil. specialize (Hsp Hleaf). rewrite Hnil in Hsp.
  change (len (@nil Z)) with 0 in Hsp.
  assert (0 <= o / 2) by (apply Z.div_pos; lia). lia.
Qed.

Lemma remove_first_at (ks : list Z) v j :
  StronglySorted Z.lt ks -> ks !! j = Some v ->
  Py.remove_first ks v = Some (take j ks ++ drop (S j) ks).
Proof.
  intros Hs. revert j. induction Hs as [|k ks Hs IH Hk]; intros j Hj;
    [discriminate|].
  simpl. destruct j as [|j]; simpl in Hj.
  - injection Hj as ->. destruct (decide (v = v)); [reflexivity|contradiction].
  - rewrite Forall_forall in Hk.
    pose proof (Hk v (list_elem_of_lookup_2 _ _ _ Hj)).
    destruct (decide (k = v)); [lia|]. rewrite (IH j Hj). reflexivity.
Qed.

Lemma removed_in_place_reach h a b v h' :
  reach h a b -> removed_in_place h b v h' -> removed_in_place h a v h'.
Proof.
  intros Hab (x & xn & j & Hreach & Hrest). exists x, xn, j.
  split; [eapply reach_trans; eassumption|exact Hrest].
Qed.

(** Removing the largest key of a subtree whose leaves can spare a key:
    the search runs down the last children to the last leaf and takes its
    last key. *)
Lemma remove_max_shape o h m t :
  0 <= o ->
  forall p, repr o h p t ->
  Forall (node_ok o) (subtrees t) ->
  StronglySorted Z.lt (inorder t) ->
  Forall (leaf_spare o) (subtrees t) ->
  last (inorder t) = Some m ->
  exists s lk p',
    s ∈ subtrees t /\ skids s = [] /\
    h !! sid s = Some (Node o (lk ++ [m]) [] p') /\
    forall fuel, (height t <= fuel)%nat ->
      remove fuel (sid t) m h = Ok PyTrue (<[sid s := Node o lk [] p']> h).
Proof.
  intros Ho. induction t as [id ks cs IH] using shape_ind'.
  intros p Hr Hok Hs Hsp Hlast.
  apply repr_inv in Hr as [Hid Hcs].
  destruct (decide (cs = [])) as [->|Hne].
  { simpl in Hlast, Hs. apply last_Some in Hlast as [lk ->].
    assert (Forall (fun k => k < m) lk) as Hlt.
    { apply Forall_forall. intros k Hk.
      apply (StronglySorted_app_1_elem_of _ _ _ _ _ Hs Hk). left. }
    exists (Sh id (lk ++ [m]) []), lk, p. split; [left|].
    split; [reflexivity|]. split; [exact Hid|].
    intros fuel Hfuel. simpl in Hfuel.
    apply (remove_leaf_run h id o (lk ++ [m]) lk p m (length lk) fuel Hid
             (find_slot_last _ _ Hlt) (remove_first_last _ _ Hlt)); [|lia].
    apply Forall_subtrees in Hsp as [Hsp _]. specialize (Hsp eq_refl).
    cbn [skeys] in Hsp. unfold len in *. rewrite length_app in Hsp.
    simpl in Hsp. lia. }
  pose proof Hok as Hok'. apply Forall_subtrees in Hok' as [Hn _].
  pose proof (inner_child_count _ _ _ _ Hn Hne) as Hlen.
  destruct (lookup_lt_is_Some_2 cs (length ks)) as [c Hc]; [lia|].
  pose proof (Forall_lookup_1 _ _ _ _ Hcs Hc) as Hrc.
  pose proof (child_subtrees_ok _ _ _ _ _ _ Hc Hok) as Hokc.
  pose proof (child_subtrees_ok _ _ _ _ _ _ Hc Hsp) as Hspc.
  assert (length ks <= length ks)%nat as Hle by lia.
  pose proof (sorted_child _ _ _ _ _ Hc Hle Hs) as Hsc.
  assert (Forall leaf_nonempty (subtrees c)) as Hnec.
  { eapply Forall_impl; [exact Hspc|]. intros s. apply spare_nonempty, Ho. }
  destruct (maximum_shape o h c (Some id) Hrc Hokc Hnec) as (m' & Hm' & _).
  rewrite (inorder_child _ _ _ _ _ Hc Hle) in Hlast, Hs.
  rewrite !last_app in Hlast. rewrite drop_all, (drop_ge cs) in Hlast by lia.
  simpl in Hlast. rewrite Hm' in Hlast. injection Hlast as ->.
  assert (Forall (fun k => k < m) ks) as Hlt.
  { apply Forall_forall. intros k Hk.
    eapply (StronglySorted_app_1_elem_of _ _ _ _ _ Hs).
    - apply keys_in_ileft.
      + rewrite length_fmap, !length_take. lia.
      + rewrite firstn_all. exact Hk.
    - apply elem_of_app. left. eapply last_Some_elem_of, Hm'. }
  destruct (Forall_lookup_1 _ _ _ _ IH Hc (Some id) Hrc Hokc Hsc Hspc Hm')
    as (s & lk & p' & Hsub & Hleaf & Hlook & Hrun).
  exists s, lk, p'. split; [|split; [exact Hleaf|split; [exact Hlook|]]].
  { right. apply list_elem_of_bind. exists c.
    split; [exact Hsub|eapply list_elem_of_lookup_2, Hc]. }
  intros [|fuel] Hfuel; [simpl in Hfuel; lia|].
  pose proof (height_lookup id ks cs _ c Hc) as Hh.
  simpl remove. rewrite (bind_ok _ _ _ _ _ (load_ok _ _ _ Hid)).
  cbn [keys children]. rewrite (truthy_fmap _ _ Hne), (find_slot_past _ _ Hlt).
  rewrite (py_get_last_lookup (sid <$> cs) (sid c)), lift_some, bind_ret.
  - cbv beta. apply Hrun. lia.
  - rewrite length_fmap, list_lookup_fmap.
    replace (length cs - 1)%nat with (length ks) by lia.
    rewrite Hc. reflexivity.
Qed.

Lemma remove_shape o t :
  0 <= o ->
  forall v p h,
    repr o h p t -> NoDup (ids t) ->
    Forall (node_ok o) (subtrees t) ->
    StronglySorted Z.lt (inorder t) ->
    Forall (leaf_spare o) (skids t ≫= subtrees) ->
    p = None \/ leaf_spare o t ->
    v ∈ inorder t ->
    exists t' h' A B,
      (forall fuel, (2 * height t < fuel)%nat ->
         remove fuel (sid t) v h = Ok PyTrue h') /\
      repr o h' p t' /\ sid t' = sid t /\ ids t' = ids t /\
      inorder t = A ++ v :: B /\ inorder t' = A ++ B /\
      Forall (node_ok o) (subtrees t') /\
      (forall r, r ∉ ids t -> h' !! r = h !! r) /\
      removed_in_place h (sid t) v h'.
Proof.
  intros Ho. induction t as [id ks cs IH] using shape_ind'.
  intros v p h Hr Hnd Hok Hs Hsp Hroot Hv.
  pose proof Hr as Hr0. apply repr_inv in Hr0 as [Hid Hcs].
  assert (StronglySorted Z.lt ks) as Hks.
  { eapply sublist_strongly_sorted; [|exact Hs]. apply keys_sublist_interleave. }
  pose proof Hok as Hn. apply Forall_subtrees in Hn as [Hn Hkids].
  destruct (decide (cs = [])) as [->|Hne].
  { (* a leaf *)
    simpl in Hv, Hs.
    destruct (find_slot_hit ks v Hks Hv) as [j E].
    pose proof (find_slot_sorted ks v Hks) as Hj. rewrite E in Hj.
    pose proof (remove_first_at ks v j Hks Hj) as Hrf.
    pose proof (take_drop_middle ks j v Hj) as Heq. symmetry in Heq.
    set (A := take j ks) in *. set (B := drop (S j) ks) in *.
    set (ks' := A ++ B).
    set (h1 := <[id := Node o ks' [] p]> h).
    assert (h1 !! id = Some (Node o ks' [] p)) as Hid1
      by (apply list_lookup_insert_eq; eapply lookup_lt_Some, Hid).
    assert (len ks = len ks' + 1) as Hlen.
    { subst ks'. rewrite Heq at 1. unfold len. rewrite !length_app. simpl.
      lia. }
    exists (Sh id ks' []), h1, A, B. split; [|split; [|split; [|split]]].
    - intros [|fuel] Hfuel; [simpl in Hfuel; lia|].
      simpl remove. rewrite (bind_ok _ _ _ _ _ (load_ok _ _ _ Hid)).
      cbn [keys children fmap list_fmap truthy]. rewrite E, Hrf, lift_some.
      rewrite bind_ret. cbv beta.
      rewrite (bind_ok _ _ _ _ _ (set_keys_ok _ _ _ _ Hid)).
      cbn [order keys children parent fmap list_fmap]. fold ks'. fold h1.
      rewrite (bind_ok _ _ _ _ _ (load_ok _ _ _ Hid1)). cbn [order keys].
      destruct (Z.ltb_spec (len ks') (o / 2)) as [Hunder|Hfine];
        [|reflexivity].
      destruct Hroot as [->|Hspare].
      + rewrite (bind_ok _ _ _ _ _
                   (rebalance_root h1 id _ fuel Hid1 eq_refl
                      ltac:(simpl in Hfuel; lia))).
        reflexivity.
      + specialize (Hspare eq_refl). simpl in Hspare. lia.
    - constructor; [exact Hid1|constructor].
    - reflexivity.
    - reflexivity.
    - split; [exact Heq|]. split; [reflexivity|]. split; [|split].
      + apply Forall_subtrees. split; [|constructor].
        destruct Hn as [Hcap _]. simpl in Hcap.
        split; [simpl; lia|left; reflexivity].
      + intros r Hr'. apply list_lookup_insert_ne. intros ->.
        apply Hr'. left.
      + exists id, (Node o ks [] p), j. split; [constructor|].
        split; [exact Hid|]. split; [exact Hj|]. left.
        split; reflexivity. }
  (* an inner node *)
  pose proof (inner_child_count _ _ _ _ Hn Hne) as Hlen.
  pose proof Hnd as Hnd0. simpl in Hnd0.
  apply NoDup_cons in Hnd0 as [Hidn Hndc].
  destruct (NoDup_bind_inv ids cs Hndc) as [Hndeach _].
  assert (forall i c, cs !! i = Some c ->
            repr o h (Some id) c /\ NoDup (ids c) /\
            Forall (node_ok o) (subtrees c) /\
            Forall (leaf_spare o) (subtrees c) /\ id ∉ ids c) as Hchild.
  { intros i c Hc. pose proof (list_elem_of_lookup_2 _ _ _ Hc) as Hin.
    split; [exact (Forall_lookup_1 _ _ _ _ Hcs Hc)|].
    split; [apply Hndeach, Hin|].
    split; [eapply child_subtrees_ok; eassumption|]. split.
    - apply Forall_forall. intros s Hs'. rewrite Forall_forall in Hsp.
      apply Hsp. simpl. apply list_elem_of_bind. eauto.
    - intros Hidc. apply Hidn. eapply ids_child; eassumption. }
  destruct (hit_or_miss ks v) as [[j E]|Hmiss].
  { (* the value is a key of this node: its predecessor takes its place *)
    pose proof (find_slot_sorted ks v Hks) as Hj. rewrite E in Hj.
    pose proof (lookup_lt_Some _ _ _ Hj) as Hjlt.
    destruct (lookup_lt_is_Some_2 cs j) as [c Hc]; [lia|].
    destruct (Hchild j c Hc) as (Hrc & Hndc' & Hokc & Hspc & Hidc).
    assert (Forall leaf_nonempty (subtrees c)) as Hnec.
    { eapply Forall_impl; [exact Hspc|]. intros s. apply spare_nonempty, Ho. }
    destruct (maximum_shape o h c (Some id) Hrc Hokc Hnec)
      as (pred & Hlast & Hmax).
    set (ks1 := <[j := pred]> ks).
    set (h1 := <[id := Node o ks1 (sid <$> cs) p]> h).
    assert (h1 !! id = Some (Node o ks1 (sid <$> cs) p)) as Hid1
      by (apply list_lookup_insert_eq; eapply lookup_lt_Some, Hid).
    assert (forall r, r <> id -> h1 !! r = h !! r) as Hout.
    { intros r Hne'. apply list_lookup_insert_ne. congruence. }
    assert (Forall (repr o h1 (Some id)) cs) as Hcs1.
    { eapply Forall_repr_agree; [exact Hcs|]. intros r Hr'. apply Hout.
      intros ->. contradiction. }
    pose proof (Forall_lookup_1 _ _ _ _ Hcs1 Hc) as Hrc1.
    assert (j <= length ks)%nat as Hjle by lia.
    pose proof (sorted_child _ _ _ _ _ Hc Hjle Hs) as Hsc.
    pose proof (last_Some_elem_of _ _ Hlast) as Hpred.
    destruct c as [g gks gcs].
    pose proof Hspc as Hspc'. apply Forall_subtrees in Hspc' as [Hself _].
    rewrite Forall_bind in Hsp.
    destruct (Forall_lookup_1 _ _ _ _ IH Hc pred (Some id) h1 Hrc1 Hndc' Hokc
                Hsc)
      as (c' & h2 & A' & B' & Hrec & Hrc' & Hsid & Hids & HinA & HinB
          & Hokc' & Hframe & _).
    { simpl. apply Forall_bind.
      apply Forall_subtrees in Hspc as [_ Hbelow]. exact Hbelow. }
    { right. exact Hself. }
    { exact Hpred. }
    assert (B' = []) as ->.
    { eapply sorted_last_tail; rewrite <- HinA; eassumption. }
    rewrite app_nil_r in HinB.
    destruct (replace_child o h1 h2 p id ks ks1 cs j _ c' Hc Hnd Hcs1 Hid1
                Hrc' Hsid Hids Hframe) as [Hrepr Hsame].
    set (IL := ileft (inorder <$> take j cs) (take j ks)).
    set (REST := interleave (inorder <$> drop (S j) cs) (drop (S j) ks)).
    exists (Sh id ks1 (<[j := c']> cs)), h2, (IL ++ A' ++ [pred]), REST.
    split; [|split; [exact Hrepr|split; [reflexivity|split; [exact Hsame|]]]].
    - intros [|fuel] Hfuel; [simpl in Hfuel; lia|].
      pose proof (height_lookup id ks cs j _ Hc) as Hh.
      simpl remove. rewrite (bind_ok _ _ _ _ _ (load_ok _ _ _ Hid)).
      cbn [keys children]. rewrite (truthy_fmap _ _ Hne), E.
      assert (Py.get (sid <$> cs) (Z.of_nat j) = Some g) as Hget.
      { apply py_get_nat. rewrite list_lookup_fmap, Hc. reflexivity. }
      rewrite Hget, lift_some, bind_ret. cbv beta.
      rewrite (bind_ok _ _ _ _ _ (Hmax fuel ltac:(lia))).
      rewrite (bind_ok _ _ _ _ _ (load_ok _ _ _ Hid)). cbn [keys].
      rewrite (py_set_nat ks j pred Hjlt), lift_some, bind_ret. cbv beta.
      rewrite (bind_ok _ _ _ _ _ (set_keys_ok _ _ _ _ Hid)).
      cbn [order keys children parent]. fold ks1. fold h1.
      rewrite (bind_ok _ _ _ _ _ (load_ok _ _ _ Hid1)). cbn [children].
      rewrite Hget, lift_some, bind_ret. cbv beta.
      apply Hrec. lia.
    - split; [|split; [|split; [|split]]].
      + rewrite (inorder_child _ _ _ _ _ Hc) by lia.
        rewrite HinA, (drop_S _ _ _ Hj). cbn [itail]. fold IL REST.
        rewrite <- !app_assoc. reflexivity.
      + subst ks1. rewrite inorder_replace by (rewrite ?length_insert; lia).
        rewrite take_insert_ge by lia.
        rewrite (drop_S _ pred j)
          by (apply list_lookup_insert_eq; exact Hjlt).
        rewrite drop_insert_lt by lia. cbn [itail]. fold IL REST.
        rewrite HinB, <- !app_assoc. reflexivity.
      + apply Forall_subtrees. split.
        * destruct Hn as [Hcap Hcnt]. subst ks1. split; simpl in *.
          -- unfold len in *. rewrite length_insert. exact Hcap.
          -- right. rewrite !length_insert. exact Hlen.
        * apply Forall_insert; assumption.
      + intros r Hr'. rewrite Hframe, Hout; [reflexivity| |].
        * intros ->. apply Hr'. left.
        * intros Hin. apply Hr'. right.
          eapply ids_child; [eapply list_elem_of_lookup_2, Hc|exact Hin].
      + destruct (remove_max_shape o h1 pred _ Ho (Some id) Hrc1 Hokc Hsc
                    Hspc Hlast)
          as (s & lk & p' & Hsub & Hleaf & Hlook & Hexp).
        pose proof (Hrec (S (2 * height (Sh g gks gcs))) ltac:(lia)) as Hat.
        rewrite Hexp in Hat by lia. injection Hat as <-.
        assert (sid s <> id) as Hsne.
        { intros Heq. apply Hidc. rewrite ids_subtrees, <- Heq.
          apply list_elem_of_fmap. eauto. }
        rewrite (Hout _ Hsne) in Hlook.
        exists id, (Node o ks (sid <$> cs) p), j. split; [constructor|].
        split; [exact Hid|]. split; [exact Hj|]. right.
        exists g, pred, (sid s), (Node o (lk ++ [pred]) [] p'), lk.
        split; [cbn [children]; rewrite list_lookup_fmap, Hc; reflexivity|].
        split; [apply (stored_inorder o h (Some id) (Sh g gks gcs) pred Hrc);
                exact Hpred|].
        split.
        { intros k Hk.
          apply (stored_inorder o h (Some id) (Sh g gks gcs) k Hrc) in Hk.
          eapply sorted_last_max; eassumption. }
        split; [apply (subtree_reach o h (Sh g gks gcs) (Some id) s Hrc Hsub)|].
        split; [exact Hlook|]. split; [reflexivity|].
        split; reflexivity. }
  (* the value is below: go on in the child the scan selects *)
  destruct (descend o id ks cs v Hne Hn Hs Hmiss)
    as (i & c & _ & Hi & Hc & Hg & Hl & Hrr).
  destruct (Hchild i c Hc) as (Hrc & Hndc' & Hokc & Hspc & Hidc).
  pose proof (sorted_child _ _ _ _ _ Hc Hi Hs) as Hsc.
  pose proof (stored_below _ _ _ _ _ _ Hc Hi Hl Hrr Hv) as Hvc.
  destruct c as [g gks gcs].
  pose proof Hspc as Hspc'. apply Forall_subtrees in Hspc' as [Hself Hbelow].
  destruct (Forall_lookup_1 _ _ _ _ IH Hc v (Some id) h Hrc Hndc' Hokc Hsc)
    as (c' & h2 & A' & B' & Hrec & Hrc' & Hsid & Hids & HinA & HinB
        & Hokc' & Hframe & Hplace).
  { simpl. apply Forall_bind. exact Hbelow. }
  { right. exact Hself. }
  { exact Hvc. }
  destruct (replace_child o h h2 p id ks ks cs i _ c' Hc Hnd Hcs Hid
              Hrc' Hsid Hids Hframe) as [Hrepr Hsame].
  set (IL := ileft (inorder <$> take i cs) (take i ks)).
  set (IT := itail (drop i ks) (inorder <$> drop (S i) cs)).
  exists (Sh id ks (<[i := c']> cs)), h2, (IL ++ A'), (B' ++ IT).
  split; [|split; [exact Hrepr|split; [reflexivity|split; [exact Hsame|]]]].
  - intros [|fuel] Hfuel; [simpl in Hfuel; lia|].
    pose proof (height_lookup id ks cs i _ Hc) as Hh.
    simpl remove. rewrite (bind_ok _ _ _ _ _ (load_ok _ _ _ Hid)).
    cbn [keys children]. rewrite (truthy_fmap _ _ Hne).
    destruct (find_slot ks v) as [j|j|];
      [exfalso; eapply Hmiss; reflexivity|..].
    all: rewrite Hg, lift_some, bind_ret; cbv beta; apply Hrec; lia.
  - pose proof (lookup_lt_Some _ _ _ Hc) as Hilt.
    split; [|split; [|split; [|split]]].
    + rewrite (inorder_child _ _ _ _ _ Hc Hi), HinA. fold IL IT.
      rewrite <- !app_assoc. reflexivity.
    + rewrite inorder_replace by lia. fold IL IT.
      rewrite HinB, <- !app_assoc. reflexivity.
    + apply Forall_subtrees. split.
      * destruct Hn as [Hcap Hcnt]. split; simpl in *; [exact Hcap|].
        right. rewrite length_insert. exact Hlen.
      * apply Forall_insert; assumption.
    + intros r Hr'. apply Hframe. intros Hin. apply Hr'. right.
      eapply ids_child; [eapply list_elem_of_lookup_2, Hc|exact Hin].
    + eapply removed_in_place_reach; [|exact Hplace].
      eapply reach_child; [constructor|exact Hid|]. cbn [children].
      apply list_elem_of_fmap. exists (Sh g gks gcs).
      split; [reflexivity|eapply list_elem_of_lookup_2, Hc].
Qed.

Lemma remove_tracked o h t v :
  wf o h (sid t) t ->
  (forall r n, reach h (sid t) r -> r <> sid t -> h !! r = Some n ->
     children n = [] -> order n / 2 < len (keys n)) ->
  v ∈ inorder t ->
  exists t' h',
    (forall fuel, (2 * height t < fuel)%nat ->
       remove fuel (sid t) v h = Ok PyTrue h') /\
    wf o h' (sid t) t' /\
    (forall k, k ∈ inorder t' <-> k ∈ inorder t /\ k <> v) /\
    removed_in_place h (sid t) v h'.
Proof.
  intros [Ho _ Hr Hnd Hs Hok] Hspare Hv.
  assert (Forall (leaf_spare o) (skids t ≫= subtrees)) as Hsp.
  { apply Forall_forall. intros s Hs' Hleaf. destruct t as [id ks cs].
    assert (s ∈ subtrees (Sh id ks cs)) as Hsub by (right; exact Hs').
    destruct (subtree_lookup _ _ _ _ _ Hr Hsub) as [p' Hl].
    apply (Hspare _ _ (subtree_reach _ _ _ _ _ Hr Hsub)
             (proper_subtree_id _ _ _ _ Hnd Hs') Hl).
    simpl. rewrite Hleaf. reflexivity. }
  destruct (remove_shape o t ltac:(lia) v None h Hr Hnd Hok Hs Hsp
              (or_introl eq_refl) Hv)
    as (t' & h' & A & B & Hrun & Hr' & Hsid & Hids & HinA & HinB & Hok' & _
        & Hplace).
  rewrite HinA in Hs.
  destruct (sorted_middle_fresh A B v Hs) as [HvA HvB].
  exists t', h'. split; [exact Hrun|]. split; [|split; [|exact Hplace]].
  - constructor; try assumption.
    + rewrite Hids. exact Hnd.
    + rewrite HinB. eapply sublist_strongly_sorted; [|exact Hs].
      apply sublist_app; [reflexivity|]. apply sublist_cons. reflexivity.
  - intros k. rewrite HinA, HinB, !elem_of_app, elem_of_cons. split.
    + intros [Hk|Hk]; (split; [tauto|]); intros ->; contradiction.
    + tauto.
Qed.

(** X8.  Removing a stored value, no underflow: on a well-formed tree in
    which every leaf other than the root holds more than [order // 2]
    keys, [remove] of a stored value returns [True]; the tree is again well
    formed and stores exactly the other keys.  Nothing is rebalanced: the
    store changes in place, as [removed_in_place] says.  A key of a leaf is
    taken from that leaf.  A key of an inner node is replaced by its
    predecessor, the largest key below the child to its left, and the
    predecessor is taken from the end of its leaf.  No children list and
    no other node changes. *)
Theorem remove_no_underflow o h root v :
  well_formed o h root ->
  (forall r n, reach h root r -> r <> root -> h !! r = Some n ->
     children n = [] -> order n / 2 < len (keys n)) ->
  stored h root v ->
  exists N h',
    (forall fuel, (N <= fuel)%nat -> remove fuel root v h = Ok PyTrue h') /\
    well_formed o h' root /\
    (forall k, stored h' root k <-> stored h root k /\ k <> v) /\
    removed_in_place h root v h'.
Proof.
  intros [t Hwf] Hspare Hv. pose proof Hwf as [_ Hroot _ _ _ _]. subst root.
  apply (wf_stored _ _ _ _ v Hwf) in Hv.
  destruct (remove_tracked o h t v Hwf Hspare Hv)
    as (t' & h' & Hrun & Hwf' & Hk & Hplace).
  exists (S (2 * height t)), h'. split; [|split; [|split; [|exact Hplace]]].
  - intros fuel Hfuel. apply Hrun. lia.
  - exists t'. exact Hwf'.
  - intros k. rewrite (wf_stored _ _ _ _ k Hwf), (wf_stored _ _ _ _ k Hwf').
    apply Hk.
Qed.

(** X9.  Removal followed by search: under the same conditions the removed
    value is no longer found once [remove] has returned. *)
Theorem remove_then_contains o h root v :
  well_formed o h root ->
  (forall r n, reach h root r -> r <> root -> h !! r = Some n ->
     children n = [] -> order n / 2 < len (keys n)) ->
  stored h root v ->
  exists N h',
    forall fuel, (N <= fuel)%nat ->
      remove fuel root v h = Ok PyTrue h' /\
      contains fuel root v h' = Ok false h'.
Proof.
  intros [t Hwf] Hspare Hv. pose proof Hwf as [_ Hroot _ _ _ _]. subst root.
  apply (wf_stored _ _ _ _ v Hwf) in Hv.
  destruct (remove_tracked o h t v Hwf Hspare Hv)
    as (t' & h' & Hrun & Hwf' & Hk & _).
  pose proof Hwf' as [_ Hroot' Hr' _ Hs' Hok'].
  exists (S (2 * height t) `max` height t')%nat, h'. intros fuel Hfuel.
  split; [apply Hrun; lia|]. rewrite <- Hroot'.
  apply (contains_shape o h' v t' None Hr' Hok' Hs' fuel ltac:(lia)).
  intros Hin. apply Hk in Hin as [_ Hne]. contradiction.
Qed.

(** ** Siblings *)

Lemma index_nodup {A} `{EqDecision A} (l : list A) (x : A) i :
  NoDup l -> l !! i = Some x -> Py.index l x = Some i.
Proof.
  intros Hnd Hi.
  destruct (index_elem l x (list_elem_of_lookup_2 _ _ _ Hi)) as (j & Hj & Hl).
  rewrite Hj. f_equal. eapply NoDup_lookup; eassumption.
Qed.

Lemma left_sibling_at h x n p pn i :
  h !! x = Some n -> parent n = Some p -> h !! p = Some pn ->
  NoDup (children pn) -> children pn !! i = Some x ->
  left_sibling x h =
    Ok (match i with O => None | S j => children pn !! j end) h.
Proof.
  intros Hn Hp Hpn Hnd Hi. unfold left_sibling.
  rewrite (bind_ok _ _ _ _ _ (load_ok _ _ _ Hn)), Hp.
  rewrite (bind_ok _ _ _ _ _ (load_ok _ _ _ Hpn)).
  rewrite (index_nodup _ _ _ Hnd Hi), lift_some, bind_ret. cbv beta.
  destruct i as [|j]; [reflexivity|]. simpl Nat.eqb. cbv iota.
  pose proof (lookup_lt_Some _ _ _ Hi) as Hlt.
  destruct (lookup_lt_is_Some_2 (children pn) j) as [s Hs]; [lia|].
  replace (Z.of_nat (S j) - 1) with (Z.of_nat j) by lia.
  rewrite (py_get_nat _ _ _ Hs), Hs. reflexivity.
Qed.

Lemma right_sibling_at h x n p pn i :
  h !! x = Some n -> parent n = Some p -> h !! p = Some pn ->
  NoDup (children pn) -> children pn !! i = Some x ->
  right_sibling x h = Ok (children pn !! S i) h.
Proof.
  intros Hn Hp Hpn Hnd Hi. unfold right_sibling.
  rewrite (bind_ok _ _ _ _ _ (load_ok _ _ _ Hn)), Hp.
  rewrite (bind_ok _ _ _ _ _ (load_ok _ _ _ Hpn)).
  rewrite (index_nodup _ _ _ Hnd Hi), lift_some, bind_ret. cbv beta.
  rewrite (bind_ok _ _ _ _ _ (num_children_ok _ _ _ Hpn)). unfold len.
  pose proof (lookup_lt_Some _ _ _ Hi) as Hlt.
  destruct (Z.eqb_spec (Z.of_nat i) (Z.of_nat (length (children pn)) - 1)).
  - rewrite lookup_ge_None_2 by lia. reflexivity.
  - destruct (lookup_lt_is_Some_2 (children pn) (S i)) as [s Hs]; [lia|].
    replace (Z.of_nat i + 1) with (Z.of_nat (S i)) by lia.
    rewrite (py_get_nat _ _ _ Hs), Hs. reflexivity.
Qed.

Lemma subtree_nodup t s : NoDup (ids t) -> s ∈ subtrees t -> NoDup (ids s).
Proof.
  induction t as [id ks cs IH] using shape_ind'. intros Hnd Hs.
  simpl in Hs. apply elem_of_cons in Hs as [->|Hs]; [exact Hnd|].
  simpl in Hnd. apply NoDup_cons in Hnd as [_ Hnd].
  destruct (NoDup_bind_inv ids cs Hnd) as [Heach _].
  apply list_elem_of_bind in Hs as (c & Hs & Hc).
  rewrite Forall_forall in IH. apply (IH c Hc); [apply Heach, Hc|exact Hs].
Qed.

Lemma wf_children_nodup o h root t r n :
  wf o h root t -> reach h root r -> h !! r = Some n -> NoDup (children n).
Proof.
  intros [Ho <- Hr Hnd Hs Hok] Hreach Hn.
  destruct (reach_subtree _ _ _ _ _ Hr Hreach) as (s & Hs' & <-).
  destruct (subtree_lookup _ _ _ _ _ Hr Hs') as [p' Hl].
  rewrite Hl in Hn. injection Hn as <-. simpl.
  pose proof (subtree_nodup _ _ Hnd Hs') as Hnds. destruct s as [g gks gcs].
  simpl in Hnds |- *. apply NoDup_cons in Hnds as [_ Hnds].
  apply NoDup_sids, Hnds.
Qed.

Lemma wf_root_parent o h root t :
  wf o h root t -> exists n, h !! root = Some n /\ parent n = None.
Proof.
  intros [_ <- Hr _ _ _]. destruct t as [id ks cs].
  apply repr_inv in Hr as [Hid _]. eexists. split; [exact Hid|reflexivity].
Qed.

(** X10.  In a well-formed tree the siblings of the [i]-th child of a node
    are its neighbours in the node's [children]: [left_sibling] is child
    [i-1], or [None] for the first child, and [right_sibling] is child
    [i+1], or [None] for the last.  Neither raises nor changes the
    store. *)
Theorem sibling_positions o h root p pn i x :
  well_formed o h root -> reach h root p -> h !! p = Some pn ->
  children pn !! i = Some x ->
  left_sibling x h =
    Ok (match i with O => None | S j => children pn !! j end) h /\
  right_sibling x h = Ok (children pn !! S i) h.
Proof.
  intros [t Hwf] Hreach Hpn Hi.
  pose proof (wf_children_nodup _ _ _ _ _ _ Hwf Hreach Hpn) as Hnd.
  destruct (wf_parent_refs _ _ _ _ _ _ _ Hwf Hreach Hpn
              (list_elem_of_lookup_2 _ _ _ Hi)) as (n & Hn & Hp).
  split.
  - eapply left_sibling_at; eassumption.
  - eapply right_sibling_at; eassumption.
Qed.

Lemma reach_parent o h root t x :
  wf o h root t -> reach h root x -> x <> root ->
  exists p pn i, reach h root p /\ h !! p = Some pn /\
    children pn !! i = Some x.
Proof.
  intros Hwf Hreach Hne. destruct Hreach as [|p pn x Hp Hpn Hx];
    [contradiction|].
  apply list_elem_of_lookup_1 in Hx as [i Hi]. eauto 10.
Qed.

(** X11.  The root of a well-formed tree has no sibling, and the two
    sibling properties are inverse to each other: [y] is the left sibling
    of [x] exactly when [x] is the right sibling of [y]. *)
Theorem siblings_inverse o h root x y :
  well_formed o h root ->
  left_sibling root h = Ok None h /\ right_sibling root h = Ok None h /\
  (reach h root x -> left_sibling x h = Ok (Some y) h ->
     right_sibling y h = Ok (Some x) h) /\
  (reach h root y -> right_sibling y h = Ok (Some x) h ->
     left_sibling x h = Ok (Some y) h).
Proof.
  intros [t Hwf].
  destruct (wf_root_parent _ _ _ _ Hwf) as (rn & Hrn & Hrp).
  assert (left_sibling root h = Ok None h) as Hl0.
  { unfold left_sibling.
    rewrite (bind_ok _ _ _ _ _ (load_ok _ _ _ Hrn)), Hrp. reflexivity. }
  assert (right_sibling root h = Ok None h) as Hr0.
  { unfold right_sibling.
    rewrite (bind_ok _ _ _ _ _ (load_ok _ _ _ Hrn)), Hrp. reflexivity. }
  split; [exact Hl0|]. split; [exact Hr0|].
  assert (forall z p pn i, reach h root p -> h !! p = Some pn ->
            children pn !! i = Some z ->
            exists n, h !! z = Some n /\ parent n = Some p) as Hup.
  { intros z p pn i Hp Hpn Hi.
    exact (wf_parent_refs _ _ _ _ _ _ _ Hwf Hp Hpn
             (list_elem_of_lookup_2 _ _ _ Hi)). }
  split.
  - intros Hreach Hleft.
    destruct (decide (x = root)) as [->|Hne]; [congruence|].
    destruct (reach_parent _ _ _ _ _ Hwf Hreach Hne)
      as (p & pn & i & Hp & Hpn & Hi).
    pose proof (wf_children_nodup _ _ _ _ _ _ Hwf Hp Hpn) as Hnd.
    destruct (Hup _ _ _ _ Hp Hpn Hi) as (n & Hn & Hpar).
    rewrite (left_sibling_at _ _ _ _ _ _ Hn Hpar Hpn Hnd Hi) in Hleft.
    destruct i as [|j]; [discriminate|].
    assert (children pn !! j = Some y) as Hj by congruence.
    destruct (Hup _ _ _ _ Hp Hpn Hj) as (yn & Hyn & Hypar).
    rewrite (right_sibling_at _ _ _ _ _ _ Hyn Hypar Hpn Hnd Hj), Hi.
    reflexivity.
  - intros Hreach Hright.
    destruct (decide (y = root)) as [->|Hne]; [congruence|].
    destruct (reach_parent _ _ _ _ _ Hwf Hreach Hne)
      as (p & pn & j & Hp & Hpn & Hj).
    pose proof (wf_children_nodup _ _ _ _ _ _ Hwf Hp Hpn) as Hnd.
    destruct (Hup _ _ _ _ Hp Hpn Hj) as (yn & Hyn & Hypar).
    rewrite (right_sibling_at _ _ _ _ _ _ Hyn Hypar Hpn Hnd Hj) in Hright.
    assert (children pn !! S j = Some x) as Hi by congruence.
    destruct (Hup _ _ _ _ Hp Hpn Hi) as (n & Hn & Hpar).
    rewrite (left_sibling_at _ _ _ _ _ _ Hn Hpar Hpn Hnd Hi), Hj.
    reflexivity.
Qed.

(** ** Setting the parent references of the children *)

(** X12.  [_insert_fix_parent_refs] makes the node the parent of each of
    its children and changes nothing else: every node keeps its order,
    keys and children, and a node that is not a child of the given node
    is left as it was. *)
Theorem fix_parent_refs_spec h x xn :
  h !! x = Some xn ->
  (forall c, c ∈ children xn -> is_Some (h !! c)) ->
  exists h',
    _insert_fix_parent_refs x h = Ok tt h' /\
    (forall c, c ∈ children xn -> parent_of h' c = Some (Some x)) /\
    (forall r, r ∉ children xn -> h' !! r = h !! r) /\
    (forall r, keys_of h' r = keys_of h r /\
               children_of h' r = children_of h r /\
               order <$> h' !! r = order <$> h !! r).
Proof.
  intros Hx Hall.
  destruct (fix_parent_refs_ok h x xn Hx) as (h' & Hrun & _ & Hout & Hin).
  { intros g Hg. apply lookup_lt_is_Some, Hall, Hg. }
  exists h'. split; [exact Hrun|]. split; [|split; [exact Hout|]].
  - intros c Hc. destruct (Hall c Hc) as [cn Hcn].
    unfold parent_of. rewrite (Hin c cn Hc Hcn). reflexivity.
  - intros r. unfold keys_of, children_of.
    destruct (decide (r ∈ children xn)) as [Hr|Hr].
    + destruct (Hall r Hr) as [rn Hrn]. rewrite (Hin r rn Hr Hrn), Hrn.
      auto.
    + rewrite (Hout r Hr). auto.
Qed.

(** ** Rotating and merging between leaves *)

(** X13.  [_remove_rotate_left] between two leaves does what its docstring
    says: when [dest] and its right sibling are leaves, [dest] has room
    and holds only keys below the separator, and the sibling can spare a
    key, the separator moves to the end of [dest] and the sibling's
    smallest key becomes the separator.  Nothing else changes. *)
Theorem rotate_left_leaves h p o ks cs pp d od dk dq s os m sk sq i sep :
  h !! p = Some (Node o ks cs pp) ->
  h !! d = Some (Node od dk [] dq) ->
  h !! s = Some (Node os (m :: sk) [] sq) ->
  p <> d -> p <> s -> d <> s ->
  Py.index cs d = Some i -> cs !! S i = Some s -> ks !! i = Some sep ->
  Forall (fun k => k < sep) dk -> len dk < od ->
  os / 2 <= len sk ->
  forall fuel, (2 <= fuel)%nat ->
    _remove_rotate_left fuel p d h =
      Ok tt (<[s := Node os sk [] sq]>
               (<[p := Node o (<[i := m]> ks) cs pp]>
                  (<[d := Node od (dk ++ [sep]) [] dq]> h))).
Proof.
  intros Hp Hd Hs Hpd Hps Hds Hidx Hsi Hsep Hlt Hroom Hspare fuel Hfuel.
  destruct fuel as [|fuel]; [lia|].
  assert (1 <= fuel)%nat as Hf by lia.
  pose proof (lookup_lt_Some _ _ _ Hsep) as Hilt.
  set (h1 := <[d := Node od (dk ++ [sep]) [] dq]> h).
  assert (insert fuel d sep h = Ok true h1) as Hins.
  { apply (insert_leaf_run _ _ _ dk _ _ _ _ Hd); [| |exact Hf].
    - rewrite (find_slot_past _ _ Hlt). reflexivity.
    - unfold len in *. rewrite length_app. simpl. lia. }
  assert (h1 !! p = Some (Node o ks cs pp)) as Hp1
    by (subst h1; rewrite list_lookup_insert_ne by congruence; exact Hp).
  assert (h1 !! s = Some (Node os (m :: sk) [] sq)) as Hs1
    by (subst h1; rewrite list_lookup_insert_ne by congruence; exact Hs).
  set (h2 := <[p := Node o (<[i := m]> ks) cs pp]> h1).
  assert (h2 !! p = Some (Node o (<[i := m]> ks) cs pp)) as Hp2
    by (apply list_lookup_insert_eq; eapply lookup_lt_Some, Hp1).
  assert (h2 !! s = Some (Node os (m :: sk) [] sq)) as Hs2
    by (subst h2; rewrite list_lookup_insert_ne by congruence; exact Hs1).
  simpl _remove_rotate_left.
  rewrite (bind_ok _ _ _ _ _ (load_ok _ _ _ Hp)). cbn [keys children].
  rewrite Hidx, lift_some, bind_ret. cbv beta.
  rewrite (py_get_nat _ _ _ Hsep), lift_some, bind_ret. cbv beta.
  rewrite (bind_ok _ _ _ _ _ Hins).
  rewrite (bind_ok _ _ _ _ _ (load_ok _ _ _ Hp1)). cbn [keys children].
  replace (Z.of_nat i + 1) with (Z.of_nat (S i)) by lia.
  rewrite (py_get_nat _ _ _ Hsi), lift_some, bind_ret. cbv beta.
  rewrite (bind_ok _ _ _ _ _ (minimum_leaf_run _ _ _ _ _ _ _ Hs1 Hf)).
  rewrite (bind_ok _ _ _ _ _ (load_ok _ _ _ Hp1)). cbn [keys].
  rewrite (py_set_nat ks i m Hilt), lift_some, bind_ret. cbv beta.
  rewrite (bind_ok _ _ _ _ _ (set_keys_ok _ _ _ _ Hp1)).
  cbn [order keys children parent]. fold h2.
  rewrite (bind_ok _ _ _ _ _ (load_ok _ _ _ Hp2)). cbn [keys children].
  rewrite (py_get_nat _ _ _ Hsi), lift_some, bind_ret. cbv beta.
  rewrite (py_get_nat (<[i := m]> ks) i m)
    by (apply list_lookup_insert_eq; exact Hilt).
  rewrite lift_some, bind_ret. cbv beta.
  rewrite (bind_ok _ _ _ _ _
             (remove_leaf_run h2 s os (m :: sk) sk sq m 0 fuel Hs2
                ltac:(rewrite find_slot_cons, Z.eqb_refl; reflexivity)
                ltac:(simpl; destruct (decide (m = m));
                      [reflexivity|contradiction])
                Hspare Hf)).
  reflexivity.
Qed.

(** X14.  [_remove_rotate_right] between two leaves does what its
    docstring says: when [dest] and its left sibling are leaves, [dest] has
    room and holds only keys above the separator, and the sibling's keys
    increase and it can spare one, the separator moves to the front of
    [dest] and the sibling's largest key becomes the separator.  Nothing
    else changes. *)
Theorem rotate_right_leaves h p o ks cs pp d od dk dq s os m sk sq i sep :
  h !! p = Some (Node o ks cs pp) ->
  h !! d = Some (Node od dk [] dq) ->
  h !! s = Some (Node os (sk ++ [m]) [] sq) ->
  p <> d -> p <> s -> d <> s ->
  Py.index cs d = Some (S i) -> cs !! i = Some s -> ks !! i = Some sep ->
  Forall (fun k => sep < k) dk -> len dk < od ->
  Forall (fun k => k < m) sk -> os / 2 <= len sk ->
  forall fuel, (2 <= fuel)%nat ->
    _remove_rotate_right fuel p d h =
      Ok tt (<[s := Node os sk [] sq]>
               (<[p := Node o (<[i := m]> ks) cs pp]>
                  (<[d := Node od (sep :: dk) [] dq]> h))).
Proof.
  intros Hp Hd Hs Hpd Hps Hds Hidx Hsi Hsep Hgt Hroom Hsorted Hspare
    fuel Hfuel.
  destruct fuel as [|fuel]; [lia|].
  assert (1 <= fuel)%nat as Hf by lia.
  pose proof (lookup_lt_Some _ _ _ Hsep) as Hilt.
  set (h1 := <[d := Node od (sep :: dk) [] dq]> h).
  assert (insert fuel d sep h = Ok true h1) as Hins.
  { apply (insert_leaf_run _ _ _ dk _ _ _ _ Hd); [| |exact Hf].
    - rewrite (find_slot_front _ _ Hgt). destruct dk; reflexivity.
    - unfold len in *. simpl. lia. }
  assert (h1 !! p = Some (Node o ks cs pp)) as Hp1
    by (subst h1; rewrite list_lookup_insert_ne by congruence; exact Hp).
  assert (h1 !! s = Some (Node os (sk ++ [m]) [] sq)) as Hs1
    by (subst h1; rewrite list_lookup_insert_ne by congruence; exact Hs).
  set (h2 := <[p := Node o (<[i := m]> ks) cs pp]> h1).
  assert (h2 !! p = Some (Node o (<[i := m]> ks) cs pp)) as Hp2
    by (apply list_lookup_insert_eq; eapply lookup_lt_Some, Hp1).
  assert (h2 !! s = Some (Node os (sk ++ [m]) [] sq)) as Hs2
    by (subst h2; rewrite list_lookup_insert_ne by congruence; exact Hs1).
  simpl _remove_rotate_right.
  rewrite (bind_ok _ _ _ _ _ (load_ok _ _ _ Hp)). cbn [keys children].
  rewrite Hidx, lift_some, bind_ret. cbv beta zeta.
  replace (Z.of_nat (S i) - 1) with (Z.of_nat i) by lia.
  rewrite (py_get_nat _ _ _ Hsep), lift_some, bind_ret. cbv beta.
  rewrite (bind_ok _ _ _ _ _ Hins).
  rewrite (bind_ok _ _ _ _ _ (load_ok _ _ _ Hp1)). cbn [keys children].
  rewrite (py_get_nat _ _ _ Hsi), lift_some, bind_ret. cbv beta.
  rewrite (bind_ok _ _ _ _ _ (maximum_leaf_run _ _ _ _ _ _ _ Hs1 Hf)).
  rewrite (bind_ok _ _ _ _ _ (load_ok _ _ _ Hp1)). cbn [keys].
  rewrite (py_set_nat ks i m Hilt), lift_some, bind_ret. cbv beta.
  rewrite (bind_ok _ _ _ _ _ (set_keys_ok _ _ _ _ Hp1)).
  cbn [order keys children parent]. fold h2.
  rewrite (bind_ok _ _ _ _ _ (load_ok _ _ _ Hp2)). cbn [keys children].
  rewrite (py_get_nat _ _ _ Hsi), lift_some, bind_ret. cbv beta.
  rewrite (py_get_nat (<[i := m]> ks) i m)
    by (apply list_lookup_insert_eq; exact Hilt).
  rewrite lift_some, bind_ret. cbv beta.
  rewrite (bind_ok _ _ _ _ _
             (remove_leaf_run h2 s os (sk ++ [m]) sk sq m _ fuel Hs2
                (find_slot_last _ _ Hsorted) (remove_first_last _ _ Hsorted)
                Hspare Hf)).
  reflexivity.
Qed.

(** X15.  [_remove_combine_left] between two leaves, when the parent is
    the root or keeps [order // 2] keys: the separator and the keys of the
    child are appended to the left sibling and the separator leaves the
    parent's keys.  The parent's children stay as they were, so the child
    is still one of them, and the child keeps its keys. *)
Theorem combine_left_leaves h p o ks cs pp l ol lk lq c oc ck cq i sep :
  h !! p = Some (Node o ks cs pp) ->
  h !! l = Some (Node ol lk [] lq) ->
  h !! c = Some (Node oc ck [] cq) ->
  p <> l -> p <> c -> l <> c ->
  Py.index cs c = Some (S i) -> cs !! i = Some l -> ks !! i = Some sep ->
  pp = None \/ o / 2 <= len ks - 1 ->
  forall fuel, (2 <= fuel)%nat ->
    _remove_combine_left fuel p (Some c) h =
      Ok tt (<[p := Node o (take i ks ++ drop (S i) ks) cs pp]>
               (<[l := Node ol (lk ++ [sep] ++ ck) [] lq]> h)).
Proof.
  intros Hp Hl Hc Hpl Hpc Hlc Hidx Hli Hsep Hstop fuel Hfuel.
  destruct fuel as [|fuel]; [lia|].
  assert (1 <= fuel)%nat as Hf by lia.
  pose proof (lookup_lt_Some _ _ _ Hsep) as Hilt.
  pose proof (lookup_lt_Some _ _ _ Hl) as Hllt.
  set (h1 := <[l := Node ol (lk ++ [sep]) [] lq]> h).
  assert (h1 !! l = Some (Node ol (lk ++ [sep]) [] lq)) as Hl1
    by (apply list_lookup_insert_eq; exact Hllt).
  assert (h1 !! c = Some (Node oc ck [] cq)) as Hc1
    by (subst h1; rewrite list_lookup_insert_ne by congruence; exact Hc).
  set (L := Node ol (lk ++ [sep] ++ ck) [] lq).
  set (h2 := <[l := L]> h).
  assert (<[l := L]> h1 = h2) as Hh2 by apply list_insert_insert_eq.
  assert (<[l := L]> h2 = h2) as Hh3 by apply list_insert_insert_eq.
  assert (h2 !! l = Some L) as Hl2
    by (apply list_lookup_insert_eq; exact Hllt).
  assert (h2 !! c = Some (Node oc ck [] cq)) as Hc2
    by (subst h2; rewrite list_lookup_insert_ne by congruence; exact Hc).
  assert (h2 !! p = Some (Node o ks cs pp)) as Hp2
    by (subst h2; rewrite list_lookup_insert_ne by congruence; exact Hp).
  set (ks' := take i ks ++ drop (S i) ks).
  set (h3 := <[p := Node o ks' cs pp]> h2).
  assert (h3 !! p = Some (Node o ks' cs pp)) as Hp3
    by (apply list_lookup_insert_eq; eapply lookup_lt_Some, Hp2).
  assert (len ks = len ks' + 1) as Hlen.
  { subst ks'. unfold len. rewrite <- (take_drop_middle ks i sep Hsep) at 1.
    rewrite !length_app. simpl. lia. }
  simpl _remove_combine_left.
  rewrite (bind_ok _ _ _ _ _ (load_ok _ _ _ Hp)). cbn [keys children].
  rewrite ?lift_some, ?bind_ret. cbv beta.
  rewrite Hidx, lift_some, bind_ret. cbv beta zeta.
  replace (Z.of_nat (S i) - 1) with (Z.of_nat i) by lia.
  rewrite (py_get_nat _ _ _ Hli), lift_some, bind_ret. cbv beta.
  rewrite (py_get_nat _ _ _ Hsep), lift_some, bind_ret. cbv beta.
  rewrite (bind_ok _ _ _ _ _ (load_ok _ _ _ Hl)). cbn [keys].
  rewrite (bind_ok _ _ _ _ _ (set_keys_ok _ _ _ _ Hl)).
  cbn [order keys children parent]. fold h1.
  rewrite (bind_ok _ _ _ _ _ (load_ok _ _ _ Hl1)).
  rewrite (bind_ok _ _ _ _ _ (load_ok _ _ _ Hc1)). cbn [keys].
  rewrite (bind_ok _ _ _ _ _ (set_keys_ok _ _ _ _ Hl1)).
  cbn [order keys children parent]. rewrite <- app_assoc. fold L.
  rewrite Hh2.
  rewrite (bind_ok _ _ _ _ _ (load_ok _ _ _ Hl2)).
  rewrite (bind_ok _ _ _ _ _ (load_ok _ _ _ Hc2)). cbn [children app].
  rewrite (bind_ok _ _ _ _ _ (set_children_ok _ _ _ _ Hl2)).
  change (Node (order L) (keys L) (children L ++ []) (parent L)) with L.
  rewrite Hh3.
  assert (_insert_fix_parent_refs l h2 = Ok tt h2) as Hfix.
  { unfold _insert_fix_parent_refs.
    rewrite (bind_ok _ _ _ _ _ (load_ok _ _ _ Hl2)). reflexivity. }
  rewrite (bind_ok _ _ _ _ _ Hfix).
  rewrite (bind_ok _ _ _ _ _ (load_ok _ _ _ Hp2)). cbn [keys].
  rewrite (py_del_nat ks i Hilt), lift_some, bind_ret. cbv beta.
  rewrite (bind_ok _ _ _ _ _ (set_keys_ok _ _ _ _ Hp2)).
  cbn [order keys children parent]. fold ks'. fold h3.
  rewrite (bind_ok _ _ _ _ _ (load_ok _ _ _ Hp3)). cbn [order keys].
  destruct (Z.ltb_spec (len ks') (o / 2)) as [Hunder|Hfine]; [|reflexivity].
  destruct Hstop as [->|Hkeep]; [|lia].
  apply (rebalance_root h3 p _ fuel Hp3 eq_refl Hf).
Qed.

(** ** Concrete trees and runs *)

(** Splits a conjunction of closed runs and evaluates them in order. *)
Ltac by_running :=
  repeat match goal with |- _ /\ _ => split end;
  try (vm_compute; reflexivity).

Ltac wf_by_computation :=
  constructor;
  [lia
  |reflexivity
  |repeat (constructor; try reflexivity)
  |apply (bool_decide_unpack _); vm_compute; exact I
  |apply (bool_decide_unpack _); vm_compute; exact I
  |repeat (constructor; [split; [unfold len; simpl; lia|simpl; auto]|]);
   constructor].

Lemma small_tree_wf : wf 2 small_tree 0%nat small_shape.
Proof. wf_by_computation. Defined.

Lemma holed_tree_wf : wf 2 holed_tree 0%nat holed_shape.
Proof. wf_by_computation. Defined.

Lemma leaf_tree_wf : wf 2 leaf_tree 0%nat leaf_shape.
Proof. wf_by_computation. Defined.

Lemma order3_tree_wf : wf 3 order3_tree 0%nat order3_shape.
Proof. wf_by_computation. Defined.

Lemma order1_tree_wf : wf 1 order1_tree 0%nat order1_shape.
Proof. wf_by_computation. Defined.

Lemma full_tree_wf : wf 2 full_tree 0%nat full_shape.
Proof. wf_by_computation. Defined.

Lemma small_tree_stored k : k ∈ [1; 2; 3] -> stored small_tree 0%nat k.
Proof.
  intros Hk. apply (stored_inorder 2 small_tree None small_shape).
  - apply small_tree_wf.
  - exact Hk.
Defined.

(** *** Scenario of the test suite *)

(** C8.  Order 4, inserting 0,-2,2,-4,4,6,8,10,-6,-8,-10,1,3,5,9 into an
    empty tree: the root holds [-6,0,3,6] and has five children holding
    [-10,-8], [-4,-2], [1,2], [4,5] and [8,9,10], each of them with the root
    as its parent. *)
Theorem insert_balancing_scenario :
  exists h c0 c1 c2 c3 c4,
    build 4 [0; -2; 2; -4; 4; 6; 8; 10; -6; -8; -10; 1; 3; 5; 9] = Ok tt h
    /\ keys_of h 0%nat = Some [-6; 0; 3; 6]
    /\ children_of h 0%nat = Some [c0; c1; c2; c3; c4]
    /\ keys_of h c0 = Some [-10; -8]
    /\ keys_of h c1 = Some [-4; -2]
    /\ keys_of h c2 = Some [1; 2]
    /\ keys_of h c3 = Some [4; 5]
    /\ keys_of h c4 = Some [8; 9; 10]
    /\ Forall (fun c => parent_of h c = Some (Some 0%nat)) [c0; c1; c2; c3; c4].
Proof.
  eexists _, _, _, _, _, _. by_running.
  repeat constructor.
Qed.

(** *** Runs on which the code departs from its documentation *)

(** C1.  Order 2, inserting 1, 2, ..., 11 into an empty tree: after the
    first ten every inserted value is found; the eleventh insert returns
    [True], yet [11 in tree] is then false, as are [5 in tree], [7 in tree]
    and [9 in tree].  The split of the inner node holding [6,8,10] hands
    only keys to [_insert_recurse]; the children computed as
    [left_children] and [right_children] are dropped, and with them the
    keys 5, 7, 9 and 11. *)
Theorem contains_after_inner_split :
  exists h h',
    build 2 [1; 2; 3; 4; 5; 6; 7; 8; 9; 10] = Ok tt h
    /\ Forall (fun k => contains 12 0%nat k h = Ok true h)
         [1; 2; 3; 4; 5; 6; 7; 8; 9; 10]
    /\ insert 12 0%nat 11 h = Ok true h'
    /\ Forall (fun k => contains 12 0%nat k h' = Ok false h') [5; 7; 9; 11].
Proof.
  eexists _, _. by_running.
  all: repeat constructor.
Qed.

(** C2.  Removing a value that is larger than every key of the leaf the
    search ends in runs off the end of the loop: [remove] returns [None],
    not [False].  Here the tree is the single leaf holding [1,2], which is
    well formed and does not store 5. *)
Theorem remove_absent_returns_none :
  build 2 [1; 2] = Ok tt leaf_tree
  /\ well_formed 2 leaf_tree 0%nat
  /\ ~ stored leaf_tree 0%nat 5
  /\ forall fuel, remove (S fuel) 0%nat 5 leaf_tree = Ok PyNone leaf_tree.
Proof.
  split; [reflexivity|].
  split; [exists leaf_shape; apply leaf_tree_wf|].
  split; [|reflexivity].
  intros Hst. apply (stored_inorder 2 leaf_tree None leaf_shape) in Hst.
  - simpl in Hst. apply elem_of_cons in Hst as [Hst|Hst]; [discriminate|].
    apply list_elem_of_singleton in Hst. discriminate.
  - apply leaf_tree_wf.
Qed.

(** C3.  Order 2, tree built from 1, 2, 3: the root holds [2] over the
    leaves [1] and [3].  Removing 3 empties the right leaf, and
    [_remove_rebalance] merges it into its left sibling by
    [_remove_combine_left].  The separator leaves the root's keys, but the
    merged leaf stays in the root's children: the root ends with no key and
    two children. *)
Theorem combine_left_keeps_child :
  exists h1 h',
    build 2 [1; 2; 3] = Ok tt small_tree
    /\ well_formed 2 small_tree 0%nat
    /\ set_keys 2%nat [] small_tree = Ok tt h1
    /\ rebalance_choice 2%nat h1 = Ok (CombineSelf 0%nat) h1
    /\ _remove_combine_left 2 0%nat (Some 2%nat) h1 = Ok tt h'
    /\ remove 5 0%nat 3 small_tree = Ok PyTrue h'
    /\ keys_of h' 0%nat = Some []
    /\ children_of h' 0%nat = Some [1%nat; 2%nat]
    /\ keys_of h' 1%nat = Some [1; 2]
    /\ keys_of h' 2%nat = Some [].
Proof.
  eexists _, _. by_running.
  exists small_shape. apply small_tree_wf.
Qed.

(** C4.  The same run seen from the tree: after inserting 1, 2, 3 and
    removing 3 from an empty tree of order 2, the root has children, and
    its number of children is not its number of keys plus one. *)
Theorem child_count_broken_after_remove :
  exists h n,
    (insert_all 5 0%nat [1; 2; 3] ;;; remove 5 0%nat 3) (empty 2)
      = Ok PyTrue h
    /\ reach h 0%nat 0%nat
    /\ h !! 0%nat = Some n
    /\ children n <> []
    /\ length (children n) <> (length (keys n) + 1)%nat.
Proof.
  eexists _, _. by_running.
  - constructor.
  - discriminate.
  - simpl. lia.
Qed.

(** C5.  Order 3, so a non-root node needs at least [ceil(3/2) - 1 = 1]
    key.  The tree built from 1, 2, 3, 4 has root [3] over the leaves [1,2]
    and [4]; it is well formed and meets the occupancy bound.  After
    [remove(4)] the right leaf is still a child of the root and holds no
    key. *)
Theorem underflow_after_remove :
  exists h' n,
    build 3 [1; 2; 3; 4] = Ok tt order3_tree
    /\ well_formed 3 order3_tree 0%nat
    /\ occupancy 3 order3_tree 0%nat
    /\ remove 5 0%nat 4 order3_tree = Ok PyTrue h'
    /\ reach h' 0%nat 2%nat /\ 2%nat <> 0%nat
    /\ h' !! 2%nat = Some n
    /\ len (keys n) < min_keys 3.
Proof.
  eexists _, _. by_running.
  - exists order3_shape. apply order3_tree_wf.
  - change (min_keys 3) with 1.
    intros [|[|[|r]]] n _ Hr Hn; simpl in Hn; try discriminate;
      try contradiction; injection Hn as <-; vm_compute; discriminate.
  - eapply reach_child; [constructor|reflexivity|].
    apply list_elem_of_In. simpl. auto.
  - discriminate.
Qed.

(** *** Inserting a stored value *)

(** At the small tree 3 is stored under the root [2], and inserting it
    again returns [False] on the unchanged store. *)
Lemma insert_present_witness :
  well_formed 2 small_tree 0%nat /\ stored small_tree 0%nat 3 /\
  exists N, forall fuel, (N <= fuel)%nat ->
    insert fuel 0%nat 3 small_tree = Ok false small_tree.
Proof.
  assert (well_formed 2 small_tree 0%nat) as Hwf
    by (exists small_shape; apply small_tree_wf).
  assert (stored small_tree 0%nat 3) as Hst
    by (apply small_tree_stored; repeat constructor).
  split; [exact Hwf|]. split; [exact Hst|].
  exact (insert_present 2 small_tree 0%nat 3 Hwf Hst).
Defined.

(** On a tree whose keys are out of order the statement fails: 7 is stored
    in the left leaf, [insert(7)] searches to the right of 5, adds a second
    7 to the right leaf and returns [True]. *)
Lemma insert_present_unordered :
  stored unordered_tree 0%nat 7 /\
  exists h', insert 3 0%nat 7 unordered_tree = Ok true h' /\
    keys_of h' 2%nat = Some [7; 9] /\ keys_of h' 1%nat = Some [7].
Proof.
  split.
  - exists 1%nat, (Node 2 [7] [] (Some 0%nat)). split; [|split].
    + eapply reach_child; [constructor|reflexivity|]. simpl. left.
    + reflexivity.
    + simpl. left.
  - eexists. by_running.
Qed.

(** The same happens on a tree the methods build themselves: after 1, 2, 3
    are inserted and 3 is removed, 1 is stored in the left leaf and
    [insert(1)] adds it to the emptied right leaf. *)
Lemma insert_present_after_remove :
  exists h h',
    (insert_all 5 0%nat [1; 2; 3] ;;; remove 5 0%nat 3) (empty 2)
      = Ok PyTrue h
    /\ children_of h 0%nat = Some [1%nat; 2%nat]
    /\ keys_of h 1%nat = Some [1; 2]
    /\ insert 5 0%nat 1 h = Ok true h'
    /\ keys_of h' 2%nat = Some [1].
Proof. eexists _, _. by_running. Qed.

(** *** Keys per node after an insertion *)

(** At the small tree: inserting 4 is covered by the theorem. *)
Lemma insert_capacity_witness :
  well_formed 2 small_tree 0%nat /\
  exists N b h',
    (forall fuel, (N <= fuel)%nat ->
       insert fuel 0%nat 4 small_tree = Ok b h') /\
    well_formed 2 h' 0%nat /\
    forall r n, reach h' 0%nat r -> h' !! r = Some n ->
      len (keys n) <= order n.
Proof.
  assert (well_formed 2 small_tree 0%nat) as Hwf
    by (exists small_shape; apply small_tree_wf).
  split; [exact Hwf|].
  exact (insert_capacity 2 small_tree 0%nat 4 Hwf).
Defined.

(** *** Largest and smallest key *)

(** At the small tree the largest key is 3 and the smallest 1. *)
Lemma maximum_minimum_witness :
  well_formed 2 small_tree 0%nat /\
  exists lo hi N,
    (forall fuel, (N <= fuel)%nat ->
       maximum fuel 0%nat small_tree = Ok hi small_tree /\
       minimum fuel 0%nat small_tree = Ok lo small_tree) /\
    stored small_tree 0%nat lo /\ stored small_tree 0%nat hi /\
    forall k, stored small_tree 0%nat k -> lo <= k <= hi.
Proof.
  assert (well_formed 2 small_tree 0%nat) as Hwf
    by (exists small_shape; apply small_tree_wf).
  split; [exact Hwf|].
  apply (maximum_minimum 2 small_tree 0%nat Hwf).
  - intros [|[|[|r]]] n _ Hr Hn Hc; simpl in Hn; try discriminate;
      try contradiction; injection Hn as <-; discriminate.
  - exists 3. apply small_tree_stored. repeat constructor.
Defined.

(** At order 2 invariant 3 allows a node without keys, and there the
    statement fails: the tree with root [5] over an empty leaf and the leaf
    [7] is well formed, meets the occupancy bound and stores 5 and 7, and
    [minimum] raises [IndexError] on the empty leaf. *)
Lemma minimum_empty_leaf :
  well_formed 2 holed_tree 0%nat /\ occupancy 2 holed_tree 0%nat /\
  stored holed_tree 0%nat 5 /\
  (forall fuel, minimum (S (S fuel)) 0%nat holed_tree = Err IndexError) /\
  forall fuel m h', minimum fuel 0%nat holed_tree <> Ok m h'.
Proof.
  split; [exists holed_shape; apply holed_tree_wf|].
  split; [intros r n _ _ _; change (min_keys 2) with 0; unfold len; lia|].
  split.
  { apply (stored_inorder 2 holed_tree None holed_shape).
    - apply holed_tree_wf.
    - simpl. left. }
  split; [reflexivity|].
  intros [|[|fuel]] m h'; discriminate.
Qed.

(** A split at order 1 leaves such a leaf behind: inserting 1 and 2 into
    an empty tree gives the root [2] over the leaf [1] and an empty leaf,
    and [maximum] raises [IndexError] there. *)
Lemma maximum_after_split :
  build 1 [1; 2] = Ok tt order1_tree
  /\ well_formed 1 order1_tree 0%nat
  /\ occupancy 1 order1_tree 0%nat
  /\ stored order1_tree 0%nat 2
  /\ forall fuel, maximum (S (S fuel)) 0%nat order1_tree = Err IndexError.
Proof.
  split; [reflexivity|].
  split; [exists order1_shape; apply order1_tree_wf|].
  split; [intros r n _ _ _; change (min_keys 1) with 0; unfold len; lia|].
  split; [|reflexivity].
  apply (stored_inorder 1 order1_tree None order1_shape).
  - apply order1_tree_wf.
  - simpl. right. left.
Qed.

(** *** Rebalancing a leaf *)


(** The first child has no left sibling: rebalancing the left leaf of the
    small tree selects the merge of its right sibling. *)
Lemma leaf_rebalance_first_child :
  left_sibling 1%nat small_tree = Ok None small_tree /\
  right_sibling 1%nat small_tree = Ok (Some 2%nat) small_tree /\
  rebalance_choice 1%nat small_tree
    = Ok (CombineRight 0%nat (Some 2%nat)) small_tree /\
  rebalance_choice 2%nat small_tree = Ok (CombineSelf 0%nat) small_tree.
Proof. by_running. Qed.


(** *** Searching and inserting at the small tree *)

Lemma small_tree_well_formed : well_formed 2 small_tree 0%nat.
Proof. exists small_shape. apply small_tree_wf. Defined.

Lemma small_tree_room r n :
  reach small_tree 0%nat r -> small_tree !! r = Some n -> children n = [] ->
  len (keys n) < order n.
Proof.
  destruct r as [|[|[|r]]]; intros _ Hn Hc; simpl in Hn; try discriminate;
    injection Hn as <-; simpl in Hc; try discriminate; reflexivity.
Defined.

Lemma small_tree_flat n c cn :
  small_tree !! 0%nat = Some n -> c ∈ children n -> small_tree !! c = Some cn ->
  children cn = [].
Proof.
  intros [= <-] Hc Hcn. simpl in Hc.
  apply elem_of_cons in Hc as [->|Hc];
    [|apply list_elem_of_singleton in Hc as ->];
    simpl in Hcn; injection Hcn as <-; reflexivity.
Defined.

(** 3 is stored in the small tree and is found; the search is covered by
    the theorem. *)
Lemma contains_stored_witness :
  exists N, forall fuel, (N <= fuel)%nat ->
    (stored small_tree 0%nat 3 ->
       contains fuel 0%nat 3 small_tree = Ok true small_tree) /\
    (~ stored small_tree 0%nat 3 ->
       contains fuel 0%nat 3 small_tree = Ok false small_tree).
Proof. exact (contains_stored 2 small_tree 0%nat 3 small_tree_well_formed). Defined.

Lemma insert_result_witness :
  exists N b h',
    (forall fuel, (N <= fuel)%nat ->
       insert fuel 0%nat 4 small_tree = Ok b h') /\
    (b = true <-> ~ stored small_tree 0%nat 4).
Proof. exact (insert_result 2 small_tree 0%nat 4 small_tree_well_formed). Defined.

Lemma insert_adds_nothing_else_witness :
  exists N b h',
    (forall fuel, (N <= fuel)%nat ->
       insert fuel 0%nat 4 small_tree = Ok b h') /\
    forall k, stored h' 0%nat k -> k = 4 \/ stored small_tree 0%nat k.
Proof.
  exact (insert_adds_nothing_else 2 small_tree 0%nat 4 small_tree_well_formed).
Defined.

Lemma insert_with_room_witness :
  exists N b h',
    (forall fuel, (N <= fuel)%nat ->
       insert fuel 0%nat 4 small_tree = Ok b h') /\
    well_formed 2 h' 0%nat /\
    (forall k, stored h' 0%nat k <-> k = 4 \/ stored small_tree 0%nat k) /\
    (stored small_tree 0%nat 4 -> h' = small_tree) /\
    (~ stored small_tree 0%nat 4 ->
     exists leaf n i,
       reach small_tree 0%nat leaf /\ small_tree !! leaf = Some n /\
       children n = [] /\
       h' = <[leaf := Node (order n)
                        (take i (keys n) ++ 4 :: drop i (keys n))
                        [] (parent n)]> small_tree).
Proof.
  exact (insert_with_room 2 small_tree 0%nat 4 small_tree_well_formed
           small_tree_room).
Defined.

Lemma insert_two_levels_witness :
  exists N b h',
    (forall fuel, (N <= fuel)%nat ->
       insert fuel 0%nat 0 small_tree = Ok b h') /\
    well_formed 2 h' 0%nat /\
    forall k, stored h' 0%nat k <-> k = 0 \/ stored small_tree 0%nat k.
Proof.
  exact (insert_two_levels 2 small_tree 0%nat 0 small_tree_well_formed
           small_tree_flat).
Defined.

Lemma insert_then_contains_witness :
  exists N b h',
    forall fuel, (N <= fuel)%nat ->
      insert fuel 0%nat 4 small_tree = Ok b h' /\
      contains fuel 0%nat 4 h' = Ok true h'.
Proof.
  exact (insert_then_contains 2 small_tree 0%nat 4 small_tree_well_formed
           (or_introl small_tree_room)).
Defined.

(** The run itself: 4 goes to the end of the right leaf. *)
Lemma insert_with_room_run :
  insert 2 0%nat 4 small_tree =
    Ok true [Node 2 [2] [1%nat; 2%nat] None;
             Node 2 [1] [] (Some 0%nat);
             Node 2 [3; 4] [] (Some 0%nat)].
Proof. reflexivity. Qed.

(** *** Sequences of insertions *)

Lemma insert_only_invariants_witness :
  exists N h,
    (forall fuel, (N <= fuel)%nat ->
       insert_all fuel 0%nat [1; 2; 3] (empty 2) = Ok tt h) /\
    (forall r n, reach h 0%nat r -> h !! r = Some n -> children n <> [] ->
       length (children n) = S (length (keys n))) /\
    (forall r n c, reach h 0%nat r -> h !! r = Some n -> c ∈ children n ->
       exists cn, h !! c = Some cn /\ parent cn = Some r).
Proof. apply (insert_only_invariants 2 [1; 2; 3]). lia. Defined.

Lemma contains_only_inserted_witness :
  exists N h,
    forall fuel, (N <= fuel)%nat ->
      insert_all fuel 0%nat [1; 2; 3] (empty 2) = Ok tt h /\
      contains fuel 0%nat 5 h = Ok false h.
Proof.
  apply (contains_only_inserted 2 [1; 2; 3] 5); [lia|].
  apply (bool_decide_unpack _). vm_compute. exact I.
Defined.

(** *** Removing *)

Lemma remove_absent_unchanged_witness :
  exists N, forall fuel, (N <= fuel)%nat ->
    remove fuel 0%nat 5 leaf_tree = Ok PyFalse leaf_tree \/
    remove fuel 0%nat 5 leaf_tree = Ok PyNone leaf_tree.
Proof.
  apply (remove_absent_unchanged 2 leaf_tree 0%nat 5).
  - exists leaf_shape. apply leaf_tree_wf.
  - intros Hst. apply (stored_inorder 2 leaf_tree None leaf_shape) in Hst.
    + simpl in Hst. apply elem_of_cons in Hst as [Hst|Hst]; [discriminate|].
      apply list_elem_of_singleton in Hst. discriminate.
    + apply leaf_tree_wf.
Defined.

Lemma full_tree_well_formed : well_formed 2 full_tree 0%nat.
Proof. exists full_shape. apply full_tree_wf. Defined.

Lemma full_tree_spare r n :
  reach full_tree 0%nat r -> r <> 0%nat -> full_tree !! r = Some n ->
  children n = [] -> order n / 2 < len (keys n).
Proof.
  destruct r as [|[|[|r]]]; intros _ Hr Hn Hc; simpl in Hn;
    try discriminate; try contradiction; injection Hn as <-; reflexivity.
Defined.

Lemma full_tree_stored k : k ∈ [1; 2; 3; 4; 5] -> stored full_tree 0%nat k.
Proof.
  intros Hk. apply (stored_inorder 2 full_tree None full_shape).
  - apply full_tree_wf.
  - exact Hk.
Defined.

(** At the tree with root [3] over [1,2] and [4,5]: removing the key of
    the root is covered by the theorem. *)
Lemma remove_no_underflow_witness :
  exists N h',
    (forall fuel, (N <= fuel)%nat ->
       remove fuel 0%nat 3 full_tree = Ok PyTrue h') /\
    well_formed 2 h' 0%nat /\
    (forall k, stored h' 0%nat k <-> stored full_tree 0%nat k /\ k <> 3) /\
    removed_in_place full_tree 0%nat 3 h'.
Proof.
  apply (remove_no_underflow 2 full_tree 0%nat 3 full_tree_well_formed
           full_tree_spare).
  apply full_tree_stored. apply list_elem_of_In. simpl. auto.
Defined.

(** The run itself: the root's key 3 is replaced by 2, the largest key of
    the left leaf, which loses it. *)
Lemma remove_inner_key_run :
  remove 3 0%nat 3 full_tree =
    Ok PyTrue [Node 2 [2] [1%nat; 2%nat] None;
               Node 2 [1] [] (Some 0%nat);
               Node 2 [4; 5] [] (Some 0%nat)].
Proof. reflexivity. Qed.

Lemma remove_then_contains_witness :
  exists N h',
    forall fuel, (N <= fuel)%nat ->
      remove fuel 0%nat 1 full_tree = Ok PyTrue h' /\
      contains fuel 0%nat 1 h' = Ok false h'.
Proof.
  apply (remove_then_contains 2 full_tree 0%nat 1 full_tree_well_formed
           full_tree_spare).
  apply full_tree_stored. apply list_elem_of_In. simpl. auto.
Defined.

(** *** Siblings and parent references *)

Lemma sibling_positions_witness :
  left_sibling 2%nat small_tree = Ok (Some 1%nat) small_tree /\
  right_sibling 2%nat small_tree = Ok None small_tree.
Proof.
  apply (sibling_positions 2 small_tree 0%nat 0%nat
           (Node 2 [2] [1%nat; 2%nat] None) 1%nat 2%nat
           small_tree_well_formed).
  - constructor.
  - reflexivity.
  - reflexivity.
Defined.

Lemma siblings_inverse_witness :
  left_sibling 0%nat small_tree = Ok None small_tree /\
  right_sibling 0%nat small_tree = Ok None small_tree /\
  (reach small_tree 0%nat 2%nat ->
   left_sibling 2%nat small_tree = Ok (Some 1%nat) small_tree ->
   right_sibling 1%nat small_tree = Ok (Some 2%nat) small_tree) /\
  (reach small_tree 0%nat 1%nat ->
   right_sibling 1%nat small_tree = Ok (Some 2%nat) small_tree ->
   left_sibling 2%nat small_tree = Ok (Some 1%nat) small_tree).
Proof.
  exact (siblings_inverse 2 small_tree 0%nat 2%nat 1%nat
           small_tree_well_formed).
Defined.

Lemma fix_parent_refs_spec_witness :
  exists h',
    _insert_fix_parent_refs 0%nat small_tree = Ok tt h' /\
    (forall c, c ∈ [1%nat; 2%nat] -> parent_of h' c = Some (Some 0%nat)) /\
    (forall r, r ∉ [1%nat; 2%nat] -> h' !! r = small_tree !! r) /\
    (forall r, keys_of h' r = keys_of small_tree r /\
               children_of h' r = children_of small_tree r /\
               order <$> h' !! r = order <$> small_tree !! r).
Proof.
  apply (fix_parent_refs_spec small_tree 0%nat
           (Node 2 [2] [1%nat; 2%nat] None) eq_refl).
  intros c Hc. simpl in Hc.
  apply elem_of_cons in Hc as [->|Hc];
    [|apply list_elem_of_singleton in Hc as ->]; eexists; reflexivity.
Defined.

(** *** Rotating and merging between leaves *)

(** At the tree with root [5] over [1,2,3] and [6,7,8]: rotating left into
    the first leaf gives root [6] over [1,2,3,5] and [7,8]. *)
Lemma rotate_left_leaves_witness :
  _remove_rotate_left 2 0%nat 1%nat rotation_tree =
    Ok tt [Node 4 [6] [1%nat; 2%nat] None;
           Node 4 [1; 2; 3; 5] [] (Some 0%nat);
           Node 4 [7; 8] [] (Some 0%nat)].
Proof.
  apply (rotate_left_leaves rotation_tree 0%nat 4 [5] [1%nat; 2%nat] None
           1%nat 4 [1; 2; 3] (Some 0%nat) 2%nat 4 6 [7; 8] (Some 0%nat)
           0%nat 5); try reflexivity; try discriminate.
  - repeat (constructor; [reflexivity|]). constructor.
Defined.

(** At the same tree: rotating right into the second leaf gives root [3]
    over [1,2] and [5,6,7,8]. *)
Lemma rotate_right_leaves_witness :
  _remove_rotate_right 2 0%nat 2%nat rotation_tree =
    Ok tt [Node 4 [3] [1%nat; 2%nat] None;
           Node 4 [1; 2] [] (Some 0%nat);
           Node 4 [5; 6; 7; 8] [] (Some 0%nat)].
Proof.
  apply (rotate_right_leaves rotation_tree 0%nat 4 [5] [1%nat; 2%nat] None
           2%nat 4 [6; 7; 8] (Some 0%nat) 1%nat 4 3 [1; 2] (Some 0%nat)
           0%nat 5); try reflexivity; try discriminate.
  - repeat (constructor; [reflexivity|]). constructor.
  - repeat (constructor; [reflexivity|]). constructor.
Defined.

(** At the small tree: merging the right leaf into the left one gives the
    left leaf [1,2,3] and a root without keys that still has both
    children. *)
Lemma combine_left_leaves_witness :
  _remove_combine_left 2 0%nat (Some 2%nat) small_tree =
    Ok tt [Node 2 [] [1%nat; 2%nat] None;
           Node 2 [1; 2; 3] [] (Some 0%nat);
           Node 2 [3] [] (Some 0%nat)].
Proof.
  apply (combine_left_leaves small_tree 0%nat 2 [2] [1%nat; 2%nat] None
           1%nat 2 [1] (Some 0%nat) 2%nat 2 [3] (Some 0%nat) 0%nat 2);
    try reflexivity; try discriminate.
  left. reflexivity.
Defined.
